(** * Redwood: transaction graph, mempool, gossip and the in-memory state tree

    A shallow embedding of parts of the redwood host:

    - [Tree]: the in-memory keypath tree of [tree/tree.memory.go]
      ([MemoryNode], [Set], [Delete], [CopyToMemory], [makeCopy], ...);
    - [Txs]: transactions of [tx.go] ([Tx.Hash], [PrivateRootKeyForRecipients]);
    - [Ctrl]: the controller and its mempool ([AddTx], [processMempool],
      [processMempoolTx], [validateTxIntrinsics]);
    - [Gossip]: the host's handlers of [host.go] ([onTxReceived],
      [onAckReceived], [markTxSeenByPeer], [broadcastTx]);
    - [TreeQueries]: the readers of the tree ([UintValue], [IntValue],
      [FloatValue], [StringValue], [ContentLength], [Subkeys]) and its
      depth-first iterator;
    - [Wire]: the framing of messages ([WriteMsg], [ReadMsg], [WriteUint64],
      [ReadUint64]); [MsgJSON]: [Msg.UnmarshalJSON]; [Stack]: the stack of
      validators; [Links]: [DetermineLinkType]; [Admission]: [AddTx] over a
      tx store whose calls can fail.

    Go maps are [gmap]s, Go sets ([map[K]struct{}]) are [gset]s.  Objects that
    Go shares by reference (the maps and the diff of a [MemoryNode]) live in
    an explicit heap, so that aliasing between cursors is visible. *)

From Stdlib Require Import ZArith Lia Ascii String List.
From stdpp Require Import base option gmap strings list fin_maps sorting.

Set Warnings "-register-all,-clear-no-such-hyp".

Local Open Scope Z_scope.

(* ===================================================================== *)
(** * Definitions *)
(* ===================================================================== *)

(** ** Errors

    The sentinel errors of the code base and [errors.Wrap]/[errors.Cause] of
    [github.com/pkg/errors]. *)

Inductive error : Type :=
| ErrNoParentYet
| ErrMissingCriticalRefs
| ErrInvalidSignature
| ErrTxMissingParents
| ErrUnsignedTx
| ErrProtocol
| ErrPeerIsSelf
| Err404
| ErrInvalidRange
| ErrRangeOverNonSlice
| ErrOther (msg : string)
| Wrap (cause : error) (msg : string).

Fixpoint Cause (e : error) : error :=
  match e with
  | Wrap c _ => Cause c
  | _ => e
  end.

#[global] Instance error_eq_dec : EqDecision error.
Proof. solve_decision. Defined.

(** Go's [len] of a string, and the slice expression [s[a:b]] on strings and
    on slices.  Indices are Go [int]s. *)

Definition slen (s : string) : Z := Z.of_nat (String.length s).

Definition ssub (s : string) (a b : Z) : string :=
  String.substring (Z.to_nat a) (Z.to_nat (b - a)) s.

Definition slice {A : Type} (l : list A) (a b : Z) : list A :=
  take (Z.to_nat (b - a)) (drop (Z.to_nat a) l).

Definition llen {A : Type} (l : list A) : Z := Z.of_nat (length l).

(** Conversions between Go's fixed-width integers. *)

Definition to_uint64 (z : Z) : Z := z mod 2 ^ 64.

Definition to_int64 (z : Z) : Z := (z + 2 ^ 63) mod 2 ^ 64 - 2 ^ 63.

(** [sort.Slice] with [bytes.Compare]: byte strings in ascending order.  The
    order is total on values, so every sorting algorithm gives this list. *)
Fixpoint insertSorted (k : string) (l : list string) : list string :=
  match l with
  | [] => [k]
  | x :: rest => if String.leb k x then k :: l else x :: insertSorted k rest
  end.

Definition sortBytes (l : list string) : list string :=
  foldr insertSorted [] l.

Module Tree.

(** ** Keypaths

    [tree.Keypath] is declared outside the files at hand. *)

Abbreviation Keypath := string.

Definition KeypathSeparator : ascii := "/"%char.

(** Modelled from the spec: the keypath operations ([Push], [PushIndex],
    [StartsWith], [Parts], [RelativeTo]) of the missing [tree/keypath.go].
    "A byte-string composed of [/]-separated segments; an index segment is
    encoded as a reserved prefix byte followed by big-endian integer." *)
Definition Push (k part : Keypath) : Keypath :=
  if slen k =? 0 then part
  else if slen part =? 0 then k
  else k +:+ String KeypathSeparator part.

Definition SliceIndexPrefix : ascii := "#"%char.

Definition be_byte (i : Z) (k : Z) : ascii :=
  ascii_of_N (Z.to_N ((i / 2 ^ (8 * k)) mod 256)).

(** Modelled from the spec: the index segment, a reserved byte and the index
    as a big-endian [uint64]. *)
Definition EncodeSliceIndex (i : Z) : Keypath :=
  String SliceIndexPrefix
    (String (be_byte i 7) (String (be_byte i 6) (String (be_byte i 5)
    (String (be_byte i 4) (String (be_byte i 3) (String (be_byte i 2)
    (String (be_byte i 1) (String (be_byte i 0) EmptyString)))))))).

Definition PushIndex (k : Keypath) (i : Z) : Keypath :=
  Push k (EncodeSliceIndex i).

(** Modelled from the spec: [k.StartsWith(prefix)] holds when the segments of
    [prefix] are the first segments of [k]. *)
Definition StartsWith (k prefix : Keypath) : bool :=
  if slen prefix =? 0 then true
  else String.prefix prefix k &&
       ((slen k =? slen prefix) ||
        bool_decide (String.get (String.length prefix) k = Some KeypathSeparator)).

Fixpoint splitOn (s : string) : list Keypath :=
  match s with
  | EmptyString => [EmptyString]
  | String c r =>
      if Ascii.eqb c KeypathSeparator then EmptyString :: splitOn r
      else match splitOn r with
           | p :: ps => String c p :: ps
           | [] => [String c EmptyString]
           end
  end.

(** Modelled from the spec: the segments of a keypath; the empty keypath has
    none. *)
Definition Parts (k : Keypath) : list Keypath :=
  if slen k =? 0 then [] else splitOn k.

(** Modelled from the spec: [k.RelativeTo(root)] strips [root] and the
    separator after it; a keypath outside [root] has no relative form. *)
Definition RelativeTo (k root : Keypath) : Keypath :=
  if slen root =? 0 then k
  else if negb (StartsWith k root) then EmptyString
  else if slen k =? slen root then EmptyString
  else ssub k (slen root + 1) (slen k).

(** ** Ranges *)

(** Modelled from the spec: [tree.Range], "[start, end) over sequence indices;
    validity requires start <= end". *)
Record Range : Type := mkRange { r_start : Z; r_end : Z }.

Definition Range_Valid (r : Range) : bool := r_start r <=? r_end r.

Definition Range_Size (r : Range) : Z := to_uint64 (r_end r - r_start r).

Definition Range_ValidForLength (r : Range) (length : Z) : bool :=
  Range_Valid r && (0 <=? r_start r) && (r_end r <=? length).

Definition Range_IndicesForLength (r : Range) (length : Z) : Z * Z :=
  (to_uint64 (r_start r), to_uint64 (r_end r)).

(** ** Values

    What Go stores as [interface{}]: JSON-shaped values. *)

Inductive Value : Type :=
| VNil
| VBool (b : bool)
| VInt (i : Z)
| VUint (u : Z)
| VFloat (bits : Z)
| VString (s : string)
| VBytes (bs : string)
| VMap (m : list (string * Value))
| VSlice (l : list Value).

Inductive NodeType : Type :=
| NodeTypeInvalid
| NodeTypeValue
| NodeTypeMap
| NodeTypeSlice.

Inductive ValueType : Type :=
| ValueTypeInvalid
| ValueTypeString
| ValueTypeUint
| ValueTypeInt
| ValueTypeFloat
| ValueTypeBool
| ValueTypeNil.

#[global] Instance NodeType_eq_dec : EqDecision NodeType.
Proof. solve_decision. Defined.

#[global] Instance Range_eq_dec : EqDecision Range.
Proof. solve_decision. Defined.

(** Modelled from the spec: [walkGoValue] of the missing [tree] helpers,
    "walks the value recursively (maps, sequences, leaves) emitting one
    keypath per node".  The node comes before its children. *)
Fixpoint walkGoValue (v : Value) : list (Keypath * Value) :=
  (EmptyString, v) ::
  match v with
  | VMap m =>
      (fix entries (m : list (string * Value)) : list (Keypath * Value) :=
         match m with
         | [] => []
         | (key, child) :: rest =>
             map (fun e => (Push key (fst e), snd e)) (walkGoValue child)
             ++ entries rest
         end) m
  | VSlice l =>
      (fix elems (i : Z) (l : list Value) : list (Keypath * Value) :=
         match l with
         | [] => []
         | child :: rest =>
             map (fun e => (Push (EncodeSliceIndex i) (fst e), snd e))
                 (walkGoValue child)
             ++ elems (i + 1) rest
         end) 0 l
  | _ => []
  end.

(** ** Diff *)

(** Modelled from the spec: [Diff], which "tracks two sets (added, removed)"
    and "can be toggled off". *)
Record Diff : Type := mkDiff {
  d_enabled : bool;
  d_added : list Keypath;
  d_removed : list Keypath
}.

Definition NewDiff : Diff := mkDiff true [] [].

Definition Diff_AddMany (d : Diff) (ks : list Keypath) : Diff :=
  if d_enabled d then mkDiff true (d_added d ++ ks) (d_removed d) else d.

Definition Diff_RemoveMany (d : Diff) (ks : list Keypath) : Diff :=
  if d_enabled d then mkDiff true (d_added d) (d_removed d ++ ks) else d.

Definition Diff_SetEnabled (d : Diff) (b : bool) : Diff :=
  mkDiff b (d_added d) (d_removed d).

Definition Diff_Copy (d : Diff) : Diff := d.

(** ** The heap

    The three maps and the diff of a [MemoryNode] are reference objects:
    [AtKeypath] and [CopyToMemory] hand the same map to a second cursor.  A
    heap maps locations to their current contents; [h_next] is the first
    location not yet handed out. *)

Abbreviation loc := nat.

Record Heap : Type := mkHeap {
  h_values : gmap loc (gmap string Value);
  h_nodeTypes : gmap loc (gmap string NodeType);
  h_sliceLengths : gmap loc (gmap string Z);
  h_diffs : gmap loc Diff;
  h_next : loc
}.

Definition emptyHeap : Heap := mkHeap ∅ ∅ ∅ ∅ 0%nat.

Definition valuesAt (h : Heap) (l : loc) : gmap string Value :=
  default ∅ (h_values h !! l).
Definition nodeTypesAt (h : Heap) (l : loc) : gmap string NodeType :=
  default ∅ (h_nodeTypes h !! l).
Definition sliceLengthsAt (h : Heap) (l : loc) : gmap string Z :=
  default ∅ (h_sliceLengths h !! l).
Definition diffAt (h : Heap) (l : loc) : Diff :=
  default NewDiff (h_diffs h !! l).

Definition setValuesAt (h : Heap) (l : loc) (m : gmap string Value) : Heap :=
  mkHeap (<[l := m]> (h_values h)) (h_nodeTypes h) (h_sliceLengths h)
         (h_diffs h) (h_next h).
Definition setNodeTypesAt (h : Heap) (l : loc) (m : gmap string NodeType) : Heap :=
  mkHeap (h_values h) (<[l := m]> (h_nodeTypes h)) (h_sliceLengths h)
         (h_diffs h) (h_next h).
Definition setSliceLengthsAt (h : Heap) (l : loc) (m : gmap string Z) : Heap :=
  mkHeap (h_values h) (h_nodeTypes h) (<[l := m]> (h_sliceLengths h))
         (h_diffs h) (h_next h).
Definition setDiffAt (h : Heap) (l : loc) (d : Diff) : Heap :=
  mkHeap (h_values h) (h_nodeTypes h) (h_sliceLengths h)
         (<[l := d]> (h_diffs h)) (h_next h).

(** [make(map...)] and friends: a fresh location. *)
Definition alloc (h : Heap) : loc * Heap :=
  (h_next h,
   mkHeap (h_values h) (h_nodeTypes h) (h_sliceLengths h) (h_diffs h)
          (S (h_next h))).

(** ** MemoryNode *)

Record MemoryNode : Type := mkNode {
  keypath : Keypath;
  rng : option Range;
  keypaths : list Keypath;
  values : loc;
  nodeTypes : loc;
  sliceLengths : loc;
  copied : bool;
  diff : loc
}.

(** Reading a Go map yields the zero value for a missing key. *)
Definition nodeTypeOf (h : Heap) (t : MemoryNode) (k : Keypath) : NodeType :=
  default NodeTypeInvalid (nodeTypesAt h (nodeTypes t) !! k).
Definition sliceLengthOf (h : Heap) (t : MemoryNode) (k : Keypath) : Z :=
  default 0 (sliceLengthsAt h (sliceLengths t) !! k).
Definition valueOf (h : Heap) (t : MemoryNode) (k : Keypath) : Value :=
  default VNil (valuesAt h (values t) !! k).

(** ** Outcomes

    A method runs on its receiver and the heap.  It either returns, or
    panics; both leave a receiver and a heap behind. *)

Inductive Res (A : Type) : Type :=
| Ok (a : A) (n : MemoryNode) (h : Heap)
| Panic (msg : string) (n : MemoryNode) (h : Heap).
Arguments Ok {A} a n h.
Arguments Panic {A} msg n h.

Definition M (A : Type) : Type := MemoryNode -> Heap -> Res A.

Definition ret {A : Type} (a : A) : M A := fun n h => Ok a n h.

Definition bind {A B : Type} (m : M A) (f : A -> M B) : M B :=
  fun n h =>
    match m n h with
    | Ok a n' h' => f a n' h'
    | Panic msg n' h' => Panic msg n' h'
    end.

Definition panic {A : Type} (msg : string) : M A := fun n h => Panic msg n h.

Definition getNode : M MemoryNode := fun n h => Ok n n h.
Definition getHeap : M Heap := fun n h => Ok h n h.
Definition putNode (n' : MemoryNode) : M unit := fun _ h => Ok tt n' h.
Definition putHeap (h' : Heap) : M unit := fun n _ => Ok tt n h'.

#[global] Instance M_ret : MRet M := @ret.
#[global] Instance M_bind : MBind M := fun A B f m => bind m f.

Definition resHeap {A : Type} (r : Res A) : Heap :=
  match r with Ok _ _ h => h | Panic _ _ h => h end.
Definition resNode {A : Type} (r : Res A) : MemoryNode :=
  match r with Ok _ n _ => n | Panic _ n _ => n end.

(** Map statements on the receiver's maps. *)
Definition setNodeType (k : Keypath) (nt : NodeType) : M unit :=
  fun n h => Ok tt n (setNodeTypesAt h (nodeTypes n)
                        (<[k := nt]> (nodeTypesAt h (nodeTypes n)))).
Definition setSliceLength (k : Keypath) (len : Z) : M unit :=
  fun n h => Ok tt n (setSliceLengthsAt h (sliceLengths n)
                        (<[k := len]> (sliceLengthsAt h (sliceLengths n)))).
Definition setValue (k : Keypath) (v : Value) : M unit :=
  fun n h => Ok tt n (setValuesAt h (values n)
                        (<[k := v]> (valuesAt h (values n)))).
Definition deleteNodeType (k : Keypath) : M unit :=
  fun n h => Ok tt n (setNodeTypesAt h (nodeTypes n)
                        (delete k (nodeTypesAt h (nodeTypes n)))).
Definition deleteSliceLength (k : Keypath) : M unit :=
  fun n h => Ok tt n (setSliceLengthsAt h (sliceLengths n)
                        (delete k (sliceLengthsAt h (sliceLengths n)))).
Definition deleteValue (k : Keypath) : M unit :=
  fun n h => Ok tt n (setValuesAt h (values n)
                        (delete k (valuesAt h (values n)))).

(** [NewMemoryNode] *)
Definition NewMemoryNode (h : Heap) : MemoryNode * Heap :=
  let '(lv, h1) := alloc h in
  let '(lt, h2) := alloc h1 in
  let '(ls, h3) := alloc h2 in
  let '(ld, h4) := alloc h3 in
  (mkNode EmptyString None [] lv lt ls false ld,
   setDiffAt (setSliceLengthsAt (setNodeTypesAt (setValuesAt h4 lv ∅) lt ∅) ls ∅)
             ld NewDiff).

(** [findPrefixStart], [findPrefixEnd], [findPrefixRange]: linear scans over
    the receiver's sorted keypath list; [-1] is "not found". *)
Fixpoint firstFrom (p : Keypath -> bool) (i : Z) (l : list Keypath) : Z :=
  match l with
  | [] => -1
  | k :: rest => if p k then i else firstFrom p (i + 1) rest
  end.

Definition findPrefixStart (s : MemoryNode) (n : Z) (prefix : Keypath) : Z :=
  if llen (keypaths s) <=? n then -1
  else if slen prefix =? 0 then 0
  else if llen (keypaths s) =? 0 then -1
  else firstFrom (fun k => StartsWith k prefix) n (drop (Z.to_nat n) (keypaths s)).

Definition findPrefixEnd (s : MemoryNode) (n : Z) (prefix : Keypath) : Z :=
  if llen (keypaths s) <=? n then -1
  else firstFrom (fun k => negb (StartsWith k prefix)) n
                 (drop (Z.to_nat n) (keypaths s)).

Fixpoint findPrefixRange_loop (prefix : Keypath) (start : Z) (i : Z)
    (l : list Keypath) : Z * Z :=
  match l with
  | [] => if start =? -1 then (-1, -1) else (start, i)
  | k :: rest =>
      if StartsWith k prefix then
        findPrefixRange_loop prefix (if start =? -1 then i else start) (i + 1) rest
      else if negb (start =? -1) then (start, i)
      else findPrefixRange_loop prefix start (i + 1) rest
  end.

Definition findPrefixRange (s : MemoryNode) (prefix : Keypath) : Z * Z :=
  if slen prefix =? 0 then (0, llen (keypaths s))
  else findPrefixRange_loop prefix (-1) 0 (keypaths s).

Definition sortKeypaths (l : list Keypath) : list Keypath := sortBytes l.

(** [addKeypaths].  The second [sort.Slice] sorts the tail [s.keypaths[start:]]
    with a comparison that indexes [s.keypaths] itself; the two agree when
    [start] is [0], which is the case whenever the smallest new keypath is the
    root, as it is for every call made by [Set_]. *)
Definition addKeypaths (new : list Keypath) : M unit :=
  match sortKeypaths new with
  | [] => mret tt
  | (first :: _) as sorted =>
      s ← getNode;
      let start := findPrefixStart s 0 first in
      let start := if start =? -1 then 0 else start in
      let all := keypaths s ++ sorted in
      putNode (mkNode (keypath s) (rng s)
                 (slice all 0 start ++ sortKeypaths (slice all start (llen all)))
                 (values s) (nodeTypes s) (sliceLengths s) (copied s) (diff s))
  end.

(** [scanKeypathsWithPrefix].  The callback runs on the receiver; [Acc] is
    what the closure keeps in captured variables. *)
Fixpoint scanList {Acc : Type} (fn : Acc -> Keypath -> Z -> M (option error * Acc))
    (prefix : Keypath) (foundRange : bool) (i : Z) (l : list Keypath) (acc : Acc)
    : M (option error * Acc) :=
  match l with
  | [] => mret (None, acc)
  | kp :: rest =>
      if StartsWith kp prefix then
        r ← fn acc kp i;
        match fst r with
        | Some e => mret (Some e, snd r)
        | None => scanList fn prefix true (i + 1) rest (snd r)
        end
      else if foundRange then mret (None, acc)
      else scanList fn prefix foundRange (i + 1) rest acc
  end.

Fixpoint scanIndices {Acc : Type} (fn : Acc -> Keypath -> Z -> M (option error * Acc))
    (i : Z) (count : nat) (acc : Acc) : M (option error * Acc) :=
  match count with
  | O => mret (None, acc)
  | S count' =>
      s ← getNode;
      match keypaths s !! Z.to_nat i with
      | None => panic "index out of range"
      | Some kp =>
          r ← fn acc kp i;
          match fst r with
          | Some e => mret (Some e, snd r)
          | None => scanIndices fn (i + 1) count' (snd r)
          end
      end
  end.

Definition scanKeypathsWithPrefix {Acc : Type} (prefix : Keypath)
    (rng : option Range) (fn : Acc -> Keypath -> Z -> M (option error * Acc))
    (acc : Acc) : M (option error * Acc) :=
  s ← getNode;
  h ← getHeap;
  match rng with
  | Some r =>
      if negb (bool_decide (nodeTypeOf h s prefix = NodeTypeSlice)) then
        mret (Some ErrRangeOverNonSlice, acc)
      else
        let '(startIdx, endIdx) :=
          Range_IndicesForLength r (to_uint64 (sliceLengthOf h s prefix)) in
        let startKeypathIdx := findPrefixStart s 0 (PushIndex prefix startIdx) in
        if startKeypathIdx =? -1 then mret (None, acc)
        else
          let endKeypathIdx :=
            findPrefixEnd s (startKeypathIdx + 1) (PushIndex prefix endIdx) in
          if endKeypathIdx =? -1 then panic "bad"
          else scanIndices fn startKeypathIdx
                 (Z.to_nat (endKeypathIdx - startKeypathIdx)) acc
  | None => scanList fn prefix false 0 (keypaths s) acc
  end.

(** [makeCopy]: fresh maps holding the entries of the keypaths under the
    receiver's own keypath, and a copy of the diff. *)
Definition copyEntry (oldValues : gmap string Value)
    (oldNodeTypes : gmap string NodeType) (oldSliceLengths : gmap string Z)
    (acc : gmap string Value * gmap string NodeType * gmap string Z)
    (kp : Keypath) : gmap string Value * gmap string NodeType * gmap string Z :=
  let '(values, nodeTypes, sliceLengths) := acc in
  let values := <[kp := default VNil (oldValues !! kp)]> values in
  let nodeTypes := <[kp := default NodeTypeInvalid (oldNodeTypes !! kp)]> nodeTypes in
  let sliceLengths :=
    if bool_decide (default NodeTypeInvalid (nodeTypes !! kp) = NodeTypeSlice)
    then <[kp := default 0 (oldSliceLengths !! kp)]> sliceLengths
    else sliceLengths in
  (values, nodeTypes, sliceLengths).

Definition allocM : M loc :=
  fun n h => let '(l, h') := alloc h in Ok l n h'.

Definition makeCopy : M unit :=
  t ← getNode;
  h ← getHeap;
  let '(start, end_) :=
    if 0 <? slen (keypath t) then findPrefixRange t (keypath t)
    else (0, llen (keypaths t)) in
  let '(start, end_) := if start =? -1 then (0, 0) else (start, end_) in
  let keypaths' := slice (keypaths t) start end_ in
  let '(values', nodeTypes', sliceLengths') :=
    foldl (copyEntry (valuesAt h (values t)) (nodeTypesAt h (nodeTypes t))
                     (sliceLengthsAt h (sliceLengths t)))
          (∅, ∅, ∅) keypaths' in
  lv ← allocM;
  lt ← allocM;
  ls ← allocM;
  ld ← allocM;
  h1 ← getHeap;
  putHeap (setDiffAt (setSliceLengthsAt (setNodeTypesAt (setValuesAt h1
             lv values') lt nodeTypes') ls sliceLengths')
             ld (Diff_Copy (diffAt h (diff t))));;
  putNode (mkNode (keypath t) (rng t) keypaths' lv lt ls false ld).

Definition checkCopied : M unit :=
  t ← getNode;
  if negb (copied t) then mret tt else makeCopy.

(** The range a method works with: its argument, or else the receiver's. *)
Definition resolveRange (rng : option Range) : M (option Range) :=
  t ← getNode;
  match rng, Tree.rng t with
  | None, r => mret r
  | Some _, Some _ => panic "unsupported"
  | Some r, None => mret (Some r)
  end.

Definition rangeInvalid (rng : option Range) : bool :=
  match rng with
  | Some r => negb (Range_Valid r)
  | None => false
  end.

(** [CopyToMemory]: the receiver stays as it is; the result is the new
    node. *)
Definition CopyToMemory (keypath : Keypath) (rng : option Range)
    : M (option MemoryNode * option error) :=
  rng ← resolveRange rng;
  if rangeInvalid rng then mret (None, Some ErrInvalidRange)
  else
    t ← getNode;
    h ← getHeap;
    let cpy := mkNode (Push (Tree.keypath t) keypath) rng (keypaths t)
                 (values t) (nodeTypes t) (sliceLengths t) false (diff t) in
    match makeCopy cpy h with
    | Ok _ cpy' h' => putHeap h';; mret (Some cpy', None)
    | Panic msg _ h' => putHeap h';; panic msg
    end.

(** [AtKeypath]: a second cursor over the same maps. *)
Definition AtKeypath (t : MemoryNode) (keypath : Keypath) (rng : option Range)
    : MemoryNode :=
  mkNode (Push (Tree.keypath t) keypath) rng (keypaths t) (values t)
         (nodeTypes t) (sliceLengths t) false (diff t).

Definition valueTypeOf (v : Value) : ValueType :=
  match v with
  | VString _ => ValueTypeString
  | VFloat _ => ValueTypeFloat
  | VUint _ => ValueTypeUint
  | VInt _ => ValueTypeInt
  | VBool _ => ValueTypeBool
  | VNil => ValueTypeNil
  | _ => ValueTypeInvalid
  end.

(** [NodeInfo] *)
Definition NodeInfo (t : MemoryNode) (h : Heap)
    : NodeType * ValueType * Z * option error :=
  match nodeTypeOf h t (keypath t) with
  | NodeTypeInvalid => (NodeTypeInvalid, ValueTypeInvalid, 0, Some Err404)
  | NodeTypeMap => (NodeTypeMap, ValueTypeInvalid, 0, None)
  | NodeTypeSlice =>
      (NodeTypeSlice, ValueTypeInvalid,
       to_uint64 (sliceLengthOf h t (keypath t)), None)
  | NodeTypeValue =>
      match valuesAt h (values t) !! keypath t with
      | None => (NodeTypeInvalid, ValueTypeInvalid, 0, Some Err404)
      | Some (VString v) => (NodeTypeValue, ValueTypeString, slen v, None)
      | Some v => (NodeTypeValue, valueTypeOf v, 0, None)
      end
  end.

(** [Exists] *)
Definition Exists (t : MemoryNode) (h : Heap) (keypath : Keypath)
    : bool * option error :=
  (bool_decide (is_Some (valuesAt h (values t) !! Push (Tree.keypath t) keypath)),
   None).

(** [Delete] *)
Definition deleteVisited (acc : Z * Z) (kp : Keypath) (i : Z)
    : M (option error * (Z * Z)) :=
  let '(startIdx, stopIdx) := acc in
  let startIdx := if startIdx =? -1 then i else startIdx in
  deleteValue kp;;
  deleteNodeType kp;;
  deleteSliceLength kp;;
  mret (None, (startIdx, i)).

Definition removeScanned (absKeypath : Keypath) (rng : option Range)
    : M (option error) :=
  r ← scanKeypathsWithPrefix absKeypath rng deleteVisited (-1, -1);
  let '(startIdx, stopIdx) := snd r in
  n ← getNode;
  let deletedKeypaths :=
    if -1 <? startIdx then slice (keypaths n) startIdx (stopIdx + 1) else [] in
  (if -1 <? startIdx then
     putNode (mkNode (keypath n) (Tree.rng n)
                (slice (keypaths n) 0 startIdx ++
                 slice (keypaths n) (stopIdx + 1) (llen (keypaths n)))
                (values n) (nodeTypes n) (sliceLengths n) (copied n) (diff n))
   else mret tt);;
  h ← getHeap;
  putHeap (setDiffAt h (diff n) (Diff_RemoveMany (diffAt h (diff n)) deletedKeypaths));;
  mret None.

Definition Delete (keypath : Keypath) (rng : option Range) : M (option error) :=
  rng ← resolveRange rng;
  if rangeInvalid rng then mret (Some ErrInvalidRange)
  else
    checkCopied;;
    n ← getNode;
    h ← getHeap;
    let absKeypath := Push (Tree.keypath n) keypath in
    match rng with
    | None =>
        deleteSliceLength absKeypath;;
        removeScanned absKeypath rng
    | Some r =>
        if negb (Range_Valid r) then mret (Some ErrInvalidRange)
        else
          match nodeTypeOf h n absKeypath with
          | NodeTypeSlice =>
              setSliceLength absKeypath
                (to_int64 (sliceLengthOf h n absKeypath - to_int64 (Range_Size r)));;
              removeScanned absKeypath rng
          | NodeTypeValue =>
              match valueOf h n absKeypath with
              | VString s =>
                  if negb (Range_ValidForLength r (to_uint64 (slen s))) then
                    mret (Some ErrInvalidRange)
                  else
                    let '(startIdx, endIdx) :=
                      Range_IndicesForLength r (to_uint64 (slen s)) in
                    setValue absKeypath
                      (VString (ssub s 0 startIdx +:+ ssub s endIdx (slen s)));;
                    mret None
              | _ => mret (Some ErrRangeOverNonSlice)
              end
          | _ => mret (Some ErrRangeOverNonSlice)
          end
    end.

(** [Set].  The loop over the ancestors of the keypath, then the walk over the
    value. *)
Fixpoint setAncestors (keypath absKeypath : Keypath) (parts : list Keypath)
    (i : Z) (byteIdx : Z) (newKeypaths : list Keypath)
    : M (option error * list Keypath) :=
  match parts with
  | [] => mret (None, newKeypaths)
  | key :: rest =>
      let byteIdx := byteIdx + slen key in
      let partialKeypath :=
        if byteIdx =? 0 then EmptyString else ssub absKeypath 0 byteIdx in
      t ← getNode;
      h ← getHeap;
      let nt := nodeTypeOf h t partialKeypath in
      err ← (if bool_decide (nt = NodeTypeInvalid) then
               setNodeType partialKeypath NodeTypeMap;; mret None
             else if negb (bool_decide (nt = NodeTypeMap)) then
               err ← Delete (RelativeTo partialKeypath keypath) None;
               match err with
               | Some e => mret (Some e)
               | None => setNodeType partialKeypath NodeTypeMap;; mret None
               end
             else mret None);
      match err with
      | Some e => mret (Some e, newKeypaths)
      | None =>
          setAncestors keypath absKeypath rest (i + 1)
            (if i =? 0 then byteIdx else byteIdx + 1)
            (newKeypaths ++ [partialKeypath])
      end
  end.

Definition setWalked (absKeypath : Keypath) (e : Keypath * Value) : M unit :=
  let absNodeKeypath := Push absKeypath (fst e) in
  match snd e with
  | VMap _ => setNodeType absNodeKeypath NodeTypeMap
  | VSlice nv =>
      setNodeType absNodeKeypath NodeTypeSlice;;
      setSliceLength absNodeKeypath (llen nv)
  | nodeValue =>
      setNodeType absNodeKeypath NodeTypeValue;;
      setValue absNodeKeypath nodeValue
  end.

Fixpoint forEachM {A : Type} (f : A -> M unit) (l : list A) : M unit :=
  match l with
  | [] => mret tt
  | x :: rest => f x;; forEachM f rest
  end.

Definition Set_ (keypath : Keypath) (rng : option Range) (value : Value)
    : M (option error) :=
  match rng with
  | Some _ => panic "unsupported"
  | None =>
      checkCopied;;
      err ← Delete keypath rng;
      match err with
      | Some e => mret (Some e)
      | None =>
          t ← getNode;
          let absKeypath := Push (Tree.keypath t) keypath in
          let parts := EmptyString :: Parts absKeypath in
          r ← setAncestors keypath absKeypath (removelast parts) 0 0 [];
          match fst r with
          | Some e => mret (Some e)
          | None =>
              let walked := walkGoValue value in
              forEachM (setWalked absKeypath) walked;;
              let newKeypaths :=
                snd r ++ map (fun e => Push absKeypath (fst e)) walked in
              t ← getNode;
              h ← getHeap;
              putHeap (setDiffAt h (diff t)
                         (Diff_AddMany (diffAt h (diff t)) newKeypaths));;
              addKeypaths newKeypaths;;
              mret None
          end
      end
  end.

(** [ResetDiff] *)
Definition ResetDiff : M unit :=
  n ← getNode;
  ld ← allocM;
  h ← getHeap;
  putHeap (setDiffAt h ld NewDiff);;
  putNode (mkNode (keypath n) (rng n) (keypaths n) (values n) (nodeTypes n)
             (sliceLengths n) (copied n) ld).

(** A mutating call on a node, and a run of such calls. *)
Inductive Mutation : Type :=
| MSet (keypath : Keypath) (rng : option Range) (value : Value)
| MDelete (keypath : Keypath) (rng : option Range).

Definition mutate (m : Mutation) : M (option error) :=
  match m with
  | MSet k r v => Set_ k r v
  | MDelete k r => Delete k r
  end.

(** A panic ends the run; an error is returned to the caller, who goes on. *)
Fixpoint mutateAll (ms : list Mutation) : M unit :=
  match ms with
  | [] => mret tt
  | m :: rest => mutate m;; mutateAll rest
  end.

End Tree.

(** ** Identifiers, addresses, hashes

    The package [types] is not among the files at hand; its fixed-size byte
    arrays are byte strings here. *)

Module types.

Definition ID : Type := string.
Definition Address : Type := string.
Definition Hash : Type := string.
Definition Signature : Type := string.

(** [types.Hash{}] and [types.Address{}]: all bytes zero. *)
Definition zeros (n : nat) : string :=
  string_of_list_ascii (replicate n Ascii.zero).

Definition EmptyHash : Hash := zeros 32.
Definition EmptyAddress : Address := zeros 20.

End types.

(** ** Transactions ([tx.go]) *)

Module Txs.

Definition GenesisTxID : types.ID := "genesis".

Record Patch : Type := mkPatch {
  Keypath : Tree.Keypath;
  Range : option Tree.Range;
  Val : Tree.Value
}.

Record Tx : Type := mkTx {
  ID : types.ID;
  Parents : list types.ID;
  From : types.Address;
  Sig : types.Signature;
  URL : string;
  Patches : list Patch;
  Recipients : list types.Address;
  Checkpoint : bool;
  Valid : bool;
  hash : types.Hash
}.

Definition setValid (tx : Tx) (v : bool) : Tx :=
  mkTx (ID tx) (Parents tx) (From tx) (Sig tx) (URL tx) (Patches tx)
       (Recipients tx) (Checkpoint tx) v (hash tx).

Definition setSig (tx : Tx) (sig : types.Signature) : Tx :=
  mkTx (ID tx) (Parents tx) (From tx) sig (URL tx) (Patches tx)
       (Recipients tx) (Checkpoint tx) (Valid tx) (hash tx).

(** What the code takes from outside the files at hand: the hash function,
    hex and JSON encoding, number formatting, and the signature scheme. *)
Class Primitives : Type := {
  PubKey : Type;
  HashBytes : string -> types.Hash;
  Hash_Hex : types.Hash -> string;
  jsonMarshal : Tree.Value -> string;
  formatInt : Z -> string;
  RecoverSigningPubkey : types.Hash -> types.Signature -> error + PubKey;
  VerifySignature : PubKey -> types.Hash -> types.Signature -> bool;
  PubKey_Address : PubKey -> types.Address;
  SignHash : types.Hash -> error + types.Signature
}.

Section WithPrimitives.
Context `{Primitives}.

Definition KeypathSeparator : string := ".".

(** [Patch.String] *)
Definition quote : string := String (ascii_of_nat 34) EmptyString.

Definition hasDot (key : string) : bool :=
  bool_decide (is_Some (String.index 0 "." key)).

Definition Patch_String (p : Patch) : string :=
  let parts := Tree.Parts (Keypath p) in
  let keypathParts :=
    map (fun key => if hasDot key
                    then "[" +:+ quote +:+ key +:+ quote +:+ "]"
                    else KeypathSeparator +:+ key) parts in
  let s := String.concat "" keypathParts in
  let s := match Range p with
           | Some r => s +:+ "[" +:+ formatInt (Tree.r_start r) +:+ ":" +:+
                       formatInt (Tree.r_end r) +:+ "]"
           | None => s
           end in
  s +:+ " = " +:+ jsonMarshal (Val p).

(** [Tx.Hash]: the receiver is a copy, so the memoised field is only read. *)
Definition Tx_Hash (tx : Tx) : types.Hash :=
  if bool_decide (hash tx = types.EmptyHash) then
    let txBytes := ID tx in
    let txBytes := foldl (fun bs p => bs +:+ p) txBytes (Parents tx) in
    let txBytes := txBytes +:+ URL tx in
    let txBytes := foldl (fun bs p => bs +:+ Patch_String p) txBytes (Patches tx) in
    let txBytes := foldl (fun bs r => bs +:+ r) txBytes (Recipients tx) in
    HashBytes txBytes
  else hash tx.

Definition IsPrivate (tx : Tx) : bool := 0 <? llen (Recipients tx).

(** [PrivateRootKeyForRecipients] *)
Definition PrivateRootKeyForRecipients (recipients : list types.Address) : string :=
  let bs := foldl (fun bs r => bs +:+ r) EmptyString recipients in
  "private-" +:+ Hash_Hex (HashBytes bs).

Definition PrivateRootKey (tx : Tx) : string :=
  PrivateRootKeyForRecipients (Recipients tx).

End WithPrimitives.

End Txs.

(** ** The controller and its mempool *)

Module Ctrl.

Import Txs.

(** Modelled from the spec: the tx store behind the [TxStore] interface, in
    which a tx is "stored unvalidated" on arrival and rewritten once valid;
    "it is never removed".  Entries are keyed by state URI and tx ID. *)
Abbreviation TxStore := (gmap (string * types.ID) Tx).

Definition TxStore_TxExists (s : TxStore) (stateURI : string) (id : types.ID) : bool :=
  bool_decide (is_Some (s !! (stateURI, id))).

Definition TxStore_FetchTx (s : TxStore) (stateURI : string) (id : types.ID)
    : error + Tx :=
  match s !! (stateURI, id) with
  | Some tx => inr tx
  | None => inl Err404
  end.

Definition TxStore_AddTx (s : TxStore) (tx : Tx) : TxStore :=
  <[(URL tx, ID tx) := tx]> s.

(** The state database, the behavior tree and the [onTxProcessed] hook are
    behind interfaces whose implementations are not at hand.
    [applyExtrinsics] stands for the part of [processMempoolTx] between the
    intrinsic checks and the update of the leaves: validators, resolvers, the
    hook, [Save] and [CopyVersion]. *)
Class Extrinsics : Type := {
  StateDB : Type;
  newStateDB : string -> StateDB;
  applyExtrinsics : Tx -> StateDB -> option error * StateDB
}.

Section WithEnvironment.
Context `{Primitives} `{Extrinsics}.

Record controller : Type := mkController {
  stateURI : string;
  txs : gmap types.ID Tx;
  states : StateDB;
  leaves : gset types.ID;
  chMempool : list Tx;
  mempool : list Tx
}.

Definition NewController (stateURI : string) : controller :=
  mkController stateURI ∅ (newStateDB stateURI) ∅ [] [].

Definition setMempool (c : controller) (chMempool mempool : list Tx) : controller :=
  mkController (stateURI c) (txs c) (states c) (leaves c) chMempool mempool.

(** [AddTx]: the result carries the tx as the caller's pointer sees it
    afterwards. *)
Definition AddTx (store : TxStore) (c : controller) (tx : Tx)
    : option error * Tx * (TxStore * controller) :=
  if TxStore_TxExists store (stateURI c) (ID tx) then (None, tx, (store, c))
  else
    let tx := setValid tx false in
    let store := TxStore_AddTx store tx in
    (None, tx, (store, setMempool c (chMempool c ++ [tx]) (mempool c))).

(** [validateTxIntrinsics] *)
Fixpoint checkParents (store : TxStore) (stateURI : string)
    (parents : list types.ID) : option error :=
  match parents with
  | [] => None
  | parentID :: rest =>
      match TxStore_FetchTx store stateURI parentID with
      | inl err =>
          if bool_decide (Cause err = Err404)
          then Some (Wrap ErrNoParentYet "parent tx not found")
          else Some err
      | inr parentTx =>
          if negb (Valid parentTx) && negb (bool_decide (parentID = GenesisTxID))
          then Some (Wrap ErrNoParentYet "parent tx not valid")
          else checkParents store stateURI rest
      end
  end.

Definition validateTxIntrinsics (store : TxStore) (c : controller) (tx : Tx)
    : option error :=
  if (llen (Parents tx) =? 0) && negb (bool_decide (ID tx = GenesisTxID))
  then Some ErrTxMissingParents
  else
    match checkParents store (stateURI c) (Parents tx) with
    | Some err => Some err
    | None =>
        if negb (bool_decide (ID tx = GenesisTxID)) then
          match RecoverSigningPubkey (Tx_Hash tx) (Sig tx) with
          | inl err => Some (Wrap ErrInvalidSignature "recover")
          | inr sigPubKey =>
              if negb (VerifySignature sigPubKey (Tx_Hash tx) (Sig tx))
              then Some (Wrap ErrInvalidSignature "cannot be verified")
              else if negb (bool_decide (PubKey_Address sigPubKey = From tx))
              then Some (Wrap ErrInvalidSignature "address doesn't match")
              else None
          end
        else None
    end.

(** [processMempoolTx] *)
Definition unmarkParents (leaves : gset types.ID) (parents : list types.ID)
    : gset types.ID :=
  foldl (fun leaves parentID => leaves ∖ {[parentID]}) leaves parents.

Definition processMempoolTx (store : TxStore) (c : controller) (tx : Tx)
    : option error * (TxStore * controller) :=
  match validateTxIntrinsics store c tx with
  | Some err => (Some err, (store, c))
  | None =>
      match applyExtrinsics tx (states c) with
      | (Some err, st) =>
          (Some err,
           (store, mkController (stateURI c) (txs c) st (leaves c)
                     (chMempool c) (mempool c)))
      | (None, st) =>
          let leaves := unmarkParents (leaves c) (Parents tx) in
          let leaves := leaves ∪ {[ID tx]} in
          let tx := setValid tx true in
          (None,
           (TxStore_AddTx store tx,
            mkController (stateURI c) (txs c) st leaves
              (chMempool c) (mempool c)))
      end
  end.

(** [processMempool]: one pass over the pending txs, and the loop around
    it. *)
Definition retryable (err : error) : bool :=
  bool_decide (Cause err = ErrNoParentYet) ||
  bool_decide (Cause err = ErrMissingCriticalRefs).

Fixpoint mempoolPass (store : TxStore) (c : controller) (pending : list Tx)
    (anySucceeded : bool) (newMempool : list Tx)
    : bool * list Tx * (TxStore * controller) :=
  match pending with
  | [] => (anySucceeded, newMempool, (store, c))
  | tx :: rest =>
      let '(err, (store, c)) := processMempoolTx store c tx in
      match err with
      | Some e =>
          if retryable e
          then mempoolPass store c rest anySucceeded (newMempool ++ [tx])
          else mempoolPass store c rest anySucceeded newMempool
      | None => mempoolPass store c rest true newMempool
      end
  end.

Fixpoint processMempoolLoop (fuel : nat) (store : TxStore) (c : controller)
    : option (TxStore * controller) :=
  match fuel with
  | O => None
  | S fuel =>
      let '(anySucceeded, newMempool, (store, c)) :=
        mempoolPass store c (mempool c) false [] in
      let c := setMempool c (chMempool c) newMempool in
      if negb anySucceeded then Some (store, c)
      else processMempoolLoop fuel store c
  end.

(** Every pass but the last takes a tx out of the mempool, so one pass more
    than there are pending txs is enough. *)
Definition processMempool (store : TxStore) (c : controller)
    : option (TxStore * controller) :=
  processMempoolLoop (S (length (mempool c))) store c.

(** [mempoolLoop]: what the worker does on a tx from [chMempool], and on the
    signal that a ref was downloaded. *)
Inductive mempoolEvent : Type :=
| EvTx
| EvDownloadedRef.

Definition mempoolLoop (ev : mempoolEvent) (store : TxStore) (c : controller)
    : option (TxStore * controller) :=
  match ev with
  | EvTx =>
      match chMempool c with
      | [] => Some (store, c)
      | tx :: rest => processMempool store (setMempool c rest (mempool c ++ [tx]))
      end
  | EvDownloadedRef => processMempool store c
  end.

Definition HaveTx (c : controller) (txID : types.ID) : bool :=
  bool_decide (is_Some (txs c !! txID)).

Definition Leaves (c : controller) : gset types.ID := leaves c.

(** Modelled from the spec: the [Metacontroller] the host talks to, which
    keeps one controller per state URI ("Responsibilities per state URI") over
    one tx store. *)
Record Metacontroller : Type := mkMetacontroller {
  mc_txStore : TxStore;
  mc_controllers : gmap string controller
}.

Definition controllerFor (m : Metacontroller) (stateURI : string) : controller :=
  default (NewController stateURI) (mc_controllers m !! stateURI).

Definition Metacontroller_HaveTx (m : Metacontroller) (stateURI : string)
    (txID : types.ID) : bool :=
  match mc_controllers m !! stateURI with
  | Some c => HaveTx c txID
  | None => false
  end.

Definition Metacontroller_AddTx (m : Metacontroller) (tx : Tx)
    : option error * Tx * Metacontroller :=
  let '(err, tx', (store, c)) :=
    AddTx (mc_txStore m) (controllerFor m (URL tx)) tx in
  (err, tx', mkMetacontroller store (<[URL tx := c]> (mc_controllers m))).

Definition Metacontroller_mempoolLoop (ev : mempoolEvent) (stateURI : string)
    (m : Metacontroller) : option Metacontroller :=
  match mc_controllers m !! stateURI with
  | None => Some m
  | Some c =>
      match mempoolLoop ev (mc_txStore m) c with
      | Some (store, c) =>
          Some (mkMetacontroller store (<[stateURI := c]> (mc_controllers m)))
      | None => None
      end
  end.

End WithEnvironment.

End Ctrl.

(** ** The host's gossip handlers ([host.go]) *)

Module Gossip.

Import Txs Ctrl.

(** What a [Peer] shows to the host: the name of its transport, the addresses
    it is reachable at, its (verified) address, and whether connecting and
    writing to it work. *)
Record Peer : Type := mkPeer {
  peer_Transport : string;
  peer_ReachableAt : list string;
  peer_Address : types.Address;
  peer_EnsureConnected : option error;
  peer_WriteMsg : option error
}.

(** Modelled from the spec: [peerTuple] and [peerTuples], "[(transport-name,
    reachable-address-string)] identity used to deduplicate peer instances";
    a peer has one tuple per address it is reachable at. *)
Definition peerTuple : Type := string * string.

Definition peerTuples (peer : Peer) : list peerTuple :=
  map (fun reachableAt => (peer_Transport peer, reachableAt))
      (peer_ReachableAt peer).

Record EncryptedTx : Type := mkEncryptedTx {
  TxID : types.ID;
  EncryptedPayload : string;
  SenderPublicKey : string
}.

Inductive Msg : Type :=
| Msg_Put (tx : Tx)
| Msg_Private (etx : EncryptedTx)
| Msg_Ack (txID : types.ID).

Record Transport : Type := mkTransport {
  tpt_Name : string;
  ForEachSubscriberToStateURI : string -> error + list Peer
}.

(** The host's surroundings: its transports and keys.  [resolvePeers] stands
    for the peers that the peer store and the address challenge of
    [peersWithAddress] yield for an address, with their encrypting keys. *)
Class Network : Type := {
  transports : list Transport;
  hostAddress : types.Address;
  encryptingPublicKey : string;
  resolvePeers : types.Address -> list (Peer * string);
  SealMessageFor : string -> string -> error + string;
  OpenMessageFrom : string -> string -> error + string;
  marshalTx : Tx -> error + string;
  unmarshalTx : string -> error + Tx
}.

Section WithEnvironment.
Context `{Primitives} `{Extrinsics} `{Network}.

Record host : Type := mkHost {
  h_controller : Metacontroller;
  peerSeenTxs : gmap peerTuple (gmap types.ID bool);
  outbox : list (Peer * Msg)
}.

(** [peer.WriteMsg(msg)]: a write that works puts the message on the wire. *)
Definition writeMsg (h : host) (peer : Peer) (msg : Msg) : option error * host :=
  match peer_WriteMsg peer with
  | Some err => (Some err, h)
  | None =>
      (None, mkHost (h_controller h) (peerSeenTxs h) (outbox h ++ [(peer, msg)]))
  end.

(** [markTxSeenByPeer] *)
Definition markTuple (txID : types.ID)
    (seen : gmap peerTuple (gmap types.ID bool)) (tuple : peerTuple)
    : gmap peerTuple (gmap types.ID bool) :=
  <[tuple := <[txID := true]> (default ∅ (seen !! tuple))]> seen.

Definition markTxSeenByPeer (h : host) (peer : Peer) (txID : types.ID) : host :=
  mkHost (h_controller h)
         (foldl (markTuple txID) (peerSeenTxs h) (peerTuples peer))
         (outbox h).

(** [txSeenByPeer] *)
Fixpoint anyTupleSeen (seen : gmap peerTuple (gmap types.ID bool))
    (txID : types.ID) (tuples : list peerTuple) : bool :=
  match tuples with
  | [] => false
  | tuple :: rest =>
      match seen !! tuple with
      | None => anyTupleSeen seen txID rest
      | Some m =>
          if default false (m !! txID) then true
          else anyTupleSeen seen txID rest
      end
  end.

Definition txSeenByPeer (h : host) (peer : Peer) (txID : types.ID) : bool :=
  if bool_decide (peer_Address peer = types.EmptyAddress) then false
  else anyTupleSeen (peerSeenTxs h) txID (peerTuples peer).

(** [peersWithAddress] *)
Definition peersWithAddress (address : types.Address)
    : error + list (Peer * string) :=
  if bool_decide (address = hostAddress) then inl ErrPeerIsSelf
  else inr (resolvePeers address).

(** [broadcastPrivateTxToRecipient].  The goroutines of the source run here
    one after the other. *)
Fixpoint sendPrivate (h : host) (txID : types.ID) (marshalledTx : string)
    (peers : list (Peer * string)) (anySucceeded : bool) : bool * host :=
  match peers with
  | [] => (anySucceeded, h)
  | (peer, encryptingKey) :: rest =>
      match peer_EnsureConnected peer with
      | Some _ => sendPrivate h txID marshalledTx rest anySucceeded
      | None =>
          match SealMessageFor encryptingKey marshalledTx with
          | inl _ => sendPrivate h txID marshalledTx rest anySucceeded
          | inr msgEncrypted =>
              match writeMsg h peer
                      (Msg_Private (mkEncryptedTx txID msgEncrypted
                                      encryptingPublicKey)) with
              | (Some _, h) => sendPrivate h txID marshalledTx rest anySucceeded
              | (None, h) => sendPrivate h txID marshalledTx rest true
              end
          end
      end
  end.

Definition broadcastPrivateTxToRecipient (h : host) (txID : types.ID)
    (marshalledTx : string) (recipientAddr : types.Address)
    : option error * host :=
  match peersWithAddress recipientAddr with
  | inl err => (Some err, h)
  | inr chPeers =>
      let '(anySucceeded, h) := sendPrivate h txID marshalledTx chPeers false in
      if negb anySucceeded then (Some (ErrOther "could not reach recipient"), h)
      else (None, h)
  end.

(** [broadcastTx] *)
Fixpoint putToSubscribers (h : host) (tx : Tx) (peers : list Peer) : host :=
  match peers with
  | [] => h
  | peer :: rest =>
      if txSeenByPeer h peer (ID tx) then putToSubscribers h tx rest
      else
        match peer_EnsureConnected peer with
        | Some _ => putToSubscribers h tx rest
        | None => putToSubscribers (snd (writeMsg h peer (Msg_Put tx))) tx rest
        end
  end.

Definition broadcastOverTransport (tx : Tx) (h : host) (transport : Transport)
    : host :=
  match ForEachSubscriberToStateURI transport (URL tx) with
  | inl _ => h
  | inr ch => putToSubscribers h tx ch
  end.

Definition broadcastToRecipient (tx : Tx) (marshalledTx : string) (h : host)
    (recipientAddr : types.Address) : host :=
  if bool_decide (recipientAddr = hostAddress) then h
  else snd (broadcastPrivateTxToRecipient h (ID tx) marshalledTx recipientAddr).

Definition broadcastTx (h : host) (tx : Tx) : option error * host :=
  if slen (Sig tx) =? 0 then (Some ErrUnsignedTx, h)
  else if IsPrivate tx then
    match marshalTx tx with
    | inl err => (Some err, h)
    | inr marshalledTx =>
        (None, foldl (broadcastToRecipient tx marshalledTx) h (Recipients tx))
    end
  else (None, foldl (broadcastOverTransport tx) h transports).

Definition setController (h : host) (m : Metacontroller) : host :=
  mkHost m (peerSeenTxs h) (outbox h).

(** The part that [onTxReceived] and [onPrivateTxReceived] share: add the tx
    unless the controller has it, rebroadcast, acknowledge. *)
Definition addAndAck (h : host) (tx : Tx) (peer : Peer) : host :=
  let '(h, tx) :=
    if negb (Metacontroller_HaveTx (h_controller h) (URL tx) (ID tx)) then
      let '(_, tx, m) := Metacontroller_AddTx (h_controller h) tx in
      let h := setController h m in
      (snd (broadcastTx h tx), tx)
    else (h, tx) in
  snd (writeMsg h peer (Msg_Ack (ID tx))).

(** [onTxReceived] *)
Definition onTxReceived (h : host) (tx : Tx) (peer : Peer) : host :=
  let h := markTxSeenByPeer h peer (ID tx) in
  addAndAck h tx peer.

(** [onPrivateTxReceived] *)
Definition onPrivateTxReceived (h : host) (encryptedTx : EncryptedTx)
    (peer : Peer) : host :=
  let h := markTxSeenByPeer h peer (TxID encryptedTx) in
  match OpenMessageFrom (SenderPublicKey encryptedTx)
          (EncryptedPayload encryptedTx) with
  | inl _ => h
  | inr bs =>
      match unmarshalTx bs with
      | inl _ => h
      | inr tx =>
          if negb (bool_decide (TxID encryptedTx = ID tx)) then h
          else addAndAck h tx peer
      end
  end.

(** [onAckReceived] *)
Definition onAckReceived (h : host) (txID : types.ID) (peer : Peer) : host :=
  markTxSeenByPeer h peer txID.

(** [SignTx] and [SendTx] *)
Definition SignTx (tx : Tx) : option error * Tx :=
  match SignHash (Tx_Hash tx) with
  | inl err => (Some err, tx)
  | inr sig => (None, setSig tx sig)
  end.

Definition SendTx (h : host) (tx : Tx) : option error * host :=
  let '(err, tx) :=
    if slen (Sig tx) =? 0 then SignTx tx else (None, tx) in
  match err with
  | Some e => (Some e, h)
  | None =>
      let '(err, tx, m) := Metacontroller_AddTx (h_controller h) tx in
      let h := setController h m in
      match err with
      | Some e => (Some e, h)
      | None => broadcastTx h tx
      end
  end.

(** Everything that can happen to a host: a handler is called, or the mempool
    worker of one of its controllers wakes up. *)
Inductive hostEvent : Type :=
| TxReceived (tx : Tx) (peer : Peer)
| PrivateTxReceived (encryptedTx : EncryptedTx) (peer : Peer)
| AckReceived (txID : types.ID) (peer : Peer)
| TxSent (tx : Tx)
| MempoolWoken (ev : mempoolEvent) (stateURI : string).

Definition hostStep (h : host) (ev : hostEvent) : option host :=
  match ev with
  | TxReceived tx peer => Some (onTxReceived h tx peer)
  | PrivateTxReceived etx peer => Some (onPrivateTxReceived h etx peer)
  | AckReceived txID peer => Some (onAckReceived h txID peer)
  | TxSent tx => Some (snd (SendTx h tx))
  | MempoolWoken ev stateURI =>
      match Metacontroller_mempoolLoop ev stateURI (h_controller h) with
      | Some m => Some (setController h m)
      | None => None
      end
  end.

Fixpoint hostRun (h : host) (evs : list hostEvent) : option host :=
  match evs with
  | [] => Some h
  | ev :: rest =>
      match hostStep h ev with
      | Some h => hostRun h rest
      | None => None
      end
  end.

End WithEnvironment.

End Gossip.

(** ** What the specification says, in the terms of the model *)

Module Spec.

Import Txs Ctrl Gossip.

Section WithEnvironment.
Context `{Primitives} `{Extrinsics} `{Network}.

(** The txs of a state URI that the controller has marked [Valid]. *)
Definition validated (store : TxStore) (stateURI : string) (id : types.ID) : Prop :=
  exists tx, store !! (stateURI, id) = Some tx /\ Valid tx = true.

(** Some other validated tx lists [id] among its parents. *)
Definition listedAsParent (store : TxStore) (stateURI : string) (id : types.ID)
    : Prop :=
  exists child tx, child <> id /\ store !! (stateURI, child) = Some tx /\
                   Valid tx = true /\ id ∈ Parents tx.

(** "[leaves] at any moment equals { tx in validated | no other validated tx
    listing tx.ID as a parent }". *)
Definition leavesCorrect (store : TxStore) (c : controller) : Prop :=
  forall id, id ∈ leaves c <->
             validated store (stateURI c) id /\
             ~ listedAsParent store (stateURI c) id.

(** The parents of a validated tx are validated, the genesis tx apart. *)
Definition parentsKnown (store : TxStore) (stateURI : string) : Prop :=
  forall child tx p, store !! (stateURI, child) = Some tx -> Valid tx = true ->
                     p ∈ Parents tx ->
                     validated store stateURI p \/ p = GenesisTxID.

Definition graphInvariant (store : TxStore) (c : controller) : Prop :=
  leavesCorrect store c /\ parentsKnown store (stateURI c).

(** The spec's private root key: the hash of the recipients in sorted
    order. *)
Definition PrivateRootKey_sorted (recipients : list types.Address) : string :=
  "private-" +:+ Hash_Hex (HashBytes (String.concat "" (sortBytes recipients))).

(** The signature of a tx binds it to its sender. *)
Definition signedBySender (tx : Tx) : Prop :=
  exists sigPubKey,
    RecoverSigningPubkey (Tx_Hash tx) (Sig tx) = inr sigPubKey /\
    VerifySignature sigPubKey (Tx_Hash tx) (Sig tx) = true /\
    PubKey_Address sigPubKey = From tx.

(** One mempool pass, in the spec's words: a tx that fails with
    [ErrNoParentYet] or [ErrMissingCriticalRefs] stays, a tx that fails
    otherwise is dropped, a tx that succeeds is removed. *)
Inductive passSpec : TxStore -> controller -> list Tx ->
                     bool -> list Tx -> TxStore -> controller -> Prop :=
| pass_done store c :
    passSpec store c [] false [] store c
| pass_retained store c tx err store1 c1 rest any kept store2 c2 :
    processMempoolTx store c tx = (Some err, (store1, c1)) ->
    Cause err = ErrNoParentYet \/ Cause err = ErrMissingCriticalRefs ->
    passSpec store1 c1 rest any kept store2 c2 ->
    passSpec store c (tx :: rest) any (tx :: kept) store2 c2
| pass_dropped store c tx err store1 c1 rest any kept store2 c2 :
    processMempoolTx store c tx = (Some err, (store1, c1)) ->
    Cause err <> ErrNoParentYet -> Cause err <> ErrMissingCriticalRefs ->
    passSpec store1 c1 rest any kept store2 c2 ->
    passSpec store c (tx :: rest) any kept store2 c2
| pass_applied store c tx store1 c1 rest any kept store2 c2 :
    processMempoolTx store c tx = (None, (store1, c1)) ->
    passSpec store1 c1 rest any kept store2 c2 ->
    passSpec store c (tx :: rest) true kept store2 c2.

(** "Repeat passes while the previous pass made at least one success." *)
Inductive loopSpec : TxStore -> controller -> TxStore * controller -> Prop :=
| loop_stop store c kept store1 c1 :
    passSpec store c (mempool c) false kept store1 c1 ->
    loopSpec store c (store1, setMempool c1 (chMempool c1) kept)
| loop_again store c kept store1 c1 r :
    passSpec store c (mempool c) true kept store1 c1 ->
    loopSpec store1 (setMempool c1 (chMempool c1) kept) r ->
    loopSpec store c r.

(** A chain of dependent txs waiting in the mempool: every parent of a link
    is validated already or is an earlier link, and nothing but a missing
    parent keeps a link from being applied. *)
Definition applicable (stateURI : string) (tx : Tx) : Prop :=
  URL tx = stateURI /\
  (Parents tx <> [] \/ ID tx = GenesisTxID) /\
  (ID tx = GenesisTxID \/ signedBySender tx) /\
  (forall st, fst (applyExtrinsics tx st) = None).

Definition linkReady (store : TxStore) (c : controller) (earlier : list Tx)
    (tx : Tx) : Prop :=
  (tx ∈ mempool c \/ validated store (stateURI c) (ID tx)) /\
  applicable (stateURI c) tx /\
  (forall p, p ∈ Parents tx ->
             validated store (stateURI c) p \/ p ∈ map ID earlier).

Fixpoint chainReady (store : TxStore) (c : controller) (earlier chain : list Tx)
    : Prop :=
  match chain with
  | [] => True
  | tx :: rest =>
      linkReady store c earlier tx /\ chainReady store c (earlier ++ [tx]) rest
  end.

(** A peer tuple is on record as having seen a tx. *)
Definition seenBy (h : host) (tuple : peerTuple) (txID : types.ID) : Prop :=
  exists m, peerSeenTxs h !! tuple = Some m /\ m !! txID = Some true.

Definition peerMarked (h : host) (peer : Peer) (txID : types.ID) : Prop :=
  forall tuple, tuple ∈ peerTuples peer -> seenBy h tuple txID.




End WithEnvironment.

(** *** The state tree *)

Import Tree.

(** A keypath exists in a tree when it has a node type. *)
Definition existsAt (h : Heap) (t : MemoryNode) (k : Keypath) : Prop :=
  nodeTypeOf h t k <> NodeTypeInvalid.

(** "For a [slice] keypath K of length N, exactly the keypaths [K/0 ... K/(N-1)]
    exist as children." *)
Definition sliceChildrenExact (h : Heap) (t : MemoryNode) : Prop :=
  forall K, nodeTypeOf h t K = NodeTypeSlice ->
  forall j, 0 <= j < 2 ^ 64 ->
            (existsAt h t (PushIndex K j) <-> j < sliceLengthOf h t K).

(** The node type that [Set] gives to a walked value, and the node types and
    slice lengths that the walk writes, entry by entry. *)
Definition typeOfValue (v : Value) : NodeType :=
  match v with
  | VMap _ => NodeTypeMap
  | VSlice _ => NodeTypeSlice
  | _ => NodeTypeValue
  end.

Definition walkedTypes (absKeypath : Keypath) (m : gmap string NodeType)
    (walked : list (Keypath * Value)) : gmap string NodeType :=
  foldl (fun m e => <[Push absKeypath (fst e) := typeOfValue (snd e)]> m) m walked.

Definition walkedLengths (absKeypath : Keypath) (m : gmap string Z)
    (walked : list (Keypath * Value)) : gmap string Z :=
  foldl (fun m e => match snd e with
                    | VSlice l => <[Push absKeypath (fst e) := llen l]> m
                    | _ => m
                    end) m walked.

(** The entries that [walkGoValue] emits for the elements of a sequence, from
    index [i] on. *)
Fixpoint walkElems (i : Z) (l : list Value) : list (Keypath * Value) :=
  match l with
  | [] => []
  | child :: rest =>
      map (fun e => (Push (EncodeSliceIndex i) (fst e), snd e)) (walkGoValue child)
      ++ walkElems (i + 1) rest
  end.

(** Every keypath with a node type is a map, and is no longer than
    [absKeypath]. *)
Definition ancestorsOnly (absKeypath : Keypath) (m : gmap string NodeType) : Prop :=
  forall k nt, m !! k = Some nt ->
    nt = NodeTypeMap /\ (String.length k <= String.length absKeypath)%nat.

(** What can be read through a node: its values, node types, slice lengths
    and diff. *)
Definition readable (h : Heap) (t : MemoryNode)
    : option (gmap string Value) * option (gmap string NodeType) *
      option (gmap string Z) * option Diff :=
  (h_values h !! values t, h_nodeTypes h !! nodeTypes t,
   h_sliceLengths h !! sliceLengths t, h_diffs h !! diff t).

(** The maps and the diff of a node have been allocated. *)
Definition allocated (h : Heap) (t : MemoryNode) : Prop :=
  (values t < h_next h)%nat /\ (nodeTypes t < h_next h)%nat /\
  (sliceLengths t < h_next h)%nat /\ (diff t < h_next h)%nat.

(** The maps and the diff of a node sit at [base] or above, and two heaps
    agree below [base]. *)
Definition ownsFrom (base : loc) (t : MemoryNode) : Prop :=
  (base <= values t)%nat /\ (base <= nodeTypes t)%nat /\
  (base <= sliceLengths t)%nat /\ (base <= diff t)%nat.

Definition sameBelow (base : loc) (h h' : Heap) : Prop :=
  forall l, (l < base)%nat ->
    h_values h' !! l = h_values h !! l /\
    h_nodeTypes h' !! l = h_nodeTypes h !! l /\
    h_sliceLengths h' !! l = h_sliceLengths h !! l /\
    h_diffs h' !! l = h_diffs h !! l.

(** The outcome of a call that started on heap [h] on a node that owns its
    maps from [base]: the node still does, nothing was freed, and what lies
    below [base] is as it was. *)
Definition framed {A : Type} (base : loc) (h : Heap) (r : Res A) : Prop :=
  ownsFrom base (resNode r) /\ (base <= h_next (resHeap r))%nat /\
  sameBelow base h (resHeap r).

End Spec.

(** ** Concrete surroundings for the examples *)

Module Scenario.

Import Txs Ctrl Gossip.

(** A transparent hash, so that different inputs give different digests, and
    a signature scheme in which a signature is the signer's address. *)
#[local] Instance primitives : Primitives := {|
  PubKey := string;
  HashBytes := fun bs => bs;
  Hash_Hex := fun h => h;
  jsonMarshal := fun _ => "null";
  formatInt := fun _ => "0";
  RecoverSigningPubkey := fun _ sig => inr sig;
  VerifySignature := fun _ _ _ => true;
  PubKey_Address := fun pk => pk;
  SignHash := fun _ => inr "alice"
|}.

(** A state database that records the txs applied to it. *)
#[local] Instance extrinsics : Extrinsics := {|
  StateDB := list types.ID;
  newStateDB := fun _ => [];
  applyExtrinsics := fun tx st => (None, st ++ [ID tx])
|}.

Definition bob : Peer := mkPeer "libp2p" ["/ip4/10.0.0.2"] "bob" None None.

#[local] Instance network : Network := {|
  transports := [mkTransport "libp2p" (fun _ => inr [bob])];
  hostAddress := "alice";
  encryptingPublicKey := "alice-enc";
  resolvePeers := fun _ => [];
  SealMessageFor := fun _ m => inr m;
  OpenMessageFrom := fun _ m => inr m;
  marshalTx := fun tx => inr (ID tx);
  unmarshalTx := fun _ => inl ErrProtocol
|}.

Definition doc : string := "example.com/doc".

Definition tx (id : types.ID) (parents : list types.ID) : Tx :=
  mkTx id parents "alice" "alice" doc [] [] false false types.EmptyHash.

Definition genesis : Tx := tx GenesisTxID [].
Definition tx1 : Tx := tx "tx1" [GenesisTxID].
Definition tx2 : Tx := tx "tx2" ["tx1"].
Definition tx3 : Tx := tx "tx3" ["tx2"].

(** A genesis tx that names itself as its parent. *)
Definition selfGenesis : Tx := tx GenesisTxID [GenesisTxID].

Definition host0 : host := mkHost (mkMetacontroller ∅ ∅) ∅ [].

(** A child of the genesis tx arrives before the genesis tx. *)
Definition childFirst : option (TxStore * controller) :=
  let '(_, _, (store, c)) := AddTx ∅ (NewController doc) tx1 in
  match mempoolLoop EvTx store c with
  | Some (store, c) =>
      let '(_, _, (store, c)) := AddTx store c genesis in
      mempoolLoop EvTx store c
  | None => None
  end.

(** The genesis tx is validated; [tx3], [tx2] and [tx1] wait in the mempool,
    the last link first. *)
Definition chainStore : TxStore :=
  TxStore_AddTx (TxStore_AddTx (TxStore_AddTx
    (TxStore_AddTx ∅ (setValid genesis true)) tx3) tx2) tx1.

Definition chainController : controller :=
  mkController doc ∅ [GenesisTxID] {[GenesisTxID]} [] [tx3; tx2; tx1].

(** The state tree after [Set("msgs", nil, ["a","b","c"])] on a new node. *)
Definition msgs : Tree.Res (option error) :=
  let '(t, h) := Tree.NewMemoryNode Tree.emptyHeap in
  Tree.Set_ "msgs" None
    (Tree.VSlice [Tree.VString "a"; Tree.VString "b"; Tree.VString "c"]) t h.

(** Then [Delete("msgs", &Range{0, 1})], and instead [Delete("msgs/0", nil)]. *)
Definition msgsRangeDeleted : Tree.Res (option error) :=
  Tree.Delete "msgs" (Some (Tree.mkRange 0 1)) (Tree.resNode msgs)
    (Tree.resHeap msgs).

Definition msgsChildDeleted : Tree.Res (option error) :=
  Tree.Delete (Tree.PushIndex "msgs" 0) None (Tree.resNode msgs)
    (Tree.resHeap msgs).

(** A map at keypath [a], and a copy of it. *)
Definition mapAtA : Tree.Res (option error) :=
  let '(t, h) := Tree.NewMemoryNode Tree.emptyHeap in
  Tree.Set_ "a" None (Tree.VMap [("b", Tree.VInt 1)]) t h.

Definition copyOfA : Tree.Res (option Tree.MemoryNode * option error) :=
  Tree.CopyToMemory "a" None (Tree.resNode mapAtA) (Tree.resHeap mapAtA).

End Scenario.

(** ** Reading the state tree

    The readers of [tree/tree.memory.go] that leave the tree as it is: the
    typed readers, [ContentLength], [Subkeys] and the depth-first
    iterator. *)

Module TreeQueries.

Import Tree.

(** [UintValue], [IntValue], [FloatValue], [StringValue]: the value at a
    keypath, when there is one and it has the type asked for. *)
Definition UintValue (t : MemoryNode) (h : Heap) (keypath : Keypath)
    : Z * bool * option error :=
  let absKeypath := Push (Tree.keypath t) keypath in
  match valuesAt h (values t) !! absKeypath with
  | None => (0, false, None)
  | Some (VUint asUint) => (asUint, true, None)
  | Some _ => (0, false, None)
  end.

Definition IntValue (t : MemoryNode) (h : Heap) (keypath : Keypath)
    : Z * bool * option error :=
  let absKeypath := Push (Tree.keypath t) keypath in
  match valuesAt h (values t) !! absKeypath with
  | None => (0, false, None)
  | Some (VInt asInt) => (asInt, true, None)
  | Some _ => (0, false, None)
  end.

Definition FloatValue (t : MemoryNode) (h : Heap) (keypath : Keypath)
    : Z * bool * option error :=
  let absKeypath := Push (Tree.keypath t) keypath in
  match valuesAt h (values t) !! absKeypath with
  | None => (0, false, None)
  | Some (VFloat asFloat) => (asFloat, true, None)
  | Some _ => (0, false, None)
  end.

Definition StringValue (t : MemoryNode) (h : Heap) (keypath : Keypath)
    : string * bool * option error :=
  let absKeypath := Push (Tree.keypath t) keypath in
  match valuesAt h (values t) !! absKeypath with
  | None => (EmptyString, false, None)
  | Some (VString asString) => (asString, true, None)
  | Some _ => (EmptyString, false, None)
  end.

(** [ContentLength] *)
Definition ContentLength (n : MemoryNode) (h : Heap) : Z * option error :=
  match nodeTypeOf h n (keypath n) with
  | NodeTypeMap => (0, None)
  | NodeTypeSlice => (to_int64 (sliceLengthOf h n (keypath n)), None)
  | NodeTypeValue =>
      match valueOf h n (keypath n) with
      | VString v => (to_int64 (slen v), None)
      | _ => (0, None)
      end
  | NodeTypeInvalid => (0, None)
  end.

(** Modelled from the spec: [k.Part(i)] of the missing [tree/keypath.go], the
    segment number [i] of a keypath, empty when there is none. *)
Definition Part (k : Keypath) (i : nat) : Keypath :=
  default EmptyString (Parts k !! i).

(** [Subkeys]: the first segments, below the receiver's keypath, of the
    keypaths that the scan visits, each once.  The closure keeps the list and
    the set of the subkeys met so far. *)
Definition subkeyVisited (root : Keypath) (acc : list Keypath * gset string)
    (kp : Keypath) (i : Z) : M (option error * (list Keypath * gset string)) :=
  let '(keypaths, keypathsMap) := acc in
  let subkey := Part (RelativeTo kp root) 0 in
  let exists_ := bool_decide (subkey ∈ keypathsMap) in
  if negb exists_ && (0 <? slen subkey)
  then mret (None, (keypaths ++ [subkey], keypathsMap ∪ {[subkey]}))
  else mret (None, (keypaths, keypathsMap)).

Definition Subkeys : M (list Keypath) :=
  n ← getNode;
  r ← scanKeypathsWithPrefix (keypath n) None (subkeyVisited (keypath n)) ([], ∅);
  mret (fst (snd r)).

(** The depth-first iterator.  Its node shares the maps of the tree it was
    made from and has no diff; [backingNode] is a pointer to that tree, so
    [SeekTo] and [Next] work on the tree as it is when they are called. *)
Record IterNode : Type := mkIterNode {
  in_keypath : Keypath;
  in_keypaths : list Keypath;
  in_values : loc;
  in_nodeTypes : loc;
  in_sliceLengths : loc
}.

Record memoryDepthFirstIterator : Type := mkIterator {
  it_i : Z;
  it_end : Z;
  it_prevLen : Z;
  iterNode : IterNode
}.

Definition DepthFirstIterator (t : MemoryNode) (keypath : Keypath)
    : memoryDepthFirstIterator :=
  let '(end_, i) := findPrefixRange t (Push (Tree.keypath t) keypath) in
  mkIterator i end_ (llen (keypaths t))
    (mkIterNode EmptyString (keypaths t) (values t) (nodeTypes t) (sliceLengths t)).

(** The loop of [SeekTo], from the last keypath down to the first. *)
Fixpoint seekFrom (keypath : Keypath) (i : nat) (keypaths : list Keypath)
    (newIdx : Z) : Z :=
  match i with
  | O => newIdx
  | S i' =>
      match keypaths !! i' with
      | Some kp => if String.eqb kp keypath then Z.of_nat i'
                   else seekFrom keypath i' keypaths newIdx
      | None => seekFrom keypath i' keypaths newIdx
      end
  end.

Definition SeekTo (backingNode : MemoryNode) (iter : memoryDepthFirstIterator)
    (keypath : Keypath) : memoryDepthFirstIterator :=
  let newIdx := seekFrom keypath (length (keypaths backingNode))
                  (keypaths backingNode) (it_end iter) in
  mkIterator newIdx (it_end iter) (it_prevLen iter) (iterNode iter).

(** What [Next] gives: no node, a node, or a panic of the index
    expression. *)
Inductive NextResult : Type :=
| NextNil (iter : memoryDepthFirstIterator)
| NextNode (node : IterNode) (iter : memoryDepthFirstIterator)
| NextPanic (msg : string).

Definition Next (backingNode : MemoryNode) (iter : memoryDepthFirstIterator)
    : NextResult :=
  if it_i iter =? it_end iter then NextNil iter
  else
    let i := it_i iter - 1 in
    match (if i <? 0 then None else keypaths backingNode !! Z.to_nat i) with
    | None => NextPanic "index out of range"
    | Some kp =>
        let node := mkIterNode kp (in_keypaths (iterNode iter))
                      (in_values (iterNode iter)) (in_nodeTypes (iterNode iter))
                      (in_sliceLengths (iterNode iter)) in
        NextNode node
          (mkIterator i (it_end iter) (llen (keypaths backingNode)) node)
    end.

(** A caller's loop: [Next] until it gives no node, over a tree that does not
    change meanwhile; the keypaths of the nodes, in the order they came. *)
Fixpoint drain (fuel : nat) (backingNode : MemoryNode)
    (iter : memoryDepthFirstIterator) : option (list Keypath) :=
  match fuel with
  | O => None
  | S fuel' =>
      match Next backingNode iter with
      | NextNil _ => Some []
      | NextNode node iter' =>
          match drain fuel' backingNode iter' with
          | Some rest => Some (in_keypath node :: rest)
          | None => None
          end
      | NextPanic _ => None
      end
  end.

End TreeQueries.

(** ** What a prefix scan visits

    Pure counterparts of the loops of [tree/tree.memory.go], in whose terms
    the effect of [Delete] and [Set] is stated. *)

Module Views.

Import Tree.

(** The keypaths that [scanKeypathsWithPrefix] visits without a range: the
    first run of keypaths under the prefix.  [found] is the loop's
    [foundRange]. *)
Fixpoint scanned (prefix : Keypath) (found : bool) (l : list Keypath)
    : list Keypath :=
  match l with
  | [] => []
  | kp :: rest =>
      if StartsWith kp prefix then kp :: scanned prefix true rest
      else if found then []
      else scanned prefix found rest
  end.

(** The keypaths that the scan does not visit. *)
Fixpoint unscanned (prefix : Keypath) (found : bool) (l : list Keypath)
    : list Keypath :=
  match l with
  | [] => []
  | kp :: rest =>
      if StartsWith kp prefix then unscanned prefix true rest
      else if found then l
      else kp :: unscanned prefix found rest
  end.

(** [delete(m, k)] for every [k] of a list. *)
Definition deleteAll {V : Type} (ks : list Keypath) (m : gmap string V)
    : gmap string V :=
  foldl (fun m k => delete k m) m ks.

(** Two cursors that differ in their keypath lists at most. *)
Definition sameCursor (n n' : MemoryNode) : Prop :=
  keypath n' = keypath n /\ rng n' = rng n /\ copied n' = copied n /\
  values n' = values n /\ nodeTypes n' = nodeTypes n /\
  sliceLengths n' = sliceLengths n /\ diff n' = diff n.

(** The keypaths that the first loop of [Set] goes through: [absKeypath] cut
    after each of [parts]. *)
Fixpoint partialKeypaths (absKeypath : Keypath) (parts : list Keypath)
    (i byteIdx : Z) : list Keypath :=
  match parts with
  | [] => []
  | key :: rest =>
      let byteIdx := byteIdx + slen key in
      (if byteIdx =? 0 then EmptyString else ssub absKeypath 0 byteIdx)
      :: partialKeypaths absKeypath rest (i + 1)
           (if i =? 0 then byteIdx else byteIdx + 1)
  end.

(** The keypaths that [Set] hands to [addKeypaths]. *)
Definition setKeypaths (absKeypath : Keypath) (value : Value) : list Keypath :=
  partialKeypaths absKeypath (removelast (EmptyString :: Parts absKeypath)) 0 0
  ++ map (fun e => Push absKeypath (fst e)) (walkGoValue value).

(** The values that the walk of [Set] writes, entry by entry. *)
Definition walkedValues (absKeypath : Keypath) (m : gmap string Value)
    (walked : list (Keypath * Value)) : gmap string Value :=
  foldl (fun m e => match snd e with
                    | VMap _ | VSlice _ => m
                    | nodeValue => <[Push absKeypath (fst e) := nodeValue]> m
                    end) m walked.

(** What the closure of [Subkeys] keeps after a keypath. *)
Definition subkeyStep (root : Keypath) (acc : list Keypath * gset string)
    (kp : Keypath) : list Keypath * gset string :=
  let subkey := TreeQueries.Part (RelativeTo kp root) 0 in
  if negb (bool_decide (subkey ∈ snd acc)) && (0 <? slen subkey)
  then (fst acc ++ [subkey], snd acc ∪ {[subkey]})
  else acc.

(** A value that is neither a map nor a sequence. *)
Definition isLeaf (v : Value) : bool :=
  match v with
  | VMap _ | VSlice _ => false
  | _ => true
  end.

(** An un-ranged [Set] or [Delete]. *)
Definition unranged (m : Mutation) : Prop :=
  match m with
  | MSet _ r _ => r = None
  | MDelete _ r => r = None
  end.

(** Keypaths in ascending byte order. *)
Definition sortedKeypaths (l : list Keypath) : Prop :=
  StronglySorted (fun a b => String.leb a b = true) l.

End Views.

(** ** What a broadcast puts on the wire *)

Module Sent.

Import Txs Ctrl Gossip.

Section WithEnvironment.
Context `{Primitives} `{Extrinsics} `{Network}.

(** What [broadcastTx] puts on the wire for a tx without recipients. *)
Definition putSent (h : host) (tx : Tx) (pm : Peer * Msg) : Prop :=
  snd pm = Msg_Put tx /\ txSeenByPeer h (fst pm) (ID tx) = false.

(** What [broadcastTx] puts on the wire for a tx with recipients. *)
Definition privateSent (tx : Tx) (pm : Peer * Msg) : Prop :=
  exists recipient encryptingKey marshalledTx msgEncrypted,
    recipient ∈ Recipients tx /\ recipient <> hostAddress /\
    (fst pm, encryptingKey) ∈ resolvePeers recipient /\
    marshalTx tx = inr marshalledTx /\
    SealMessageFor encryptingKey marshalledTx = inr msgEncrypted /\
    snd pm = Msg_Private (mkEncryptedTx (ID tx) msgEncrypted encryptingPublicKey).

End WithEnvironment.

End Sent.

(** ** Messages on the wire

    [WriteMsg], [ReadMsg], [WriteUint64] and [ReadUint64]: a message travels
    as its length, a little-endian [uint64], followed by its JSON form. *)

Module Wire.

(** [io.EOF], [io.ErrUnexpectedEOF] and [io.ErrShortWrite]. *)
Definition io_EOF : error := ErrOther "EOF".
Definition io_ErrUnexpectedEOF : error := ErrOther "unexpected EOF".
Definition io_ErrShortWrite : error := ErrOther "short write".

(** [errors.Wrap(err, msg)], which is nil for a nil error. *)
Definition errorsWrap (err : option error) (msg : string) : option error :=
  match err with
  | Some e => Some (Wrap e msg)
  | None => None
  end.

(** An [io.Reader] over a stream that comes to an end: [rd_data] is what is
    still to be read, [rd_end] the error that the reader returns when nothing
    is left, [io.EOF] at the end of a stream that was closed in order. *)
Record Reader : Type := mkReader {
  rd_data : string;
  rd_end : error
}.

(** An [io.Writer] that takes bytes until it breaks: [wr_room] is the number
    of bytes that it still takes, if there is a limit, and [wr_err] the error
    of the [Write] that hits the limit.  Such a [Write] reports the bytes that
    went through, as the contract of [io.Writer] asks. *)
Record Writer : Type := mkWriter {
  wr_data : string;
  wr_room : option Z;
  wr_err : error
}.

Definition Write (w : Writer) (p : string) : Z * option error * Writer :=
  match wr_room w with
  | None => (slen p, None, mkWriter (wr_data w +:+ p) None (wr_err w))
  | Some room =>
      if slen p <=? room then
        (slen p, None,
         mkWriter (wr_data w +:+ p) (Some (room - slen p)) (wr_err w))
      else
        (Z.max 0 room, Some (wr_err w),
         mkWriter (wr_data w +:+ ssub p 0 (Z.max 0 room)) (Some 0) (wr_err w))
  end.

(** [io.ReadFull(r, buf)] for a buffer of [n] bytes: the bytes read, the
    error, and the reader afterwards. *)
Definition ReadFull (r : Reader) (n : Z) : string * option error * Reader :=
  if n <=? 0 then (EmptyString, None, r)
  else if n <=? slen (rd_data r) then
    (ssub (rd_data r) 0 n, None,
     mkReader (ssub (rd_data r) n (slen (rd_data r))) (rd_end r))
  else if slen (rd_data r) =? 0 then (EmptyString, Some (rd_end r), r)
  else
    (rd_data r,
     Some (if bool_decide (rd_end r = io_EOF) then io_ErrUnexpectedEOF
           else rd_end r),
     mkReader EmptyString (rd_end r)).

(** [io.CopyN(buf, r, n)] into an empty buffer.  For [n <= 0] nothing is
    read and no error is returned. *)
Definition CopyN (r : Reader) (n : Z) : string * option error * Reader :=
  if n <=? 0 then (EmptyString, None, r)
  else if n <=? slen (rd_data r) then
    (ssub (rd_data r) 0 n, None,
     mkReader (ssub (rd_data r) n (slen (rd_data r))) (rd_end r))
  else (rd_data r, Some (rd_end r), mkReader EmptyString (rd_end r)).

(** [io.Copy(w, bytes.NewReader(bs))]: one [Write] of all of [bs], none when
    [bs] is empty. *)
Definition Copy (w : Writer) (bs : string) : Z * option error * Writer :=
  if slen bs =? 0 then (0, None, w)
  else
    let '(m, err, w) := Write w bs in
    let err := match err with
               | Some e => Some e
               | None => if negb (m =? slen bs) then Some io_ErrShortWrite
                         else None
               end in
    (m, err, w).

(** [binary.LittleEndian]: byte [k] of the buffer holds bits [8k] to [8k+7]. *)
Definition byteAt (n : Z) (k : Z) : ascii :=
  ascii_of_N (Z.to_N ((n / 2 ^ (8 * k)) mod 256)).

Definition PutUint64 (n : Z) : string :=
  String (byteAt n 0) (String (byteAt n 1) (String (byteAt n 2)
  (String (byteAt n 3) (String (byteAt n 4) (String (byteAt n 5)
  (String (byteAt n 6) (String (byteAt n 7) EmptyString))))))).

Definition byteOf (b : string) (k : nat) : Z :=
  match String.get k b with
  | Some c => Z.of_N (N_of_ascii c)
  | None => 0
  end.

Definition Uint64 (b : string) : Z :=
  byteOf b 0 + byteOf b 1 * 2 ^ 8 + byteOf b 2 * 2 ^ 16 + byteOf b 3 * 2 ^ 24 +
  byteOf b 4 * 2 ^ 32 + byteOf b 5 * 2 ^ 40 + byteOf b 6 * 2 ^ 48 +
  byteOf b 7 * 2 ^ 56.

(** [WriteUint64] *)
Definition WriteUint64 (w : Writer) (n : Z) : option error * Writer :=
  let buf := PutUint64 n in
  let '(written, err, w) := Write w buf in
  match err with
  | Some e => (Some e, w)
  | None => if written <? 8 then (errorsWrap err "WriteUint64", w)
            else (None, w)
  end.

(** [ReadUint64] *)
Definition ReadUint64 (r : Reader) : Z * option error * Reader :=
  let '(buf, err, r) := ReadFull r 8 in
  match err with
  | Some e =>
      if bool_decide (e = io_EOF) then (0, Some e, r)
      else (0, errorsWrap (Some e) "ReadUint64", r)
  | None => (Uint64 buf, None, r)
  end.

(** The message type and its JSON form are behind [encoding/json]. *)
Section WithJSON.
Variable Msg : Type.
Variable jsonMarshal : Msg -> error + string.
Variable jsonDecode : string -> error + Msg.

(** [WriteMsg] *)
Definition WriteMsg (w : Writer) (msg : Msg) : option error * Writer :=
  match jsonMarshal msg with
  | inl err => (Some err, w)
  | inr bs =>
      let buflen := to_uint64 (slen bs) in
      match WriteUint64 w buflen with
      | (Some err, w) => (Some err, w)
      | (None, w) =>
          let '(n, err, w) := Copy w bs in
          match err with
          | Some e => (Some e, w)
          | None =>
              if negb (n =? to_int64 buflen)
              then (Some (ErrOther "WriteMsg: could not write entire packet"), w)
              else (None, w)
          end
      end
  end.

(** [ReadMsg]: the message that was decoded, or the error. *)
Definition ReadMsg (r : Reader) : (error + Msg) * Reader :=
  let '(size, err, r) := ReadUint64 r in
  match err with
  | Some e => (inl e, r)
  | None =>
      let '(buf, err, r) := CopyN r (to_int64 size) in
      match err with
      | Some e => (inl e, r)
      | None => (jsonDecode buf, r)
      end
  end.

End WithJSON.

End Wire.

(** ** A stack of validators ([validator.stack.go]) *)

Module Stack.

Section WithValidators.
Variables State TimeDAG Tx : Type.

(** What the [Validator] interface asks of a validator. *)
Definition Validator : Type := State -> TimeDAG -> Tx -> option error.

Record stackValidator : Type := mkStackValidator {
  validators : list Validator
}.

(** [stackValidator.Validate] *)
Fixpoint validateAll (vs : list Validator) (state : State) (timeDAG : TimeDAG)
    (tx : Tx) : option error :=
  match vs with
  | [] => None
  | v :: rest =>
      match v state timeDAG tx with
      | Some err => Some err
      | None => validateAll rest state timeDAG tx
      end
  end.

Definition Validate (v : stackValidator) (state : State) (timeDAG : TimeDAG)
    (tx : Tx) : option error :=
  validateAll (validators v) state timeDAG tx.

End WithValidators.

End Stack.

(** ** Links *)

Module Links.

Inductive LinkType : Type :=
| LinkTypeUnknown
| LinkTypeRef
| LinkTypePath
| LinkTypeURL.

(** [DetermineLinkType] *)
Definition DetermineLinkType (linkStr : string) : LinkType * string :=
  if String.prefix "ref:" linkStr then
    (LinkTypeRef, ssub linkStr (slen "ref:") (slen linkStr))
  else if String.prefix "state:" linkStr then
    (LinkTypePath, ssub linkStr (slen "state:") (slen linkStr))
  else (LinkTypeUnknown, linkStr).

End Links.

(** ** What [Set] leaves alone *)

Module Frames.

Import Tree.

(** A keypath that holds a map, or nothing. *)
Definition mapOrAbsent (h : Heap) (n : MemoryNode) (k : Keypath) : Prop :=
  nodeTypeOf h n k = NodeTypeInvalid \/ nodeTypeOf h n k = NodeTypeMap.

(** The keypaths that the first loop of [Set] on [keypath] goes through: the
    root, and the absolute keypath cut after each of its segments but the
    last. *)
Definition ancestors (n : MemoryNode) (keypath : Keypath) : list Keypath :=
  Views.partialKeypaths (Push (Tree.keypath n) keypath)
    (removelast (EmptyString :: Parts (Push (Tree.keypath n) keypath))) 0 0.

End Frames.

(** ** Messages from JSON ([Msg.UnmarshalJSON]) *)

Module MsgJSON.

Definition MsgType : Type := string.

Definition MsgType_Subscribe : MsgType := "subscribe".
Definition MsgType_Unsubscribe : MsgType := "unsubscribe".
Definition MsgType_Put : MsgType := "put".
Definition MsgType_Private : MsgType := "private".
Definition MsgType_Ack : MsgType := "ack".
Definition MsgType_Error : MsgType := "error".
Definition MsgType_VerifyAddress : MsgType := "verify address".
Definition MsgType_VerifyAddressResponse : MsgType := "verify address response".

(** [copy(hash[:], bs)] into a zero [Hash]: the first 32 bytes of [bs], and
    zeros where [bs] is shorter. *)
Definition copyToHash (bs : string) : types.Hash :=
  ssub bs 0 32 +:+ types.zeros (32 - String.length (ssub bs 0 32)).

(** The types of the payloads, and [encoding/json] on them, are given. *)
Section WithJSON.
Variables Tx EncryptedTx VerifyAddressResponse : Type.

(** [json.Unmarshal] into the struct of [Type] and [PayloadBytes]. *)
Variable unmarshalEnvelope : string -> error + (string * string).
Variable unmarshalTx : string -> error + Tx.
Variable unmarshalEncryptedTx : string -> error + EncryptedTx.
Variable unmarshalVerifyAddressResponse : string -> error + VerifyAddressResponse.

(** What [Msg.Payload], an [interface{}], holds. *)
Inductive Payload : Type :=
| PayloadNil
| PayloadString (s : string)
| PayloadTx (tx : Tx)
| PayloadHash (hash : types.Hash)
| PayloadEncryptedTx (ep : EncryptedTx)
| PayloadBytes (bs : string)
| PayloadVerifyAddressResponse (resp : VerifyAddressResponse).

Record Msg : Type := mkMsg {
  Type_ : MsgType;
  Payload_ : Payload
}.

(** A call returns, with the message as it has left it, or panics. *)
Inductive Outcome : Type :=
| Returned (err : option error) (msg : Msg)
| Panicked (reason : string).

(** [Msg.UnmarshalJSON] *)
Definition UnmarshalJSON (msg : Msg) (bs : string) : Outcome :=
  match unmarshalEnvelope bs with
  | inl err => Returned (Some err) msg
  | inr (m_Type, m_PayloadBytes) =>
      let msg := mkMsg m_Type (Payload_ msg) in
      if String.eqb (Type_ msg) MsgType_Subscribe then
        let url := m_PayloadBytes in
        if slen url - 1 <? 1 then Panicked "slice bounds out of range"
        else Returned None
               (mkMsg (Type_ msg) (PayloadString (ssub url 1 (slen url - 1))))
      else if String.eqb (Type_ msg) MsgType_Put then
        match unmarshalTx m_PayloadBytes with
        | inl err => Returned (Some err) msg
        | inr tx => Returned None (mkMsg (Type_ msg) (PayloadTx tx))
        end
      else if String.eqb (Type_ msg) MsgType_Ack then
        if slen m_PayloadBytes - 1 <? 1 then Panicked "slice bounds out of range"
        else
          let bs := ssub m_PayloadBytes 1 (slen m_PayloadBytes - 1) in
          Returned None (mkMsg (Type_ msg) (PayloadHash (copyToHash bs)))
      else if String.eqb (Type_ msg) MsgType_Private then
        match unmarshalEncryptedTx m_PayloadBytes with
        | inl err => Returned (Some err) msg
        | inr ep => Returned None (mkMsg (Type_ msg) (PayloadEncryptedTx ep))
        end
      else if String.eqb (Type_ msg) MsgType_VerifyAddress then
        Returned None (mkMsg (Type_ msg) (PayloadBytes m_PayloadBytes))
      else if String.eqb (Type_ msg) MsgType_VerifyAddressResponse then
        match unmarshalVerifyAddressResponse m_PayloadBytes with
        | inl err => Returned (Some err) msg
        | inr resp =>
            Returned None (mkMsg (Type_ msg) (PayloadVerifyAddressResponse resp))
        end
      else Returned (Some (ErrOther "bad msg")) msg
  end.

(** The payload that goes with a message type. *)
Definition payloadFits (t : MsgType) (p : Payload) : Prop :=
  match p with
  | PayloadString _ => t = MsgType_Subscribe
  | PayloadTx _ => t = MsgType_Put
  | PayloadHash hash => t = MsgType_Ack /\ slen hash = 32
  | PayloadEncryptedTx _ => t = MsgType_Private
  | PayloadBytes _ => t = MsgType_VerifyAddress
  | PayloadVerifyAddressResponse _ => t = MsgType_VerifyAddressResponse
  | PayloadNil => False
  end.

End WithJSON.

Arguments PayloadNil {Tx EncryptedTx VerifyAddressResponse}.
Arguments PayloadString {Tx EncryptedTx VerifyAddressResponse} s.
Arguments PayloadTx {Tx EncryptedTx VerifyAddressResponse} tx.
Arguments PayloadHash {Tx EncryptedTx VerifyAddressResponse} hash.
Arguments PayloadEncryptedTx {Tx EncryptedTx VerifyAddressResponse} ep.
Arguments PayloadBytes {Tx EncryptedTx VerifyAddressResponse} bs.
Arguments PayloadVerifyAddressResponse {Tx EncryptedTx VerifyAddressResponse} resp.
Arguments mkMsg {Tx EncryptedTx VerifyAddressResponse} Type_ Payload_.
Arguments Type_ {Tx EncryptedTx VerifyAddressResponse} m.
Arguments Payload_ {Tx EncryptedTx VerifyAddressResponse} m.
Arguments Returned {Tx EncryptedTx VerifyAddressResponse} err msg.
Arguments Panicked {Tx EncryptedTx VerifyAddressResponse} reason.
Arguments UnmarshalJSON {Tx EncryptedTx VerifyAddressResponse}
  unmarshalEnvelope unmarshalTx unmarshalEncryptedTx unmarshalVerifyAddressResponse
  msg bs.
Arguments payloadFits {Tx EncryptedTx VerifyAddressResponse} t p.

End MsgJSON.

(** ** [AddTx] over a store that can fail

    [Ctrl.AddTx] is written over the tx store of the spec, whose calls do not
    fail.  Here the store is behind the [TxStore] interface of the code, and
    each of its calls can return an error.  [addToMempool] selects between the
    send on [chMempool] and the end of the context: [done] tells that the
    context's arm was taken.  The channel is the list of the txs sent and not
    yet received. *)

Module Admission.

Import Txs Ctrl.

Section WithStore.
Context `{Primitives} `{Extrinsics}.
Variable Store : Type.

(** [txStore.TxExists] and [txStore.AddTx] *)
Variable txStore_TxExists : Store -> string -> types.ID -> error + bool.
Variable txStore_AddTx : Store -> Tx -> option error * Store.

(** [addToMempool] *)
Definition addToMempool (c : controller) (done : bool) (tx : Tx) : controller :=
  if done then c
  else setMempool c (chMempool c ++ [tx]) (mempool c).

(** [AddTx]: the result carries the tx as the caller's pointer sees it
    afterwards. *)
Definition AddTx (store : Store) (c : controller) (done : bool) (tx : Tx)
    : option error * Tx * (Store * controller) :=
  match txStore_TxExists store (stateURI c) (ID tx) with
  | inl err => (Some err, tx, (store, c))
  | inr true => (None, tx, (store, c))
  | inr false =>
      let tx := setValid tx false in
      match txStore_AddTx store tx with
      | (Some err, store) => (Some err, tx, (store, c))
      | (None, store) => (None, tx, (store, addToMempool c done tx))
      end
  end.

End WithStore.

End Admission.

(* ===================================================================== *)
(** * Theorems *)
(* ===================================================================== *)

(** ** Byte strings *)

Module Bytes.

Lemma app_nil_l (s : string) : "" +:+ s = s.
Proof. reflexivity. Qed.

Lemma app_cons (a : ascii) (s t : string) :
  String a s +:+ t = String a (s +:+ t).
Proof. reflexivity. Qed.

Lemma app_nil_r (s : string) : s +:+ "" = s.
Proof.
  induction s as [|a s IH]; [reflexivity|]. now rewrite app_cons, IH.
Qed.

Lemma app_assoc (s1 s2 s3 : string) : (s1 +:+ s2) +:+ s3 = s1 +:+ (s2 +:+ s3).
Proof.
  induction s1 as [|a s1 IH]; [reflexivity|]. now rewrite !app_cons, IH.
Qed.

Lemma length_app (s1 s2 : string) :
  String.length (s1 +:+ s2) = (String.length s1 + String.length s2)%nat.
Proof.
  induction s1 as [|a s1 IH]; [reflexivity|].
  rewrite app_cons. simpl. now rewrite IH.
Qed.

Lemma slen_app (s1 s2 : string) : slen (s1 +:+ s2) = slen s1 + slen s2.
Proof. unfold slen. rewrite length_app. lia. Qed.

Lemma slen_nonneg (s : string) : 0 <= slen s.
Proof. unfold slen. lia. Qed.

Lemma slen_zero (s : string) : slen s = 0 -> s = "".
Proof. destruct s; [reflexivity|]. unfold slen. simpl. lia. Qed.

Lemma length_substring_le (n m : nat) (s : string) :
  (String.length (String.substring n m s) <= String.length s)%nat.
Proof.
  revert n m. induction s as [|a s IH]; intros n m.
  - destruct n, m; simpl; lia.
  - destruct n as [|n].
    + destruct m as [|m]; simpl; [lia|]. specialize (IH 0%nat m). lia.
    + simpl. specialize (IH n m). lia.
Qed.

End Bytes.

(** ** Transactions *)

Module TxsFacts.

Import Txs Spec.

Section WithPrimitives.
Context `{Primitives}.

Lemma foldl_append_concat (acc : string) (l : list string) :
  foldl (fun bs r => bs +:+ r) acc l = acc +:+ String.concat "" l.
Proof.
  revert acc. induction l as [|x l IH]; intros acc; simpl.
  - now rewrite Bytes.app_nil_r.
  - rewrite IH, Bytes.app_assoc. destruct l as [|y l]; simpl.
    + now rewrite Bytes.app_nil_r.
    + reflexivity.
Qed.

(** C3, as the code has it: the private root key is ["private-"] followed by
    the hex form of the hash of the recipient addresses concatenated in the
    order in which they are given; no sorting takes place. *)
Theorem private_root_key_in_given_order (recipients : list types.Address) :
  PrivateRootKeyForRecipients recipients =
  "private-" +:+ Hash_Hex (HashBytes (String.concat "" recipients)).
Proof.
  unfold PrivateRootKeyForRecipients.
  now rewrite foldl_append_concat.
Qed.

Lemma sortBytes_sorted_id (l : list string) :
  sortBytes l = l -> PrivateRootKeyForRecipients l = PrivateRootKey_sorted l.
Proof.
  intros Hs. unfold PrivateRootKeyForRecipients, PrivateRootKey_sorted.
  now rewrite foldl_append_concat, Hs.
Qed.

End WithPrimitives.

(** C3, as the spec has it, fails: with a hash that tells its inputs apart,
    the recipients [bob; alice] and [alice; bob] get different private root
    keys, and the key of [bob; alice] is not the one of the sorted list. *)
Lemma private_root_key_depends_on_order :
  @PrivateRootKeyForRecipients Scenario.primitives ["bob"; "alice"] <>
  @PrivateRootKeyForRecipients Scenario.primitives ["alice"; "bob"] /\
  @PrivateRootKeyForRecipients Scenario.primitives ["bob"; "alice"] <>
  @PrivateRootKey_sorted Scenario.primitives ["bob"; "alice"].
Proof.
  split; vm_compute; discriminate.
Qed.

End TxsFacts.

(** ** The controller *)

Module CtrlFacts.

Import Txs Ctrl Spec.

Section WithEnvironment.
Context `{Primitives} `{Extrinsics}.

(** *** Intrinsic validation *)

Lemma checkParents_None (store : TxStore) (uri : string) (parents : list types.ID) :
  checkParents store uri parents = None <->
  forall p, p ∈ parents ->
    exists ptx, store !! (uri, p) = Some ptx /\
                (Valid ptx = true \/ p = GenesisTxID).
Proof.
  induction parents as [|p parents IH]; simpl.
  - split; [|reflexivity]. intros _ p Hp. inversion Hp.
  - unfold TxStore_FetchTx.
    destruct (store !! (uri, p)) as [ptx|] eqn:Hlook; simpl.
    + destruct (Valid ptx) eqn:Hv; simpl.
      * rewrite IH. split.
        -- intros Hall q Hq. apply elem_of_cons in Hq as [->|Hq]; eauto.
        -- intros Hall q Hq. apply Hall. now right.
      * case_bool_decide as Hg; simpl.
        -- rewrite IH. split.
           ++ intros Hall q Hq. apply elem_of_cons in Hq as [->|Hq]; eauto.
           ++ intros Hall q Hq. apply Hall. now right.
        -- split; [discriminate|]. intros Hall.
           destruct (Hall p) as (ptx' & Hl & [Hv'|Hg']); [now left| | ].
           ++ congruence.
           ++ contradiction.
    + split; [discriminate|]. intros Hall.
      destruct (Hall p) as (ptx' & Hl & _); [now left|congruence].
Qed.

Lemma checkParents_retryable (store : TxStore) (uri : string)
    (parents : list types.ID) (err : error) :
  checkParents store uri parents = Some err -> Cause err = ErrNoParentYet.
Proof.
  induction parents as [|p parents IH]; simpl; [discriminate|].
  unfold TxStore_FetchTx.
  destruct (store !! (uri, p)) as [ptx|]; simpl.
  - destruct (negb (Valid ptx) && negb (bool_decide (p = GenesisTxID))).
    + intros [= <-]. reflexivity.
    + exact IH.
  - intros [= <-]. reflexivity.
Qed.

Lemma signature_check (tx : Tx) :
  match RecoverSigningPubkey (Tx_Hash tx) (Sig tx) with
  | inl _ => Some (Wrap ErrInvalidSignature "recover")
  | inr sigPubKey =>
      if negb (VerifySignature sigPubKey (Tx_Hash tx) (Sig tx))
      then Some (Wrap ErrInvalidSignature "cannot be verified")
      else if negb (bool_decide (PubKey_Address sigPubKey = From tx))
      then Some (Wrap ErrInvalidSignature "address doesn't match")
      else None
  end = None <-> signedBySender tx.
Proof.
  unfold signedBySender.
  destruct (RecoverSigningPubkey (Tx_Hash tx) (Sig tx)) as [e|pk].
  - split; [discriminate|]. intros (pk & Hr & _). discriminate.
  - destruct (VerifySignature pk (Tx_Hash tx) (Sig tx)) eqn:Hv; simpl.
    + case_bool_decide as Ha; simpl.
      * split; [|reflexivity]. intros _. exists pk. auto.
      * split; [discriminate|]. intros (pk' & [= <-] & _ & Ha'). contradiction.
    + split; [discriminate|]. intros (pk' & [= <-] & Hv' & _). congruence.
Qed.

Lemma validateTxIntrinsics_None (store : TxStore) (c : controller) (tx : Tx) :
  validateTxIntrinsics store c tx = None <->
  (Parents tx <> [] \/ ID tx = GenesisTxID) /\
  (forall p, p ∈ Parents tx ->
     exists ptx, store !! (stateURI c, p) = Some ptx /\
                 (Valid ptx = true \/ p = GenesisTxID)) /\
  (ID tx <> GenesisTxID -> signedBySender tx).
Proof.
  unfold validateTxIntrinsics.
  assert (Hlen : (llen (Parents tx) =? 0) = true <-> Parents tx = []).
  { unfold llen. destruct (Parents tx); simpl; split; try reflexivity;
      try discriminate; intros; lia. }
  destruct (llen (Parents tx) =? 0) eqn:Hl; simpl.
  - assert (Hnil : Parents tx = []) by now apply Hlen.
    case_bool_decide as Hg; simpl.
    + rewrite Hnil. simpl. split.
      * intros _. repeat split; [now right| |contradiction].
        intros p Hp. inversion Hp.
      * reflexivity.
    + split; [discriminate|]. intros ([Hne|Hg'] & _); contradiction.
  - assert (Hne : Parents tx <> []).
    { intros Hnil. apply Hlen in Hnil. congruence. }
    destruct (checkParents store (stateURI c) (Parents tx)) as [e|] eqn:Hcp.
    + split; [discriminate|]. intros (_ & Hall & _).
      apply (proj2 (checkParents_None _ _ _)) in Hall. congruence.
    + pose proof (proj1 (checkParents_None _ _ _) Hcp) as Hall.
      case_bool_decide as Hg; simpl.
      * split; [|reflexivity]. intros _. repeat split; auto. contradiction.
      * rewrite signature_check. split.
        -- intros Hs. repeat split; auto.
        -- intros (_ & _ & Hs). auto.
Qed.

(** C2: intrinsic validation of a tx succeeds only if (1) the tx has a parent
    or is the genesis tx, (2) every parent is in the tx store and is marked
    valid or is the genesis tx, and (3) unless the tx is the genesis tx, the
    key recovered from its hash and signature verifies the hash and has the
    address in [From]. *)
Theorem validateTxIntrinsics_only_if (store : TxStore) (c : controller) (tx : Tx) :
  validateTxIntrinsics store c tx = None ->
  (Parents tx <> [] \/ ID tx = GenesisTxID) /\
  (forall p, p ∈ Parents tx ->
     exists ptx, store !! (stateURI c, p) = Some ptx /\
                 (Valid ptx = true \/ p = GenesisTxID)) /\
  (ID tx <> GenesisTxID ->
     exists sigPubKey,
       RecoverSigningPubkey (Tx_Hash tx) (Sig tx) = inr sigPubKey /\
       VerifySignature sigPubKey (Tx_Hash tx) (Sig tx) = true /\
       PubKey_Address sigPubKey = From tx).
Proof.
  intros Hok. now apply validateTxIntrinsics_None in Hok.
Qed.

(** Whatever makes intrinsic validation fail for want of a parent can be
    retried; the other failures are final. *)
Lemma validateTxIntrinsics_errors (store : TxStore) (c : controller) (tx : Tx)
    (err : error) :
  validateTxIntrinsics store c tx = Some err ->
  Cause err = ErrTxMissingParents \/ Cause err = ErrNoParentYet \/
  Cause err = ErrInvalidSignature.
Proof.
  unfold validateTxIntrinsics.
  destruct ((llen (Parents tx) =? 0) && negb (bool_decide (ID tx = GenesisTxID))).
  - intros [= <-]. now left.
  - destruct (checkParents store (stateURI c) (Parents tx)) as [e|] eqn:Hcp.
    + intros [= <-]. right. left. eapply checkParents_retryable; eauto.
    + destruct (negb (bool_decide (ID tx = GenesisTxID))); [|discriminate].
      destruct (RecoverSigningPubkey (Tx_Hash tx) (Sig tx)) as [e|pk].
      * intros [= <-]. now right; right.
      * destruct (negb (VerifySignature pk (Tx_Hash tx) (Sig tx))).
        -- intros [= <-]. now right; right.
        -- destruct (negb (bool_decide (PubKey_Address pk = From tx)));
             [|discriminate].
           intros [= <-]. now right; right.
Qed.

(** *** Processing one tx *)

Lemma unmarkParents_difference (leaves : gset types.ID) (parents : list types.ID) :
  unmarkParents leaves parents = leaves ∖ list_to_set parents.
Proof.
  unfold unmarkParents. revert leaves.
  induction parents as [|p parents IH]; intros leaves; simpl.
  - set_solver.
  - rewrite IH. set_solver.
Qed.

Lemma processMempoolTx_applied (store : TxStore) (c : controller) (tx : Tx)
    (store' : TxStore) (c' : controller) :
  processMempoolTx store c tx = (None, (store', c')) ->
  validateTxIntrinsics store c tx = None /\
  store' = TxStore_AddTx store (setValid tx true) /\
  stateURI c' = stateURI c /\
  leaves c' = (leaves c ∖ list_to_set (Parents tx)) ∪ {[ID tx]} /\
  mempool c' = mempool c /\ chMempool c' = chMempool c /\
  fst (applyExtrinsics tx (states c)) = None.
Proof.
  unfold processMempoolTx.
  destruct (validateTxIntrinsics store c tx) as [e|]; [discriminate|].
  destruct (applyExtrinsics tx (states c)) as [[e|] st]; [discriminate|].
  intros [= <- <-]. simpl. rewrite unmarkParents_difference. auto 10.
Qed.

Lemma processMempoolTx_failed (store : TxStore) (c : controller) (tx : Tx)
    (err : error) (store' : TxStore) (c' : controller) :
  processMempoolTx store c tx = (Some err, (store', c')) ->
  store' = store /\ stateURI c' = stateURI c /\ leaves c' = leaves c /\
  mempool c' = mempool c /\ chMempool c' = chMempool c /\
  (validateTxIntrinsics store c tx = Some err \/
   (validateTxIntrinsics store c tx = None /\
    fst (applyExtrinsics tx (states c)) = Some err)).
Proof.
  unfold processMempoolTx.
  destruct (validateTxIntrinsics store c tx) as [e|].
  - intros [= <- <- <-]. auto 10.
  - destruct (applyExtrinsics tx (states c)) as [[e|] st]; [|discriminate].
    intros [= <- <- <-]. simpl. auto 10.
Qed.

Lemma lookup_AddTx_eq (store : TxStore) (tx : Tx) :
  TxStore_AddTx store (setValid tx true) !! (URL tx, ID tx) =
  Some (setValid tx true).
Proof. unfold TxStore_AddTx. simpl. apply lookup_insert_eq. Qed.

Lemma lookup_AddTx_ne (store : TxStore) (tx : Tx) (uri : string) (x : types.ID) :
  x <> ID tx ->
  TxStore_AddTx store (setValid tx true) !! (uri, x) = store !! (uri, x).
Proof.
  intros Hne. unfold TxStore_AddTx. simpl. apply lookup_insert_ne. congruence.
Qed.

Lemma validated_after_AddTx (store : TxStore) (tx : Tx) (x : types.ID) :
  validated (TxStore_AddTx store (setValid tx true)) (URL tx) x <->
  x = ID tx \/ validated store (URL tx) x.
Proof.
  unfold validated. split.
  - intros (t & Hl & Hv). destruct (decide (x = ID tx)) as [->|Hne]; [now left|].
    right. rewrite lookup_AddTx_ne in Hl by exact Hne. eauto.
  - intros [->|(t & Hl & Hv)].
    + eexists. rewrite lookup_AddTx_eq. split; reflexivity.
    + destruct (decide (x = ID tx)) as [->|Hne].
      * eexists. rewrite lookup_AddTx_eq. split; reflexivity.
      * exists t. rewrite lookup_AddTx_ne by exact Hne. auto.
Qed.

Lemma listed_after_AddTx (store : TxStore) (tx : Tx) (x : types.ID) :
  ~ validated store (URL tx) (ID tx) ->
  listedAsParent (TxStore_AddTx store (setValid tx true)) (URL tx) x <->
  (x <> ID tx /\ x ∈ Parents tx) \/ listedAsParent store (URL tx) x.
Proof.
  intros Hnew. unfold listedAsParent. split.
  - intros (k & t & Hkx & Hl & Hv & Hp).
    destruct (decide (k = ID tx)) as [->|Hne].
    + rewrite lookup_AddTx_eq in Hl. injection Hl as <-. left. auto.
    + rewrite lookup_AddTx_ne in Hl by exact Hne. right. eauto 10.
  - intros [[Hx Hp]|(k & t & Hkx & Hl & Hv & Hp)].
    + exists (ID tx). eexists. rewrite lookup_AddTx_eq. repeat split; auto.
    + exists k, t. destruct (decide (k = ID tx)) as [->|Hne].
      * exfalso. apply Hnew. exists t. auto.
      * rewrite lookup_AddTx_ne by exact Hne. auto.
Qed.

(** C1, as the code has it.  When the controller has processed a tx with
    success, the tx is validated and the leaves are the old leaves without
    the parents of the tx, and with its ID: its ID is a leaf, and no parent
    other than the tx itself is; a tx other than the genesis tx is never its
    own parent.  This holds for a tx that was not validated before, as the txs
    in the mempool are.  If moreover the tx is not the genesis tx, or no
    validated tx lists it as a parent yet, then leaves that were the validated
    txs that no other validated tx lists as a parent (the parents of validated
    txs being validated, or the genesis tx) still are so afterwards. *)
Theorem leaves_after_processing (store : TxStore) (c : controller) (tx : Tx)
    (store' : TxStore) (c' : controller) :
  processMempoolTx store c tx = (None, (store', c')) ->
  URL tx = stateURI c ->
  ~ validated store (stateURI c) (ID tx) ->
  validated store' (stateURI c') (ID tx) /\
  leaves c' = (leaves c ∖ list_to_set (Parents tx)) ∪ {[ID tx]} /\
  ID tx ∈ leaves c' /\
  (forall p, p ∈ Parents tx -> p <> ID tx -> p ∉ leaves c') /\
  (ID tx <> GenesisTxID -> ID tx ∉ Parents tx) /\
  (ID tx <> GenesisTxID \/ ~ listedAsParent store (stateURI c) (ID tx) ->
   graphInvariant store c -> graphInvariant store' c').
Proof.
  intros Hproc Hurl Hnew.
  apply processMempoolTx_applied in Hproc
    as (Hval & -> & Huri & Hleaves & _ & _ & _).
  pose proof (proj1 (validateTxIntrinsics_None _ _ _) Hval) as (_ & Hparents & _).
  rewrite Huri, <- Hurl in *.
  split; [apply validated_after_AddTx; now left|].
  split; [exact Hleaves|].
  split; [rewrite Hleaves; set_solver|].
  split.
  { intros p Hp Hne. rewrite Hleaves. set_solver. }
  split.
  { intros Hng Hin. destruct (Hparents _ Hin) as (ptx & Hl & [Hv|Hg]).
    - apply Hnew. exists ptx. auto.
    - contradiction. }
  intros Hcase [Hlc Hpk]. unfold leavesCorrect, parentsKnown in Hlc, Hpk.
  rewrite <- Hurl in Hlc, Hpk.
  assert (Hunlisted : ~ listedAsParent store (URL tx) (ID tx)).
  { destruct Hcase as [Hng|Hu]; [|exact Hu].
    intros (k & t & Hk & Hl & Hv & Hp).
    destruct (Hpk k t (ID tx) Hl Hv Hp) as [Hv'|Hg]; contradiction. }
  split.
  - intros x. rewrite Huri.
    rewrite validated_after_AddTx, listed_after_AddTx by exact Hnew.
    rewrite Hleaves. specialize (Hlc x).
    destruct (decide (x = ID tx)) as [->|Hne].
    + split.
      * intros _. split; [now left|]. intros [[Hx _]|Hl]; contradiction.
      * intros _. set_solver.
    + split.
      * intros Hin.
        assert (Hx : x ∈ leaves c /\ x ∉ Parents tx) by set_solver.
        destruct Hx as [Hx1 Hx2]. apply Hlc in Hx1 as [Hx1 Hx3].
        split; [now right|]. intros [[_ Hp]|Hl]; contradiction.
      * intros [[Heq|Hv] Hnl]; [contradiction|].
        assert (Hx : x ∈ leaves c).
        { apply Hlc. split; [exact Hv|]. intros Hl. apply Hnl. now right. }
        assert (Hx2 : x ∉ Parents tx).
        { intros Hp. apply Hnl. left. auto. }
        set_solver.
  - rewrite Huri. intros k t p Hl Hv Hp.
    destruct (decide (k = ID tx)) as [->|Hne].
    + rewrite lookup_AddTx_eq in Hl. injection Hl as <-. simpl in Hp.
      destruct (Hparents _ Hp) as (ptx & Hl' & [Hv'|Hg]); [|now right].
      left. apply validated_after_AddTx. right. exists ptx. auto.
    + rewrite lookup_AddTx_ne in Hl by exact Hne.
      destruct (Hpk k t p Hl Hv Hp) as [Hv'|Hg]; [|now right].
      left. apply validated_after_AddTx. now right.
Qed.

Lemma graphInvariant_initial (uri : string) :
  graphInvariant ∅ (NewController uri).
Proof.
  split.
  - intros id. simpl. split; [set_solver|].
    intros [(t & Hl & _) _]. rewrite lookup_empty in Hl. discriminate.
  - intros k t p Hl. rewrite lookup_empty in Hl. discriminate.
Qed.

(** *** The mempool pass and the loop around it *)

Lemma retryable_Cause (err : error) :
  retryable err = true <->
  Cause err = ErrNoParentYet \/ Cause err = ErrMissingCriticalRefs.
Proof.
  unfold retryable. rewrite orb_true_iff, !bool_decide_eq_true. reflexivity.
Qed.

(** The pass of the code is the pass of the spec. *)
Lemma mempoolPass_passSpec (pending : list Tx) :
  forall store c anySucceeded newMempool,
  exists any kept store' c',
    mempoolPass store c pending anySucceeded newMempool =
      (anySucceeded || any, newMempool ++ kept, (store', c')) /\
    passSpec store c pending any kept store' c'.
Proof.
  induction pending as [|tx rest IH]; intros store c anyS acc; simpl.
  - exists false, [], store, c. rewrite orb_false_r, app_nil_r.
    split; [reflexivity|constructor].
  - destruct (processMempoolTx store c tx) as [[e|] [store1 c1]] eqn:Hp.
    + destruct (retryable e) eqn:Hr.
      * destruct (IH store1 c1 anyS (acc ++ [tx])) as (any & kept & s2 & c2 & Heq & Hspec).
        exists any, (tx :: kept), s2, c2. rewrite Heq, <- app_assoc. simpl.
        split; [reflexivity|].
        eapply pass_retained; eauto. now apply retryable_Cause.
      * destruct (IH store1 c1 anyS acc) as (any & kept & s2 & c2 & Heq & Hspec).
        exists any, kept, s2, c2. split; [exact Heq|].
        eapply pass_dropped; eauto;
          intros Hc; rewrite (proj2 (retryable_Cause e)) in Hr; auto; discriminate.
    + destruct (IH store1 c1 true acc) as (any & kept & s2 & c2 & Heq & Hspec).
      exists true, kept, s2, c2. rewrite orb_true_r. split; [exact Heq|].
      eapply pass_applied; eauto.
Qed.

Lemma passSpec_length store c pending any kept store' c' :
  passSpec store c pending any kept store' c' ->
  (length kept <= length pending)%nat /\
  (any = true -> (length kept < length pending)%nat).
Proof.
  induction 1 as [| ? ? ? ? ? ? ? ? ? ? ? ? ? ? [IH1 IH2]
                  | ? ? ? ? ? ? ? ? ? ? ? ? ? ? ? [IH1 IH2]
                  | ? ? ? ? ? ? ? ? ? ? ? ? [IH1 IH2]]; simpl.
  - split; [lia|discriminate].
  - split; [lia|]. intros Ha. specialize (IH2 Ha). lia.
  - split; [lia|]. intros Ha. specialize (IH2 Ha). lia.
  - split; lia.
Qed.

Lemma passSpec_frame store c pending any kept store' c' :
  passSpec store c pending any kept store' c' ->
  stateURI c' = stateURI c /\ mempool c' = mempool c /\
  chMempool c' = chMempool c /\
  (forall uri id, validated store uri id -> validated store' uri id) /\
  (forall tx, tx ∈ kept -> tx ∈ pending) /\
  (any = false -> store' = store).
Proof.
  induction 1 as [| store c tx err store1 c1 rest any kept store2 c2 Hp Hr Hs IH
                  | store c tx err store1 c1 rest any kept store2 c2 Hp Hr1 Hr2 Hs IH
                  | store c tx store1 c1 rest any kept store2 c2 Hp Hs IH].
  - repeat split; auto.
  - apply processMempoolTx_failed in Hp as (-> & Hu & _ & Hm & Hc & _).
    destruct IH as (IHu & IHm & IHc & IHv & IHk & IHs).
    repeat split; try congruence; auto.
    intros t Ht. apply elem_of_cons in Ht as [->|Ht]; [left|right; auto].
  - apply processMempoolTx_failed in Hp as (-> & Hu & _ & Hm & Hc & _).
    destruct IH as (IHu & IHm & IHc & IHv & IHk & IHs).
    repeat split; try congruence; auto.
    intros t Ht. right. auto.
  - apply processMempoolTx_applied in Hp as (_ & -> & Hu & _ & Hm & Hc & _).
    destruct IH as (IHu & IHm & IHc & IHv & IHk & IHs).
    repeat split; try congruence; auto; try discriminate.
    + intros uri id (t & Hl & Hv). apply IHv.
      destruct (decide ((URL tx, ID tx) = (uri, id))) as [[= <- <-]|Hne].
      * eexists. rewrite lookup_AddTx_eq. split; reflexivity.
      * exists t. unfold TxStore_AddTx. simpl.
        rewrite lookup_insert_ne by exact Hne. auto.
    + intros t Ht. right. auto.
Qed.

(** Enough fuel: every pass but the last shortens the mempool. *)
Lemma processMempoolLoop_loopSpec (fuel : nat) :
  forall store c, (length (mempool c) < fuel)%nat ->
  exists r, processMempoolLoop fuel store c = Some r /\ loopSpec store c r.
Proof.
  induction fuel as [|fuel IH]; intros store c Hlen; [lia|]. simpl.
  destruct (mempoolPass_passSpec (mempool c) store c false [])
    as (any & kept & store1 & c1 & Heq & Hspec).
  rewrite Heq. simpl.
  destruct any; simpl.
  - destruct (passSpec_length _ _ _ _ _ _ _ Hspec) as [_ Hlt].
    specialize (Hlt eq_refl).
    destruct (IH store1 (setMempool c1 (chMempool c1) kept)) as (r & Hr & Hl).
    { simpl. lia. }
    exists r. split; [exact Hr|]. eapply loop_again; eauto.
  - eexists. split; [reflexivity|]. now apply loop_stop.
Qed.

Lemma processMempool_loopSpec (store : TxStore) (c : controller) :
  exists r, processMempool store c = Some r /\ loopSpec store c r.
Proof. apply processMempoolLoop_loopSpec. lia. Qed.








(** *** Chains of dependent txs *)

Lemma applicable_errors (store : TxStore) (c : controller) (tx : Tx) (err : error) :
  applicable (stateURI c) tx ->
  validateTxIntrinsics store c tx = Some err -> Cause err = ErrNoParentYet.
Proof.
  intros (_ & Hpar & Hsig & _). unfold validateTxIntrinsics.
  destruct ((llen (Parents tx) =? 0) && negb (bool_decide (ID tx = GenesisTxID)))
    eqn:Hm.
  - apply andb_true_iff in Hm as [Hl Hg]. exfalso.
    apply negb_true_iff, bool_decide_eq_false in Hg.
    destruct Hpar as [Hne|Hg']; [|contradiction].
    destruct (Parents tx); [contradiction|]. unfold llen in Hl. simpl in Hl. lia.
  - destruct (checkParents store (stateURI c) (Parents tx)) as [e|] eqn:Hcp.
    + intros [= <-]. eapply checkParents_retryable; eauto.
    + case_bool_decide as Hg; simpl; [discriminate|].
      destruct Hsig as [Hg'|Hs]; [contradiction|].
      rewrite (proj2 (signature_check tx) Hs). discriminate.
Qed.

Lemma applicable_applies (store : TxStore) (c : controller) (tx : Tx) :
  applicable (stateURI c) tx ->
  (forall p, p ∈ Parents tx -> validated store (stateURI c) p) ->
  fst (processMempoolTx store c tx) = None.
Proof.
  intros (_ & Hpar & Hsig & Hext) Hval. unfold processMempoolTx.
  assert (Hv : validateTxIntrinsics store c tx = None).
  { apply validateTxIntrinsics_None. repeat split; auto.
    - intros p Hp. destruct (Hval p Hp) as (ptx & Hl & Hv). eauto.
    - intros Hg. destruct Hsig; [contradiction|assumption]. }
  rewrite Hv. specialize (Hext (states c)).
  destruct (applyExtrinsics tx (states c)) as [[e|] st]; simpl in *;
    [discriminate|reflexivity].
Qed.

(** A tx that nothing but a missing parent can keep back leaves the pending
    list only by being applied. *)
Lemma passSpec_applicable store c pending any kept store' c' :
  passSpec store c pending any kept store' c' ->
  forall tx, tx ∈ pending -> applicable (stateURI c) tx ->
             tx ∈ kept \/ validated store' (stateURI c) (ID tx).
Proof.
  induction 1 as [| store c tx err store1 c1 rest any kept store2 c2 Hp Hr Hs IH
                  | store c tx err store1 c1 rest any kept store2 c2 Hp Hr1 Hr2 Hs IH
                  | store c tx store1 c1 rest any kept store2 c2 Hp Hs IH];
    intros t Ht Happ.
  - inversion Ht.
  - apply processMempoolTx_failed in Hp as (-> & Hu & _).
    apply elem_of_cons in Ht as [->|Ht]; [left; left|].
    rewrite <- Hu in *. destruct (IH t Ht Happ); [left; now right|now right].
  - pose proof Hp as Hp'.
    apply processMempoolTx_failed in Hp as (-> & Hu & _ & _ & _ & Hwhy).
    apply elem_of_cons in Ht as [->|Ht].
    + exfalso. destruct Hwhy as [Hv|[_ He]].
      * apply Hr1. eapply applicable_errors; eauto.
      * destruct Happ as (_ & _ & _ & Hext). rewrite Hext in He. discriminate.
    + rewrite <- Hu in *. destruct (IH t Ht Happ); auto.
  - apply processMempoolTx_applied in Hp as (_ & -> & Hu & _).
    destruct (passSpec_frame _ _ _ _ _ _ _ Hs) as (_ & _ & _ & Hmono & _).
    apply elem_of_cons in Ht as [->|Ht].
    + right. apply Hmono. destruct Happ as (<- & _).
      apply validated_after_AddTx. now left.
    + rewrite <- Hu in *. destruct (IH t Ht Happ); auto.
Qed.

(** A pass without a success met no tx that was ready to be applied. *)
Lemma passSpec_idle store c pending kept store' c' :
  passSpec store c pending false kept store' c' ->
  forall tx, tx ∈ pending -> applicable (stateURI c) tx ->
             ~ (forall p, p ∈ Parents tx -> validated store (stateURI c) p).
Proof.
  remember false as any eqn:Hany.
  induction 1 as [| store c tx err store1 c1 rest any kept store2 c2 Hp Hr Hs IH
                  | store c tx err store1 c1 rest any kept store2 c2 Hp Hr1 Hr2 Hs IH
                  | store c tx store1 c1 rest any kept store2 c2 Hp Hs IH];
    intros t Ht Happ Hval; try discriminate.
  - inversion Ht.
  - apply elem_of_cons in Ht as [->|Ht].
    + pose proof (applicable_applies store c tx Happ Hval) as Hok.
      rewrite Hp in Hok. discriminate.
    + apply processMempoolTx_failed in Hp as (-> & Hu & _).
      rewrite <- Hu in *. eapply IH; eauto.
  - apply elem_of_cons in Ht as [->|Ht].
    + pose proof (applicable_applies store c tx Happ Hval) as Hok.
      rewrite Hp in Hok. discriminate.
    + apply processMempoolTx_failed in Hp as (-> & Hu & _).
      rewrite <- Hu in *. eapply IH; eauto.
Qed.

Lemma chainReady_pass store c kept store1 c1 any :
  passSpec store c (mempool c) any kept store1 c1 ->
  forall chain earlier,
    chainReady store c earlier chain ->
    chainReady store1 (setMempool c1 (chMempool c1) kept) earlier chain.
Proof.
  intros Hs.
  destruct (passSpec_frame _ _ _ _ _ _ _ Hs) as (Hu & _ & _ & Hmono & _).
  induction chain as [|tx chain IH]; intros earlier; simpl; [auto|].
  intros [(Hin & Happ & Hpar) Hrest]. split; [|now apply IH].
  unfold linkReady. simpl. rewrite Hu. split; [|split; [exact Happ|]].
  - destruct Hin as [Hin|Hv]; [|right; now apply Hmono].
    eapply passSpec_applicable; eauto.
  - intros p Hp. destruct (Hpar p Hp); [left; now apply Hmono|now right].
Qed.

Lemma chainReady_idle store c kept store1 c1 :
  passSpec store c (mempool c) false kept store1 c1 ->
  forall chain earlier,
    (forall e, e ∈ earlier -> validated store (stateURI c) (ID e)) ->
    chainReady store c earlier chain ->
    forall tx, tx ∈ chain ->
      validated store (stateURI c) (ID tx) /\ (tx ∈ mempool c -> False).
Proof.
  intros Hs. induction chain as [|tx chain IH]; intros earlier Hearlier;
    simpl; intros Hready t Ht; [inversion Ht|].
  destruct Hready as [(Hin & Happ & Hpar) Hrest].
  assert (Hparents : forall p, p ∈ Parents tx -> validated store (stateURI c) p).
  { intros p Hp. destruct (Hpar p Hp) as [Hv|He]; [exact Hv|].
    apply list_elem_of_fmap in He as (e & -> & He). now apply Hearlier. }
  assert (Hout : tx ∈ mempool c -> False).
  { intros Hm. eapply passSpec_idle; eauto. }
  assert (Hv : validated store (stateURI c) (ID tx)).
  { destruct Hin as [Hm|Hv]; [contradiction|exact Hv]. }
  apply elem_of_cons in Ht as [->|Ht]; [split; assumption|].
  eapply (IH (earlier ++ [tx])); eauto.
  intros e He. apply elem_of_app in He as [He|He]; [now apply Hearlier|].
  apply list_elem_of_singleton in He as ->. exact Hv.
Qed.

Lemma loopSpec_chain store c r :
  loopSpec store c r ->
  forall chain, chainReady store c [] chain ->
  forall tx, tx ∈ chain ->
    validated (fst r) (stateURI c) (ID tx) /\ (tx ∉ mempool (snd r)).
Proof.
  induction 1 as [store c kept store1 c1 Hs|store c kept store1 c1 r Hs Hl IH];
    intros chain Hready tx Htx.
  - destruct (passSpec_frame _ _ _ _ _ _ _ Hs) as (_ & _ & _ & _ & Hk & Hsame).
    rewrite (Hsame eq_refl) in *. simpl.
    destruct (chainReady_idle _ _ _ _ _ Hs chain [] ) with (tx := tx)
      as [Hv Hout]; auto.
    { intros e He. inversion He. }
  - destruct (passSpec_frame _ _ _ _ _ _ _ Hs) as (Hu & _).
    pose proof (chainReady_pass _ _ _ _ _ _ Hs chain [] Hready) as Hready'.
    specialize (IH chain Hready' tx Htx). simpl in IH. rewrite Hu in IH.
    exact IH.
Qed.

(** C5: a pass keeps a tx that fails with [ErrNoParentYet] or
    [ErrMissingCriticalRefs], drops a tx that fails otherwise and removes a tx
    that succeeds ([passSpec]); [processMempool] returns, having repeated the
    pass as long as the pass before made a success ([loopSpec]); and so a chain
    of dependent txs, in whatever order they wait in the mempool, is applied
    as a whole once the parents of its first link are validated: each link
    ends up validated and out of the mempool. *)
Theorem mempool_applies_chain (store : TxStore) (c : controller) (chain : list Tx) :
  chainReady store c [] chain ->
  exists r,
    processMempool store c = Some r /\
    loopSpec store c r /\
    forall tx, tx ∈ chain ->
      validated (fst r) (stateURI c) (ID tx) /\ (tx ∉ mempool (snd r)).
Proof.
  intros Hready.
  destruct (processMempool_loopSpec store c) as (r & Hr & Hl).
  exists r. repeat split; auto; eapply loopSpec_chain; eauto.
Qed.

End WithEnvironment.

(** The genesis tx passes on an empty store; so does its child once the
    genesis tx is stored. *)
Lemma validateTxIntrinsics_only_if_witness :
  (Parents Scenario.tx1 <> [] \/ ID Scenario.tx1 = GenesisTxID) /\
  (forall p, p ∈ Parents Scenario.tx1 ->
     exists ptx,
       TxStore_AddTx ∅ Scenario.genesis
         !! (stateURI (@NewController Scenario.extrinsics Scenario.doc), p) = Some ptx /\
       (Valid ptx = true \/ p = GenesisTxID)) /\
  (ID Scenario.tx1 <> GenesisTxID ->
     exists sigPubKey,
       @RecoverSigningPubkey Scenario.primitives
         (@Tx_Hash Scenario.primitives Scenario.tx1) (Sig Scenario.tx1) = inr sigPubKey /\
       @VerifySignature Scenario.primitives sigPubKey
         (@Tx_Hash Scenario.primitives Scenario.tx1) (Sig Scenario.tx1) = true /\
       @PubKey_Address Scenario.primitives sigPubKey = From Scenario.tx1).
Proof.
  apply (@validateTxIntrinsics_only_if Scenario.primitives Scenario.extrinsics).
  vm_compute. reflexivity.
Defined.

(** C1, as the spec has it, fails in two ways.  A child of the genesis tx
    that arrives first waits in the mempool; when the genesis tx arrives, the
    pass applies the child, then the genesis tx, and the genesis tx stays a
    leaf although the validated child lists it as a parent.  And a genesis tx
    that names itself as a parent is a leaf after it has been processed. *)
Lemma leaves_not_the_frontier :
  match Scenario.childFirst with
  | Some (store, c) =>
      GenesisTxID ∈ leaves c /\
      @listedAsParent store (stateURI c) GenesisTxID /\
      ~ @leavesCorrect Scenario.extrinsics store c
  | None => False
  end /\
  match @processMempoolTx Scenario.primitives Scenario.extrinsics
          (TxStore_AddTx ∅ Scenario.selfGenesis)
          (@NewController Scenario.extrinsics Scenario.doc) Scenario.selfGenesis with
  | (None, (store, c)) =>
      exists p, p ∈ Parents Scenario.selfGenesis /\ p ∈ leaves c
  | _ => False
  end.
Proof.
  split.
  - assert (Hobs :
      match Scenario.childFirst with
      | Some (store, c) =>
          (bool_decide (GenesisTxID ∈ leaves c), stateURI c,
           Valid <$> store !! (Scenario.doc, "tx1"),
           Parents <$> store !! (Scenario.doc, "tx1"))
      | None => (false, "", None, None)
      end = (true, Scenario.doc, Some true, Some [GenesisTxID]))
      by (vm_compute; reflexivity).
    destruct Scenario.childFirst as [[store c]|]; [|discriminate].
    injection Hobs as Hleaf Huri Hvalid Hparents.
    apply bool_decide_eq_true in Hleaf.
    destruct (store !! (Scenario.doc, "tx1")) as [t|] eqn:Hl; [|discriminate].
    injection Hvalid as Hvalid. injection Hparents as Hparents.
    assert (Hlisted : @listedAsParent store (stateURI c) GenesisTxID).
    { exists "tx1", t. rewrite Huri, Hparents.
      repeat split; [discriminate|exact Hl|exact Hvalid|apply list_elem_of_here]. }
    repeat split; [exact Hleaf|exact Hlisted|].
    intros Hlc. apply (Hlc GenesisTxID) in Hleaf as [_ Hnot]. contradiction.
  - assert (Hobs :
      match @processMempoolTx Scenario.primitives Scenario.extrinsics
              (TxStore_AddTx ∅ Scenario.selfGenesis)
              (@NewController Scenario.extrinsics Scenario.doc)
              Scenario.selfGenesis with
      | (None, (store, c)) => bool_decide (GenesisTxID ∈ leaves c)
      | _ => false
      end = true) by (vm_compute; reflexivity).
    destruct (processMempoolTx _ _ _) as [[e|] [store c]]; [discriminate|].
    exists GenesisTxID. split; [apply list_elem_of_here|].
    now apply bool_decide_eq_true in Hobs.
Qed.

(** [tx1] is processed after the genesis tx. *)
Lemma leaves_after_processing_witness :
  let r := @processMempoolTx Scenario.primitives Scenario.extrinsics
             Scenario.chainStore Scenario.chainController Scenario.tx1 in
  @validated (fst (snd r)) (stateURI (snd (snd r))) (ID Scenario.tx1) /\
  leaves (snd (snd r)) =
    (leaves Scenario.chainController ∖ list_to_set (Parents Scenario.tx1))
    ∪ {[ID Scenario.tx1]} /\
  ID Scenario.tx1 ∈ leaves (snd (snd r)) /\
  (forall p, p ∈ Parents Scenario.tx1 -> p <> ID Scenario.tx1 ->
             p ∉ leaves (snd (snd r))) /\
  (ID Scenario.tx1 <> GenesisTxID -> ID Scenario.tx1 ∉ Parents Scenario.tx1) /\
  (ID Scenario.tx1 <> GenesisTxID \/
   ~ @listedAsParent Scenario.chainStore (stateURI Scenario.chainController)
       (ID Scenario.tx1) ->
   @graphInvariant Scenario.extrinsics Scenario.chainStore Scenario.chainController ->
   @graphInvariant Scenario.extrinsics (fst (snd r)) (snd (snd r))).
Proof.
  intros r.
  apply (@leaves_after_processing Scenario.primitives Scenario.extrinsics
           Scenario.chainStore Scenario.chainController Scenario.tx1).
  - assert (Hok : fst r = None) by (vm_compute; reflexivity).
    subst r. destruct (processMempoolTx _ _ _) as [e [store c]].
    simpl in *. now subst e.
  - reflexivity.
  - intros (t & Hl & Hv).
    assert (Hobs : Valid <$> Scenario.chainStore
                     !! (stateURI Scenario.chainController, ID Scenario.tx1)
                   = Some false) by (vm_compute; reflexivity).
    rewrite Hl in Hobs. simpl in Hobs. congruence.
Defined.

(** [tx1] arrives last and unblocks [tx2] and [tx3], which wait before it in
    the mempool. *)
Lemma mempool_applies_chain_witness :
  exists r,
    @processMempool Scenario.primitives Scenario.extrinsics
      Scenario.chainStore Scenario.chainController = Some r /\
    @loopSpec Scenario.primitives Scenario.extrinsics
      Scenario.chainStore Scenario.chainController r /\
    forall tx, tx ∈ [Scenario.tx1; Scenario.tx2; Scenario.tx3] ->
      @validated (fst r) (stateURI Scenario.chainController) (ID tx) /\
      (tx ∉ mempool (snd r)).
Proof.
  apply (@mempool_applies_chain Scenario.primitives Scenario.extrinsics).
  assert (Happ : forall id parents, parents <> [] ->
            @applicable Scenario.primitives Scenario.extrinsics
              Scenario.doc (Scenario.tx id parents)).
  { intros id parents Hne. repeat split; auto.
    right. exists "alice". repeat split. }
  simpl. repeat split; try (apply Happ; discriminate).
  - left. simpl. set_solver.
  - intros p Hp. apply list_elem_of_singleton in Hp as ->. left.
    eexists. split; [vm_compute; reflexivity|reflexivity].
  - left. simpl. set_solver.
  - intros p Hp. apply list_elem_of_singleton in Hp as ->. right.
    simpl. set_solver.
  - left. simpl. set_solver.
  - intros p Hp. apply list_elem_of_singleton in Hp as ->. right.
    simpl. set_solver.
Defined.

(** What the run leaves behind: an empty mempool, and [tx3] as the only
    leaf. *)
Example chain_applied :
  match @processMempool Scenario.primitives Scenario.extrinsics
          Scenario.chainStore Scenario.chainController with
  | Some (store, c) =>
      mempool c = [] /\ leaves c = {["tx3"]} /\
      states c = [GenesisTxID; "tx1"; "tx2"; "tx3"]
  | None => False
  end.
Proof. vm_compute. repeat split. Qed.

End CtrlFacts.

(** ** The host *)

Module GossipFacts.

Import Txs Ctrl Gossip Spec CtrlFacts.

Section WithEnvironment.
Context `{Primitives} `{Extrinsics} `{Network}.

(** *** The seen-by-peer map *)

Lemma markTuple_seen (txID : types.ID) (seen : gmap peerTuple (gmap types.ID bool))
    (tuple : peerTuple) :
  exists m, markTuple txID seen tuple !! tuple = Some m /\ m !! txID = Some true.
Proof.
  unfold markTuple. eexists. rewrite lookup_insert_eq. split; [reflexivity|].
  apply lookup_insert_eq.
Qed.

Lemma markTuple_keeps (txID txID' : types.ID)
    (seen : gmap peerTuple (gmap types.ID bool)) (tuple tuple' : peerTuple) :
  (exists m, seen !! tuple' = Some m /\ m !! txID' = Some true) ->
  exists m, markTuple txID seen tuple !! tuple' = Some m /\ m !! txID' = Some true.
Proof.
  intros (m & Hl & Hm). unfold markTuple.
  destruct (decide (tuple = tuple')) as [->|Hne].
  - rewrite lookup_insert_eq, Hl. simpl. eexists. split; [reflexivity|].
    destruct (decide (txID = txID')) as [->|Hne'].
    + apply lookup_insert_eq.
    + now rewrite lookup_insert_ne.
  - rewrite lookup_insert_ne by exact Hne. eauto.
Qed.

Lemma foldl_markTuple_keeps (txID txID' : types.ID) (tuples : list peerTuple) :
  forall seen tuple',
    (exists m, seen !! tuple' = Some m /\ m !! txID' = Some true) ->
    exists m, foldl (markTuple txID) seen tuples !! tuple' = Some m /\
              m !! txID' = Some true.
Proof.
  induction tuples as [|t tuples IH]; intros seen tuple' Hs; simpl; [exact Hs|].
  apply IH. now apply markTuple_keeps.
Qed.

Lemma markTxSeenByPeer_marks (h : host) (peer : Peer) (txID : types.ID) :
  peerMarked (markTxSeenByPeer h peer txID) peer txID.
Proof.
  unfold peerMarked, seenBy, markTxSeenByPeer. simpl.
  generalize (peerSeenTxs h). induction (peerTuples peer) as [|t tuples IH];
    intros seen tuple Hin; [inversion Hin|].
  simpl. apply elem_of_cons in Hin as [->|Hin].
  - apply foldl_markTuple_keeps, markTuple_seen.
  - now apply IH.
Qed.

Lemma markTxSeenByPeer_keeps (h : host) (peer : Peer) (txID : types.ID)
    (tuple : peerTuple) (txID' : types.ID) :
  seenBy h tuple txID' -> seenBy (markTxSeenByPeer h peer txID) tuple txID'.
Proof.
  unfold seenBy, markTxSeenByPeer. simpl. apply foldl_markTuple_keeps.
Qed.

(** Sending does not touch the map, nor the controller. *)
Lemma writeMsg_frame (h : host) (peer : Peer) (msg : Msg) :
  peerSeenTxs (snd (writeMsg h peer msg)) = peerSeenTxs h /\
  h_controller (snd (writeMsg h peer msg)) = h_controller h.
Proof. unfold writeMsg. destruct (peer_WriteMsg peer); simpl; auto. Qed.

Lemma putToSubscribers_frame (tx : Tx) (peers : list Peer) :
  forall h, peerSeenTxs (putToSubscribers h tx peers) = peerSeenTxs h /\
            h_controller (putToSubscribers h tx peers) = h_controller h.
Proof.
  induction peers as [|peer peers IH]; intros h; simpl; [auto|].
  destruct (txSeenByPeer h peer (ID tx)); [apply IH|].
  destruct (peer_EnsureConnected peer); [apply IH|].
  destruct (IH (snd (writeMsg h peer (Msg_Put tx)))) as [-> ->].
  apply writeMsg_frame.
Qed.

Lemma sendPrivate_frame (txID : types.ID) (marshalledTx : string)
    (peers : list (Peer * string)) :
  forall h any,
    peerSeenTxs (snd (sendPrivate h txID marshalledTx peers any)) = peerSeenTxs h /\
    h_controller (snd (sendPrivate h txID marshalledTx peers any)) = h_controller h.
Proof.
  induction peers as [|[peer key] peers IH]; intros h any; simpl; [auto|].
  destruct (peer_EnsureConnected peer); [apply IH|].
  destruct (SealMessageFor key marshalledTx) as [e|enc]; [apply IH|].
  pose proof (writeMsg_frame h peer
                (Msg_Private (mkEncryptedTx txID enc encryptingPublicKey))) as Hw.
  destruct (writeMsg h peer _) as [[e|] h']; simpl in Hw;
    destruct Hw as [<- <-]; apply IH.
Qed.

Lemma broadcastPrivateTxToRecipient_frame (h : host) (txID : types.ID)
    (marshalledTx : string) (recipientAddr : types.Address) :
  peerSeenTxs (snd (broadcastPrivateTxToRecipient h txID marshalledTx recipientAddr))
    = peerSeenTxs h /\
  h_controller (snd (broadcastPrivateTxToRecipient h txID marshalledTx recipientAddr))
    = h_controller h.
Proof.
  unfold broadcastPrivateTxToRecipient.
  destruct (peersWithAddress recipientAddr) as [e|peers]; simpl; [auto|].
  pose proof (sendPrivate_frame txID marshalledTx peers h false) as Hs.
  destruct (sendPrivate h txID marshalledTx peers false) as [any h'].
  simpl in Hs. destruct any; simpl; exact Hs.
Qed.

Lemma foldl_frame {A : Type} (f : host -> A -> host) (l : list A) :
  (forall h a, peerSeenTxs (f h a) = peerSeenTxs h /\
               h_controller (f h a) = h_controller h) ->
  forall h, peerSeenTxs (foldl f h l) = peerSeenTxs h /\
            h_controller (foldl f h l) = h_controller h.
Proof.
  intros Hf. induction l as [|a l IH]; intros h; simpl; [auto|].
  destruct (IH (f h a)) as [-> ->]. apply Hf.
Qed.

Lemma broadcastTx_frame (h : host) (tx : Tx) :
  peerSeenTxs (snd (broadcastTx h tx)) = peerSeenTxs h /\
  h_controller (snd (broadcastTx h tx)) = h_controller h.
Proof.
  unfold broadcastTx.
  destruct (slen (Sig tx) =? 0); simpl; [auto|].
  destruct (IsPrivate tx).
  - destruct (marshalTx tx) as [e|bs]; simpl; [auto|].
    apply foldl_frame. intros h' a. unfold broadcastToRecipient.
    case_bool_decide; [auto|]. apply broadcastPrivateTxToRecipient_frame.
  - simpl. apply foldl_frame. intros h' t. unfold broadcastOverTransport.
    destruct (ForEachSubscriberToStateURI t (URL tx)); [auto|].
    apply putToSubscribers_frame.
Qed.

Lemma addAndAck_seen (h : host) (tx : Tx) (peer : Peer) :
  peerSeenTxs (addAndAck h tx peer) = peerSeenTxs h.
Proof.
  unfold addAndAck.
  destruct (negb (Metacontroller_HaveTx (h_controller h) (URL tx) (ID tx))).
  - destruct (Metacontroller_AddTx (h_controller h) tx) as [[e tx'] m].
    destruct (writeMsg_frame (snd (broadcastTx (setController h m) tx')) peer
                (Msg_Ack (ID tx'))) as [-> _].
    destruct (broadcastTx_frame (setController h m) tx') as [-> _].
    reflexivity.
  - apply writeMsg_frame.
Qed.

(** C6, as the code has it: the seen-by-peer map is updated on every inbound
    tx, public or private, and on every Ack: afterwards every tuple of the
    sending peer is on record for the tx.  Broadcasting and sending a tx
    leave the map as it is; the recipient is recorded when its Ack comes
    in. *)
Theorem seen_marked_on_receipt (h : host) :
  (forall tx peer, peerMarked (onTxReceived h tx peer) peer (ID tx)) /\
  (forall encryptedTx peer,
     peerMarked (onPrivateTxReceived h encryptedTx peer) peer (TxID encryptedTx)) /\
  (forall txID peer, peerMarked (onAckReceived h txID peer) peer txID) /\
  (forall tx, peerSeenTxs (snd (broadcastTx h tx)) = peerSeenTxs h) /\
  (forall tx, peerSeenTxs (snd (SendTx h tx)) = peerSeenTxs h).
Proof.
  repeat split.
  - intros tx peer tuple Hin. unfold onTxReceived, seenBy.
    rewrite addAndAck_seen. now apply markTxSeenByPeer_marks.
  - intros etx peer tuple Hin. unfold onPrivateTxReceived, seenBy.
    pose proof (markTxSeenByPeer_marks h peer (TxID etx) tuple Hin) as Hm.
    destruct (OpenMessageFrom _ _) as [e|bs]; [exact Hm|].
    destruct (unmarshalTx bs) as [e|tx]; [exact Hm|].
    destruct (negb _); [exact Hm|]. rewrite addAndAck_seen. exact Hm.
  - intros txID peer. apply markTxSeenByPeer_marks.
  - intros tx. apply broadcastTx_frame.
  - intros tx. unfold SendTx.
    destruct (if slen (Sig tx) =? 0 then SignTx tx else (None, tx)) as [[e|] tx'];
      [reflexivity|].
    destruct (Metacontroller_AddTx (h_controller h) tx') as [[e tx''] m].
    destruct e; [reflexivity|].
    now destruct (broadcastTx_frame (setController h m) tx'') as [-> _].
Qed.

(** *** Delivering a tx twice *)













End WithEnvironment.

#[local] Existing Instance Scenario.primitives.
#[local] Existing Instance Scenario.extrinsics.
#[local] Existing Instance Scenario.network.

(** C6, as the spec has it, fails for sends: the host puts a tx to the
    subscriber [bob], and the map has nothing on [bob]. *)
Lemma put_sent_but_not_marked :
  let h := snd (broadcastTx Scenario.host0 Scenario.tx1) in
  outbox h = [(Scenario.bob, Msg_Put Scenario.tx1)] /\
  ~ peerMarked h Scenario.bob (ID Scenario.tx1).
Proof.
  split; [vm_compute; reflexivity|].
  intros Hm. destruct (Hm ("libp2p", "/ip4/10.0.0.2")) as (m & Hl & _).
  - simpl. apply list_elem_of_here.
  - vm_compute in Hl. discriminate.
Qed.


(** In that run the genesis tx is applied once: it is the only leaf, and the
    state database has it once, before the second delivery and after. *)
Example delivered_twice_applied_once :
  match hostRun
          Scenario.host0
          [TxReceived Scenario.genesis Scenario.bob; MempoolWoken EvTx Scenario.doc;
           TxReceived Scenario.genesis Scenario.bob; MempoolWoken EvTx Scenario.doc] with
  | Some h =>
      let c := controllerFor (h_controller h) Scenario.doc in
      leaves c = {[GenesisTxID]} /\ states c = [GenesisTxID] /\
      mempool c = [] /\ chMempool c = []
  | None => False
  end.
Proof. vm_compute. repeat split. Qed.

End GossipFacts.

(** ** Keypaths *)

Module KeypathFacts.

Import Tree Spec.

Lemma Push_nil_l (p : Keypath) : Push "" p = p.
Proof. reflexivity. Qed.

Lemma Push_nil_r (k : Keypath) : Push k "" = k.
Proof. destruct k; reflexivity. Qed.

Lemma Push_cons (a b : ascii) (k p : string) :
  Push (String a k) (String b p) = String a k +:+ String KeypathSeparator (String b p).
Proof. reflexivity. Qed.

Lemma length_Push (k p : Keypath) :
  p <> "" ->
  String.length (Push k p) =
    if decide (k = "") then String.length p
    else (String.length k + 1 + String.length p)%nat.
Proof.
  intros Hp. destruct k as [|a k]; [reflexivity|].
  destruct p as [|b p]; [contradiction|].
  rewrite Push_cons, Bytes.length_app. simpl. lia.
Qed.

Lemma Push_inj (k p q : Keypath) : p <> "" -> q <> "" -> Push k p = Push k q -> p = q.
Proof.
  intros Hp Hq. destruct k as [|a k]; [auto|].
  destruct p as [|b p]; [contradiction|]. destruct q as [|c q]; [contradiction|].
  rewrite !Push_cons. intros Heq. apply String.app_inj in Heq. congruence.
Qed.

Lemma length_EncodeSliceIndex (i : Z) : String.length (EncodeSliceIndex i) = 9%nat.
Proof. reflexivity. Qed.

Lemma EncodeSliceIndex_nonempty (i : Z) : EncodeSliceIndex i <> "".
Proof. discriminate. Qed.

Lemma div256_inj (x y : Z) : x / 256 = y / 256 -> x mod 256 = y mod 256 -> x = y.
Proof.
  intros Hd Hm. rewrite (Z.div_mod x 256), (Z.div_mod y 256) by lia. congruence.
Qed.

Lemma div_shift (i k : Z) : 0 <= k -> i / 2 ^ (8 * (k + 1)) = i / 2 ^ (8 * k) / 256.
Proof.
  intros Hk. rewrite Z.div_div by lia.
  replace (8 * (k + 1)) with (8 * k + 8) by lia.
  rewrite Z.pow_add_r by lia. reflexivity.
Qed.

Lemma bytes_determine (i j : Z) :
  0 <= i < 2 ^ 64 -> 0 <= j < 2 ^ 64 ->
  (forall k, 0 <= k < 8 -> (i / 2 ^ (8 * k)) mod 256 = (j / 2 ^ (8 * k)) mod 256) ->
  i = j.
Proof.
  intros Hi Hj Hb.
  assert (H8 : i / 2 ^ (8 * 8) = j / 2 ^ (8 * 8)).
  { change (8 * 8) with 64. rewrite !Z.div_small by lia. reflexivity. }
  assert (Hall : forall n : nat, (n <= 8)%nat ->
            i / 2 ^ (8 * (8 - Z.of_nat n)) = j / 2 ^ (8 * (8 - Z.of_nat n))).
  { induction n as [|n IH]; intros Hn.
    - replace (8 - Z.of_nat 0) with 8 by lia. exact H8.
    - apply div256_inj.
      + rewrite <- !div_shift by lia.
        replace (8 - Z.of_nat (S n) + 1) with (8 - Z.of_nat n) by lia.
        apply IH. lia.
      + apply Hb. lia. }
  specialize (Hall 8%nat (le_n _)). change (8 - Z.of_nat 8) with 0 in Hall.
  change (2 ^ (8 * 0)) with 1 in Hall. now rewrite !Z.div_1_r in Hall.
Qed.

Lemma be_byte_inj (i j k : Z) :
  be_byte i k = be_byte j k ->
  (i / 2 ^ (8 * k)) mod 256 = (j / 2 ^ (8 * k)) mod 256.
Proof.
  unfold be_byte. intros Heq.
  pose proof (Z.mod_pos_bound (i / 2 ^ (8 * k)) 256 ltac:(lia)) as Hi.
  pose proof (Z.mod_pos_bound (j / 2 ^ (8 * k)) 256 ltac:(lia)) as Hj.
  apply (f_equal N_of_ascii) in Heq.
  rewrite !N_ascii_embedding in Heq by lia. lia.
Qed.

Lemma EncodeSliceIndex_inj (i j : Z) :
  0 <= i < 2 ^ 64 -> 0 <= j < 2 ^ 64 ->
  EncodeSliceIndex i = EncodeSliceIndex j -> i = j.
Proof.
  intros Hi Hj Heq. unfold EncodeSliceIndex in Heq.
  injection Heq as H7 H6 H5 H4 H3 H2 H1 H0.
  apply bytes_determine; auto. intros k Hk.
  assert (Hcases : k = 0 \/ k = 1 \/ k = 2 \/ k = 3 \/ k = 4 \/ k = 5 \/ k = 6 \/ k = 7)
    by lia.
  destruct Hcases as [->|[->|[->|[->|[->|[->|[->| ->]]]]]]];
    now apply be_byte_inj.
Qed.

(** The children of [k]: [k/i] is [k/j] only for [i = j], a node below a
    child is not a child, and neither is [k]. *)
Lemma child_of_child (k rk : Keypath) (i j : Z) :
  0 <= i < 2 ^ 64 -> 0 <= j < 2 ^ 64 ->
  Push k (Push (EncodeSliceIndex i) rk) = PushIndex k j <-> rk = "" /\ i = j.
Proof.
  intros Hi Hj. unfold PushIndex. split.
  - intros Heq. apply Push_inj in Heq.
    + destruct rk as [|b rk].
      * rewrite Push_nil_r in Heq. split; [reflexivity|].
        now apply EncodeSliceIndex_inj.
      * exfalso. apply (f_equal String.length) in Heq.
        rewrite length_Push in Heq by discriminate.
        rewrite !length_EncodeSliceIndex in Heq.
        destruct (decide (EncodeSliceIndex i = "")); [discriminate|]. lia.
    + destruct rk; discriminate.
    + discriminate.
  - intros [-> ->]. now rewrite Push_nil_r.
Qed.

Lemma parent_not_child (k : Keypath) (j : Z) : Push k "" <> PushIndex k j.
Proof.
  rewrite Push_nil_r. unfold PushIndex. intros Heq.
  apply (f_equal String.length) in Heq.
  rewrite length_Push, length_EncodeSliceIndex in Heq by discriminate.
  destruct (decide (k = "")) as [->|]; simpl in Heq; lia.
Qed.

Lemma child_longer (k : Keypath) (j : Z) :
  (String.length k < String.length (PushIndex k j))%nat.
Proof.
  unfold PushIndex. rewrite length_Push, length_EncodeSliceIndex by discriminate.
  destruct (decide (k = "")) as [->|]; simpl; lia.
Qed.

(** *** The walk over a sequence *)

Lemma walkGoValue_VSlice (l : list Value) :
  walkGoValue (VSlice l) = ("", VSlice l) :: walkElems 0 l.
Proof.
  reflexivity.
Qed.

Lemma walkGoValue_head (v : Value) : exists rest, walkGoValue v = ("", v) :: rest.
Proof. destruct v; simpl; eauto. Qed.

Lemma walkElems_keys (l : list Value) :
  forall i e, e ∈ walkElems i l ->
    exists k rk, i <= k < i + llen l /\ fst e = Push (EncodeSliceIndex k) rk.
Proof.
  unfold llen. induction l as [|child rest IH]; intros i e He; [inversion He|].
  simpl in He. apply elem_of_app in He as [He|He].
  - apply list_elem_of_fmap in He as (e' & -> & _). simpl.
    exists i, (fst e'). split; [simpl; lia|reflexivity].
  - destruct (IH _ _ He) as (k & rk & Hk & Heq).
    exists k, rk. split; [simpl; lia|exact Heq].
Qed.

Lemma walkElems_children (l : list Value) :
  forall i k, i <= k < i + llen l ->
    exists v, (EncodeSliceIndex k, v) ∈ walkElems i l.
Proof.
  unfold llen. induction l as [|child rest IH]; intros i k Hk; [simpl in Hk; lia|].
  simpl. destruct (decide (k = i)) as [->|Hne].
  - exists child. apply elem_of_app. left.
    destruct (walkGoValue_head child) as (tl & ->). simpl. apply list_elem_of_here.
  - destruct (IH (i + 1) k) as (v & Hv); [simpl in Hk; lia|].
    exists v. apply elem_of_app. now right.
Qed.

End KeypathFacts.

(** ** The state tree *)

Module TreeFacts.

Import Tree Spec KeypathFacts.

(** *** Ranged [Set] *)

(** C9, amended: for every keypath, value and range, [Set] with the range is
    rejected as unsupported by a panic: it panics with [unsupported] before it
    does anything and does not return, and the receiver and the heap
    (keypaths, values, node types, slice lengths) are those of before the
    call. *)
Theorem ranged_set_rejected (t : MemoryNode) (h : Heap) (keypath : Keypath)
    (r : Range) (value : Value) :
  Set_ keypath (Some r) value t h = Panic "unsupported" t h.
Proof. reflexivity. Qed.

(** C9, as the spec has it, fails: a [Set] with a range does not return.  On
    a new node, [Set("a", &Range{0, 1}, 1)] ends in the panic [unsupported]:
    there is no error, nil or not, that it returns. *)
Lemma ranged_set_does_not_return :
  let t := fst (NewMemoryNode emptyHeap) in
  let h := snd (NewMemoryNode emptyHeap) in
  (match Set_ "a" (Some (mkRange 0 1)) (VInt 1) t h return Prop with
   | Ok _ _ _ => False
   | Panic msg _ _ => msg = "unsupported"
   end) /\
  (~ exists err t' h',
       Set_ "a" (Some (mkRange 0 1)) (VInt 1) t h = Ok err t' h').
Proof.
  split; [vm_compute; reflexivity|].
  intros (err & t' & h' & Hret). vm_compute in Hret. discriminate.
Qed.

(** *** [Exists] *)

Lemma Exists_values (t : MemoryNode) (h : Heap) (k : Keypath) :
  fst (Exists t h k) = true <->
  is_Some (valuesAt h (values t) !! Push (keypath t) k).
Proof. unfold Exists. simpl. apply bool_decide_eq_true. Qed.

(** Once [makeCopy] has run, every keypath of the node has an entry in the
    values map, whatever its node type. *)
Lemma copyEntry_values (ov : gmap string Value) (ot : gmap string NodeType)
    (os : gmap string Z) (kps : list Keypath) :
  forall acc k,
    (k ∈ kps \/ is_Some (acc.1.1 !! k)) ->
    is_Some ((foldl (copyEntry ov ot os) acc kps).1.1 !! k).
Proof.
  induction kps as [|kp kps IH]; intros [[vs ts] ss] k Hk; simpl.
  - destruct Hk as [Hk|Hk]; [inversion Hk|exact Hk].
  - apply IH. simpl.
    destruct Hk as [Hk|Hk].
    + apply elem_of_cons in Hk as [->|Hk]; [right|now left].
      rewrite lookup_insert_eq. eauto.
    + right. rewrite lookup_insert. case_decide; eauto.
Qed.

Lemma makeCopy_Ok (t : MemoryNode) (h : Heap) :
  exists n' h', makeCopy t h = Ok tt n' h'.
Proof.
  unfold makeCopy, mbind, M_bind, bind, getNode, getHeap. simpl.
  destruct (if 0 <? slen (keypath t) then _ else _) as [start end_].
  destruct (if start =? -1 then _ else _) as [start' end'].
  destruct (foldl _ _ _) as [[vs ts] ss]. simpl. eauto.
Qed.

Lemma makeCopy_values (t : MemoryNode) (h : Heap) (n' : MemoryNode) (h' : Heap) :
  makeCopy t h = Ok tt n' h' ->
  forall k, k ∈ keypaths n' -> is_Some (valuesAt h' (values n') !! k).
Proof.
  unfold makeCopy, mbind, M_bind, bind, getNode, getHeap. simpl.
  destruct (if 0 <? slen (keypath t) then _ else _) as [start end_].
  destruct (if start =? -1 then _ else _) as [start' end'].
  pose proof (copyEntry_values (valuesAt h (values t)) (nodeTypesAt h (nodeTypes t))
                (sliceLengthsAt h (sliceLengths t))
                (slice (keypaths t) start' end') (∅, ∅, ∅)) as Hc.
  destruct (foldl _ _ _) as [[vs ts] ss]. simpl in *.
  intros [= <- <-] k Hk. simpl in *.
  unfold valuesAt. simpl. rewrite lookup_insert_eq. simpl. apply Hc. now left.
Qed.

(** C10 at the failing input: [Set("a", nil, {"b": 1})] on a new node, then
    [CopyToMemory("a", nil)].  On the copy, [NodeInfo] reports a map without
    error, and [Exists] returns true. *)
Theorem exists_true_on_copied_map :
  match Scenario.copyOfA with
  | Ok (Some n, None) _ h =>
      NodeInfo n h = (NodeTypeMap, ValueTypeInvalid, 0, None) /\
      Exists n h "" = (true, None)
  | _ => False
  end.
Proof. vm_compute. split; reflexivity. Qed.

(** On the node that was copied, the same keypath has no value. *)
Example exists_false_on_original_map :
  Exists (resNode Scenario.mapAtA) (resHeap Scenario.mapAtA) "a" = (false, None).
Proof. vm_compute. reflexivity. Qed.

(** *** Copy-on-write *)

Lemma sameBelow_refl (base : loc) (h : Heap) : sameBelow base h h.
Proof. intros l Hl. auto. Qed.

Lemma sameBelow_trans (base : loc) (h1 h2 h3 : Heap) :
  sameBelow base h1 h2 -> sameBelow base h2 h3 -> sameBelow base h1 h3.
Proof.
  intros H12 H23 l Hl. destruct (H12 l Hl) as (? & ? & ? & ?).
  destruct (H23 l Hl) as (? & ? & ? & ?). repeat split; congruence.
Qed.

Lemma sameBelow_setValuesAt base h l m :
  (base <= l)%nat -> sameBelow base h (setValuesAt h l m).
Proof.
  intros Hl l' Hl'. simpl. repeat split. apply lookup_insert_ne. lia.
Qed.

Lemma sameBelow_setNodeTypesAt base h l m :
  (base <= l)%nat -> sameBelow base h (setNodeTypesAt h l m).
Proof.
  intros Hl l' Hl'. simpl. repeat split. apply lookup_insert_ne. lia.
Qed.

Lemma sameBelow_setSliceLengthsAt base h l m :
  (base <= l)%nat -> sameBelow base h (setSliceLengthsAt h l m).
Proof.
  intros Hl l' Hl'. simpl. repeat split. apply lookup_insert_ne. lia.
Qed.

Lemma sameBelow_setDiffAt base h l d :
  (base <= l)%nat -> sameBelow base h (setDiffAt h l d).
Proof.
  intros Hl l' Hl'. simpl. repeat split. apply lookup_insert_ne. lia.
Qed.

Lemma framed_Ok {A : Type} (base : loc) (h : Heap) (a : A) (n : MemoryNode) :
  ownsFrom base n -> (base <= h_next h)%nat -> framed base h (Ok a n h).
Proof.
  intros Hn Hh. split; [exact Hn|]. split; [exact Hh|apply sameBelow_refl].
Qed.

Lemma framed_Panic {A : Type} (base : loc) (h : Heap) (msg : string)
    (n : MemoryNode) :
  ownsFrom base n -> (base <= h_next h)%nat -> framed base h (@Panic A msg n h).
Proof.
  intros Hn Hh. split; [exact Hn|]. split; [exact Hh|apply sameBelow_refl].
Qed.

Lemma framed_step {A : Type} (base : loc) (h h' : Heap) (r : Res A) :
  sameBelow base h h' -> framed base h' r -> framed base h r.
Proof.
  intros Hs (Ho & Hn & Hs'). split; [exact Ho|]. split; [exact Hn|].
  eapply sameBelow_trans; eauto.
Qed.

Lemma framed_bind {A B : Type} (base : loc) (m : M A) (f : A -> M B)
    (n : MemoryNode) (h : Heap) :
  framed base h (m n h) ->
  (forall a n' h', m n h = Ok a n' h' -> ownsFrom base n' ->
                   (base <= h_next h')%nat -> framed base h' (f a n' h')) ->
  framed base h ((m ≫= f) n h).
Proof.
  intros Hm Hf. unfold mbind, M_bind, bind.
  destruct (m n h) as [a n' h'|msg n' h'] eqn:Hr.
  - destruct Hm as (Ho & Hn & Hs). simpl in *.
    eapply framed_step; [exact Hs|]. now apply Hf.
  - exact Hm.
Qed.

Create HintDb frame.

#[local] Hint Resolve sameBelow_refl sameBelow_setValuesAt sameBelow_setNodeTypesAt
  sameBelow_setSliceLengthsAt sameBelow_setDiffAt : frame.

(** The statements on the receiver's maps. *)
Lemma framed_write (base : loc) (n : MemoryNode) (h : Heap) (m : M unit) :
  ownsFrom base n -> (base <= h_next h)%nat ->
  (exists k nt, m = setNodeType k nt) \/ (exists k len, m = setSliceLength k len) \/
  (exists k v, m = setValue k v) \/ (exists k, m = deleteNodeType k) \/
  (exists k, m = deleteSliceLength k) \/ (exists k, m = deleteValue k) ->
  framed base h (m n h).
Proof.
  intros Ho Hh Hm. destruct Ho as (Hv & Ht & Hs & Hd).
  destruct Hm as [(k & x & ->)|[(k & x & ->)|[(k & x & ->)|[(k & ->)|[(k & ->)|(k & ->)]]]]];
    (split; [repeat split; assumption|split; [exact Hh|]]); simpl;
    auto with frame.
Qed.

Lemma framed_makeCopy (base : loc) (n : MemoryNode) (h : Heap) :
  (base <= h_next h)%nat -> framed base h (makeCopy n h).
Proof.
  intros Hh. unfold makeCopy, mbind, M_bind, bind, getNode, getHeap. simpl.
  destruct (if 0 <? slen (keypath n) then _ else _) as [start end_].
  destruct (if start =? -1 then _ else _) as [start' end'].
  destruct (foldl _ _ _) as [[vs ts] ss]. simpl.
  split; [repeat split; simpl; lia|]. split; [simpl; lia|].
  intros l Hl. simpl. repeat split; rewrite lookup_insert_ne by lia; reflexivity.
Qed.

Lemma framed_checkCopied (base : loc) (n : MemoryNode) (h : Heap) :
  ownsFrom base n -> (base <= h_next h)%nat -> framed base h (checkCopied n h).
Proof.
  intros Ho Hh. unfold checkCopied, mbind, M_bind, bind, getNode. simpl.
  destruct (copied n); simpl; [now apply framed_makeCopy|now apply framed_Ok].
Qed.

Lemma framed_resolveRange (base : loc) (rng : option Range) (n : MemoryNode)
    (h : Heap) :
  ownsFrom base n -> (base <= h_next h)%nat ->
  framed base h (resolveRange rng n h).
Proof.
  intros Ho Hh. unfold resolveRange, mbind, M_bind, bind, getNode. simpl.
  destruct rng, (Tree.rng n); simpl;
    first [now apply framed_Ok|now apply framed_Panic].
Qed.

Lemma framed_addKeypaths (base : loc) (new : list Keypath) (n : MemoryNode)
    (h : Heap) :
  ownsFrom base n -> (base <= h_next h)%nat ->
  framed base h (addKeypaths new n h).
Proof.
  intros Ho Hh. unfold addKeypaths.
  destruct (sortKeypaths new); simpl; now apply framed_Ok.
Qed.

Lemma framed_scanList {Acc : Type}
    (fn : Acc -> Keypath -> Z -> M (option error * Acc)) (base : loc)
    (prefix : Keypath) (l : list Keypath) :
  (forall acc kp i n h, ownsFrom base n -> (base <= h_next h)%nat ->
                        framed base h (fn acc kp i n h)) ->
  forall found i acc n h, ownsFrom base n -> (base <= h_next h)%nat ->
    framed base h (scanList fn prefix found i l acc n h).
Proof.
  intros Hfn. induction l as [|kp l IH]; intros found i acc n h Ho Hh; simpl.
  - now apply framed_Ok.
  - destruct (StartsWith kp prefix).
    + apply framed_bind; [now apply Hfn|].
      intros [e acc'] n' h' _ Ho' Hh'. simpl.
      destruct e; [now apply framed_Ok|now apply IH].
    + destruct found; [now apply framed_Ok|now apply IH].
Qed.

Lemma framed_scanIndices {Acc : Type}
    (fn : Acc -> Keypath -> Z -> M (option error * Acc)) (base : loc)
    (count : nat) :
  (forall acc kp i n h, ownsFrom base n -> (base <= h_next h)%nat ->
                        framed base h (fn acc kp i n h)) ->
  forall i acc n h, ownsFrom base n -> (base <= h_next h)%nat ->
    framed base h (scanIndices fn i count acc n h).
Proof.
  intros Hfn. induction count as [|count IH]; intros i acc n h Ho Hh; simpl.
  - now apply framed_Ok.
  - unfold mbind at 1, M_bind at 1, bind at 1, getNode. simpl.
    destruct (keypaths n !! Z.to_nat i) as [kp|]; [|now apply framed_Panic].
    apply framed_bind; [now apply Hfn|].
    intros [e acc'] n' h' _ Ho' Hh'. simpl.
    destruct e; [now apply framed_Ok|now apply IH].
Qed.

Lemma framed_scanKeypathsWithPrefix {Acc : Type}
    (fn : Acc -> Keypath -> Z -> M (option error * Acc)) (base : loc)
    (prefix : Keypath) (rng : option Range) (acc : Acc) (n : MemoryNode)
    (h : Heap) :
  (forall acc kp i n h, ownsFrom base n -> (base <= h_next h)%nat ->
                        framed base h (fn acc kp i n h)) ->
  ownsFrom base n -> (base <= h_next h)%nat ->
  framed base h (scanKeypathsWithPrefix prefix rng fn acc n h).
Proof.
  intros Hfn Ho Hh. unfold scanKeypathsWithPrefix.
  unfold mbind at 1 2, M_bind at 1 2, bind at 1 2, getNode, getHeap. simpl.
  destruct rng as [r|]; [|now apply framed_scanList].
  destruct (negb _); [now apply framed_Ok|].
  unfold Range_IndicesForLength.
  destruct (_ =? -1); [now apply framed_Ok|].
  destruct (_ =? -1); [now apply framed_Panic|].
  now apply framed_scanIndices.
Qed.

Lemma framed_deleteVisited (base : loc) (acc : Z * Z) (kp : Keypath) (i : Z)
    (n : MemoryNode) (h : Heap) :
  ownsFrom base n -> (base <= h_next h)%nat ->
  framed base h (deleteVisited acc kp i n h).
Proof.
  intros Ho Hh. unfold deleteVisited. destruct acc as [startIdx stopIdx].
  apply framed_bind; [apply framed_write; eauto 10|].
  intros _ n1 h1 _ Ho1 Hh1.
  apply framed_bind; [apply framed_write; eauto 10|].
  intros _ n2 h2 _ Ho2 Hh2.
  apply framed_bind; [apply framed_write; eauto 10|].
  intros _ n3 h3 _ Ho3 Hh3. now apply framed_Ok.
Qed.

Lemma framed_removeScanned (base : loc) (absKeypath : Keypath)
    (rng : option Range) (n : MemoryNode) (h : Heap) :
  ownsFrom base n -> (base <= h_next h)%nat ->
  framed base h (removeScanned absKeypath rng n h).
Proof.
  intros Ho Hh. unfold removeScanned.
  apply framed_bind.
  { apply framed_scanKeypathsWithPrefix; auto. intros. now apply framed_deleteVisited. }
  intros [e [startIdx stopIdx]] n1 h1 _ Ho1 Hh1. simpl.
  unfold mbind, M_bind, bind, getNode, getHeap, putNode, putHeap, mret, M_ret, ret.
  destruct Ho1 as (Hv & Ht & Hs & Hd).
  destruct (-1 <? startIdx); simpl;
    (split; [repeat split; assumption|split; [exact Hh1|]]); simpl;
    auto with frame.
Qed.

Lemma framed_Delete (base : loc) (keypath : Keypath) (rng : option Range)
    (n : MemoryNode) (h : Heap) :
  ownsFrom base n -> (base <= h_next h)%nat ->
  framed base h (Delete keypath rng n h).
Proof.
  intros Ho Hh. unfold Delete.
  apply framed_bind; [now apply framed_resolveRange|].
  intros rng' n1 h1 _ Ho1 Hh1.
  destruct (rangeInvalid rng'); [now apply framed_Ok|].
  apply framed_bind; [now apply framed_checkCopied|].
  intros _ n2 h2 _ Ho2 Hh2.
  unfold mbind at 1 2, M_bind at 1 2, bind at 1 2, getNode, getHeap. simpl.
  destruct rng' as [r|].
  - destruct (negb (Range_Valid r)); [now apply framed_Ok|].
    destruct (nodeTypeOf h2 n2 _); try now apply framed_Ok.
    + destruct (valueOf h2 n2 _); try now apply framed_Ok.
      destruct (negb _); [now apply framed_Ok|].
      unfold Range_IndicesForLength.
      apply framed_bind; [apply framed_write; eauto 10|].
      intros _ n3 h3 _ Ho3 Hh3. now apply framed_Ok.
    + apply framed_bind; [apply framed_write; eauto 10|].
      intros _ n3 h3 _ Ho3 Hh3. now apply framed_removeScanned.
  - apply framed_bind; [apply framed_write; eauto 10|].
    intros _ n3 h3 _ Ho3 Hh3. now apply framed_removeScanned.
Qed.

Lemma framed_setAncestors (base : loc) (keypath absKeypath : Keypath)
    (parts : list Keypath) :
  forall i byteIdx newKeypaths n h,
    ownsFrom base n -> (base <= h_next h)%nat ->
    framed base h (setAncestors keypath absKeypath parts i byteIdx newKeypaths n h).
Proof.
  induction parts as [|key parts IH]; intros i byteIdx newKeypaths n h Ho Hh;
    simpl; [now apply framed_Ok|].
  unfold mbind at 1 2, M_bind at 1 2, bind at 1 2, getNode, getHeap. simpl.
  apply framed_bind.
  - case_bool_decide.
    + apply framed_bind; [apply framed_write; eauto 10|].
      intros _ n1 h1 _ Ho1 Hh1. now apply framed_Ok.
    + case_bool_decide; simpl; [now apply framed_Ok|].
      apply framed_bind; [now apply framed_Delete|].
      intros e n1 h1 _ Ho1 Hh1. destruct e; [now apply framed_Ok|].
      apply framed_bind; [apply framed_write; eauto 10|].
      intros _ n2 h2 _ Ho2 Hh2. now apply framed_Ok.
  - intros e n1 h1 _ Ho1 Hh1. destruct e; [now apply framed_Ok|now apply IH].
Qed.

Lemma framed_setWalked (base : loc) (absKeypath : Keypath) (e : Keypath * Value)
    (n : MemoryNode) (h : Heap) :
  ownsFrom base n -> (base <= h_next h)%nat ->
  framed base h (setWalked absKeypath e n h).
Proof.
  intros Ho Hh. unfold setWalked.
  destruct (snd e);
    try (apply framed_bind; [apply framed_write; eauto 10|];
         intros _ n1 h1 _ Ho1 Hh1);
    apply framed_write; eauto 10.
Qed.

Lemma framed_forEachM {A : Type} (base : loc) (f : A -> M unit) (l : list A) :
  (forall a n h, ownsFrom base n -> (base <= h_next h)%nat ->
                 framed base h (f a n h)) ->
  forall n h, ownsFrom base n -> (base <= h_next h)%nat ->
              framed base h (forEachM f l n h).
Proof.
  intros Hf. induction l as [|a l IH]; intros n h Ho Hh; simpl.
  - now apply framed_Ok.
  - apply framed_bind; [now apply Hf|]. intros _ n1 h1 _ Ho1 Hh1. now apply IH.
Qed.

Lemma framed_Set (base : loc) (keypath : Keypath) (rng : option Range)
    (value : Value) (n : MemoryNode) (h : Heap) :
  ownsFrom base n -> (base <= h_next h)%nat ->
  framed base h (Set_ keypath rng value n h).
Proof.
  intros Ho Hh. unfold Set_. destruct rng; [now apply framed_Panic|].
  apply framed_bind; [now apply framed_checkCopied|].
  intros _ n1 h1 _ Ho1 Hh1.
  apply framed_bind; [now apply framed_Delete|].
  intros e n2 h2 _ Ho2 Hh2. destruct e; [now apply framed_Ok|].
  unfold mbind at 1, M_bind at 1, bind at 1, getNode. simpl.
  apply framed_bind; [now apply framed_setAncestors|].
  intros [e new] n3 h3 _ Ho3 Hh3. simpl. destruct e; [now apply framed_Ok|].
  apply framed_bind.
  { apply framed_forEachM; auto. intros. now apply framed_setWalked. }
  intros _ n4 h4 _ Ho4 Hh4.
  unfold mbind at 1 2 3, M_bind at 1 2 3, bind at 1 2 3, getNode, getHeap, putHeap.
  simpl.
  eapply framed_step; [apply sameBelow_setDiffAt; apply Ho4|].
  apply framed_bind; [now apply framed_addKeypaths|].
  intros _ n5 h5 _ Ho5 Hh5. now apply framed_Ok.
Qed.

Lemma framed_mutateAll (base : loc) (ms : list Mutation) :
  forall n h, ownsFrom base n -> (base <= h_next h)%nat ->
              framed base h (mutateAll ms n h).
Proof.
  induction ms as [|m ms IH]; intros n h Ho Hh; simpl.
  - now apply framed_Ok.
  - apply framed_bind; [|intros _ n1 h1 _ Ho1 Hh1; now apply IH].
    destruct m; simpl; [now apply framed_Set|now apply framed_Delete].
Qed.

Lemma resolveRange_Ok (rng r : option Range) (t t1 : MemoryNode) (h h1 : Heap) :
  resolveRange rng t h = Ok r t1 h1 -> t1 = t /\ h1 = h.
Proof.
  unfold resolveRange, mbind, M_bind, bind, getNode, mret, M_ret, ret, panic.
  destruct rng, (Tree.rng t); intros [=]; auto.
Qed.

(** [CopyToMemory] leaves the receiver and the heap it found in place, and
    returns a node on maps of its own. *)
Lemma CopyToMemory_fresh (keypath : Keypath) (rng : option Range)
    (t : MemoryNode) (h : Heap) (n t' : MemoryNode) (h1 : Heap) :
  CopyToMemory keypath rng t h = Ok (Some n, None) t' h1 ->
  t' = t /\ ownsFrom (h_next h) n /\ (h_next h <= h_next h1)%nat /\
  sameBelow (h_next h) h h1.
Proof.
  unfold CopyToMemory. unfold mbind at 1, M_bind at 1, bind at 1.
  destruct (resolveRange rng t h) as [rng' t1 h1'|] eqn:Hr; [|discriminate].
  apply resolveRange_Ok in Hr as [-> ->].
  destruct (rangeInvalid rng'); [discriminate|].
  unfold mbind, M_bind, bind, getNode, getHeap, putHeap, mret, M_ret, ret, panic.
  match goal with
  | |- context [makeCopy ?cpy h] =>
      pose proof (framed_makeCopy (h_next h) cpy h (Nat.le_refl _)) as Hf;
      destruct (makeCopy cpy h) as [[] cpy' h'|msg cpy' h']
  end; [|discriminate].
  intros [= <- <- <-]. destruct Hf as (Ho & Hn & Hs). simpl in *. auto.
Qed.

(** C8: after [n = t.CopyToMemory(K, nil)] has succeeded, no run of [Set] and
    [Delete] calls on [n], whether the calls return, fail or panic, changes
    the values, node types, slice lengths or diff that [t] reads. *)
Theorem copy_isolated (t : MemoryNode) (h : Heap) (K : Keypath)
    (n t' : MemoryNode) (h1 : Heap) (ms : list Mutation) :
  allocated h t ->
  CopyToMemory K None t h = Ok (Some n, None) t' h1 ->
  t' = t /\
  readable (resHeap (mutateAll ms n h1)) t = readable h t.
Proof.
  intros (Hv & Ht & Hs & Hd) Hcopy.
  apply CopyToMemory_fresh in Hcopy as (-> & Ho & Hn & Hsame).
  split; [reflexivity|].
  destruct (framed_mutateAll (h_next h) ms n h1 Ho Hn) as (_ & _ & Hsame').
  pose proof (sameBelow_trans _ _ _ _ Hsame Hsame') as Hall.
  unfold readable.
  destruct (Hall _ Hv) as (-> & _). destruct (Hall _ Ht) as (_ & -> & _).
  destruct (Hall _ Hs) as (_ & _ & -> & _). destruct (Hall _ Hd) as (_ & _ & _ & ->).
  reflexivity.
Qed.

(** The map at [a] is copied; on the copy, [a/b] is set anew and [a] is
    deleted. *)
Lemma copy_isolated_witness :
  let t := resNode Scenario.mapAtA in
  let h := resHeap Scenario.mapAtA in
  match Scenario.copyOfA with
  | Ok (Some n, None) t' h1 =>
      t' = t /\
      readable (resHeap (mutateAll [MSet "b" None (VInt 2); MDelete "" None] n h1)) t
      = readable h t
  | _ => False
  end.
Proof.
  intros t h.
  assert (Hshape : match Scenario.copyOfA with
                   | Ok (Some _, None) _ _ => true
                   | _ => false
                   end = true) by (vm_compute; reflexivity).
  destruct Scenario.copyOfA as [[[n|] [e|]] t' h1|] eqn:Hcopy; try discriminate.
  apply (copy_isolated t h "a" n t' h1).
  - unfold allocated, t, h. vm_compute. repeat split; repeat constructor.
  - exact Hcopy.
Defined.

(** In that run the copy does change: its map at [a] is gone, while the
    node that was copied still has [a/b = 1]. *)
Example copy_diverges :
  match Scenario.copyOfA with
  | Ok (Some n, None) t h1 =>
      let r := mutateAll [MSet "b" None (VInt 2); MDelete "" None] n h1 in
      valueOf (resHeap r) (resNode r) "a/b" = VNil /\
      keypaths (resNode r) = [""] /\
      valueOf (resHeap r) t "a/b" = VInt 1 /\
      nodeTypeOf (resHeap r) t "a" = NodeTypeMap
  | _ => False
  end.
Proof. vm_compute. repeat split. Qed.

(** *** Slices and their children *)

Lemma bind_Ok {A B : Type} (m : M A) (f : A -> M B) (n n' : MemoryNode)
    (h h' : Heap) (a : A) :
  m n h = Ok a n' h' -> (m ≫= f) n h = f a n' h'.
Proof. intros Hm. unfold mbind, M_bind, bind. now rewrite Hm. Qed.

(** On a node without keypaths there is nothing to delete. *)
Lemma Delete_nothing (K : Keypath) (n : MemoryNode) (h : Heap) :
  keypaths n = [] -> rng n = None -> copied n = false ->
  exists h', Delete K None n h = Ok None n h' /\
             nodeTypesAt h' (nodeTypes n) = nodeTypesAt h (nodeTypes n) /\
             sliceLengthsAt h' (sliceLengths n) =
               delete (Push (keypath n) K) (sliceLengthsAt h (sliceLengths n)).
Proof.
  destruct n as [kp r kps lv lt ls cp ld]. simpl. intros -> -> ->.
  unfold Delete, resolveRange, checkCopied, removeScanned,
    scanKeypathsWithPrefix, deleteSliceLength, mbind, M_bind, bind, mret, M_ret,
    ret, getNode, getHeap, putNode, putHeap. simpl.
  eexists. split; [reflexivity|]. split; [reflexivity|].
  unfold sliceLengthsAt. simpl. now rewrite lookup_insert_eq.
Qed.

(** On a tree in which every node is a map, the loop over the ancestors only
    adds maps, at keypaths no longer than the one that is set. *)
Lemma setAncestors_maps (K absKeypath : Keypath) (parts : list Keypath) :
  forall i byteIdx newKeypaths n h,
    ancestorsOnly absKeypath (nodeTypesAt h (nodeTypes n)) ->
    exists newKeypaths' h',
      setAncestors K absKeypath parts i byteIdx newKeypaths n h
        = Ok (None, newKeypaths') n h' /\
      ancestorsOnly absKeypath (nodeTypesAt h' (nodeTypes n)) /\
      sliceLengthsAt h' (sliceLengths n) = sliceLengthsAt h (sliceLengths n).
Proof.
  induction parts as [|key parts IH]; intros i byteIdx new n h Hanc; simpl.
  - eauto.
  - unfold mbind at 1 2, M_bind at 1 2, bind at 1 2, getNode, getHeap. simpl.
    set (partialKeypath :=
           if byteIdx + slen key =? 0 then ""
           else ssub absKeypath 0 (byteIdx + slen key)).
    assert (Hshort : (String.length partialKeypath <= String.length absKeypath)%nat).
    { unfold partialKeypath. destruct (_ =? 0); [simpl; lia|].
      apply Bytes.length_substring_le. }
    unfold nodeTypeOf.
    destruct (nodeTypesAt h (nodeTypes n) !! partialKeypath) as [nt|] eqn:Hl; simpl.
    + destruct (Hanc _ _ Hl) as [-> _]. simpl.
      unfold mbind at 1, M_bind at 1, bind at 1, mret, M_ret, ret. simpl.
      apply IH. exact Hanc.
    + unfold mbind at 1 2, M_bind at 1 2, bind at 1 2, mret, M_ret, ret,
        setNodeType. simpl.
      destruct (IH (i + 1) (if i =? 0 then byteIdx + slen key
                            else byteIdx + slen key + 1)
                  (new ++ [partialKeypath]) n
                  (setNodeTypesAt h (nodeTypes n)
                     (<[partialKeypath := NodeTypeMap]>
                        (nodeTypesAt h (nodeTypes n)))))
        as (new' & h' & Heq & Hanc' & Hsl).
      * unfold nodeTypesAt at 1. simpl. rewrite lookup_insert_eq. simpl.
        intros k nt Hk. rewrite lookup_insert in Hk. case_decide.
        -- injection Hk as <-. subst k. auto.
        -- now apply Hanc.
      * exists new', h'. split; [exact Heq|]. split; [exact Hanc'|].
        rewrite Hsl. reflexivity.
Qed.

(** What the walk writes. *)
Lemma forEachM_setWalked (absKeypath : Keypath) (walked : list (Keypath * Value)) :
  forall n h,
    exists h', forEachM (setWalked absKeypath) walked n h = Ok tt n h' /\
      nodeTypesAt h' (nodeTypes n) =
        walkedTypes absKeypath (nodeTypesAt h (nodeTypes n)) walked /\
      sliceLengthsAt h' (sliceLengths n) =
        walkedLengths absKeypath (sliceLengthsAt h (sliceLengths n)) walked.
Proof.
  induction walked as [|e walked IH]; intros n h; simpl; [eauto|].
  assert (Hstep : exists h1, setWalked absKeypath e n h = Ok tt n h1 /\
            nodeTypesAt h1 (nodeTypes n) =
              <[Push absKeypath (fst e) := typeOfValue (snd e)]>
                (nodeTypesAt h (nodeTypes n)) /\
            sliceLengthsAt h1 (sliceLengths n) =
              match snd e with
              | VSlice l => <[Push absKeypath (fst e) := llen l]>
                              (sliceLengthsAt h (sliceLengths n))
              | _ => sliceLengthsAt h (sliceLengths n)
              end).
  { unfold setWalked. destruct (snd e); simpl;
      (eexists; split; [reflexivity|]; split;
       [unfold nodeTypesAt; simpl; now rewrite lookup_insert_eq
       |try reflexivity; unfold sliceLengthsAt; simpl; now rewrite lookup_insert_eq]). }
  destruct Hstep as (h1 & Heq & Hnt & Hsl).
  destruct (IH n h1) as (h' & Heq' & Hnt' & Hsl').
  exists h'. split; [now rewrite (bind_Ok _ _ _ _ _ _ _ Heq)|].
  unfold walkedTypes, walkedLengths in *. simpl.
  rewrite Hnt', Hnt, Hsl', Hsl. auto.
Qed.

Lemma walkedTypes_other (absKeypath k : Keypath) (walked : list (Keypath * Value)) :
  forall m, (forall e, e ∈ walked -> Push absKeypath (fst e) <> k) ->
            walkedTypes absKeypath m walked !! k = m !! k.
Proof.
  unfold walkedTypes. induction walked as [|e walked IH]; intros m Hne; simpl;
    [reflexivity|].
  rewrite IH by (intros e' He'; apply Hne; now right).
  apply lookup_insert_ne, Hne. now left.
Qed.

Lemma walkedLengths_other (absKeypath k : Keypath) (walked : list (Keypath * Value)) :
  forall m, (forall e, e ∈ walked -> Push absKeypath (fst e) <> k) ->
            walkedLengths absKeypath m walked !! k = m !! k.
Proof.
  unfold walkedLengths. induction walked as [|e walked IH]; intros m Hne; simpl;
    [reflexivity|].
  rewrite IH by (intros e' He'; apply Hne; now right).
  destruct (snd e); try reflexivity.
  apply lookup_insert_ne, Hne. now left.
Qed.

Lemma walkedTypes_from (absKeypath k : Keypath) (walked : list (Keypath * Value)) :
  forall m nt, walkedTypes absKeypath m walked !! k = Some nt ->
    m !! k = Some nt \/
    exists e, e ∈ walked /\ Push absKeypath (fst e) = k /\ nt = typeOfValue (snd e).
Proof.
  unfold walkedTypes. induction walked as [|e walked IH]; intros m nt Hl; simpl in *;
    [now left|].
  apply IH in Hl as [Hl|(e' & He' & Hk & Hnt)].
  - rewrite lookup_insert in Hl. case_decide.
    + injection Hl as <-. right. exists e. split; [now left|auto].
    + now left.
  - right. exists e'. split; [now right|auto].
Qed.

Lemma walkedTypes_keeps (absKeypath k : Keypath) (walked : list (Keypath * Value)) :
  forall m, (exists v, m !! k = Some (typeOfValue v)) ->
            exists v, walkedTypes absKeypath m walked !! k = Some (typeOfValue v).
Proof.
  unfold walkedTypes. induction walked as [|e walked IH]; intros m Hm; simpl;
    [exact Hm|].
  apply IH. rewrite lookup_insert. case_decide; eauto.
Qed.

Lemma walkedTypes_written (absKeypath k : Keypath) (walked : list (Keypath * Value)) :
  forall m, (exists e, e ∈ walked /\ Push absKeypath (fst e) = k) ->
            exists v, walkedTypes absKeypath m walked !! k = Some (typeOfValue v).
Proof.
  induction walked as [|e walked IH]; intros m (e' & He' & Hk);
    [inversion He'|].
  apply elem_of_cons in He' as [->|He'].
  - unfold walkedTypes. simpl. apply walkedTypes_keeps.
    rewrite Hk, lookup_insert_eq. eauto.
  - unfold walkedTypes. simpl. apply IH. eauto.
Qed.

Lemma walkedTypes_root (K : Keypath) (m : gmap string NodeType) (l : list Value)
    (walked : list (Keypath * Value)) :
  walkedTypes K m (("", VSlice l) :: walked) =
  walkedTypes K (<[K := NodeTypeSlice]> m) walked.
Proof. unfold walkedTypes. simpl. now rewrite Push_nil_r. Qed.

Lemma walkedLengths_root (K : Keypath) (m : gmap string Z) (l : list Value)
    (walked : list (Keypath * Value)) :
  walkedLengths K m (("", VSlice l) :: walked) =
  walkedLengths K (<[K := llen l]> m) walked.
Proof. unfold walkedLengths. simpl. now rewrite Push_nil_r. Qed.

Lemma typeOfValue_valid (v : Value) : typeOfValue v <> NodeTypeInvalid.
Proof. destruct v; discriminate. Qed.

(** C4, as the code has it: [Set(K, nil, seq)] on a new node returns without
    error; afterwards [K] is a slice whose recorded length is the length of
    [seq], and among the keypaths [K/j] exactly those with [j] below that
    length exist.  ([Delete] does not keep this up: see below.) *)
Theorem set_sequence_children (h0 : Heap) (K : Keypath) (seq : list Value) :
  llen seq < 2 ^ 64 ->
  exists t' h',
    Set_ K None (VSlice seq) (fst (NewMemoryNode h0)) (snd (NewMemoryNode h0))
      = Ok None t' h' /\
    nodeTypeOf h' t' K = NodeTypeSlice /\
    sliceLengthOf h' t' K = llen seq /\
    forall j, 0 <= j < 2 ^ 64 -> (existsAt h' t' (PushIndex K j) <-> j < llen seq).
Proof.
  intros Hlen.
  set (t0 := fst (NewMemoryNode h0)). set (h := snd (NewMemoryNode h0)).
  assert (Ht0 : keypaths t0 = [] /\ rng t0 = None /\ copied t0 = false /\
                keypath t0 = "") by (repeat split).
  destruct Ht0 as (Hkps & Hrng & Hcp & Hkp).
  assert (Hnt0 : nodeTypesAt h (nodeTypes t0) = ∅).
  { unfold nodeTypesAt, h, t0. simpl. now rewrite lookup_insert_eq. }
  assert (Hsl0 : sliceLengthsAt h (sliceLengths t0) = ∅).
  { unfold sliceLengthsAt, h, t0. simpl. now rewrite lookup_insert_eq. }
  destruct (Delete_nothing K t0 h Hkps Hrng Hcp) as (h1 & Hdel & Hnt1 & Hsl1).
  rewrite Hkp, Push_nil_l in Hsl1.
  destruct (setAncestors_maps K K (removelast ("" :: Parts K)) 0 0 [] t0 h1)
    as (new & h2 & Hanc & Hnt2 & Hsl2).
  { rewrite Hnt1, Hnt0. intros k nt Hk. rewrite lookup_empty in Hk. discriminate. }
  destruct (forEachM_setWalked K (walkGoValue (VSlice seq)) t0 h2)
    as (h3 & Hwalk & Hnt3 & Hsl3).
  rewrite walkGoValue_VSlice in Hnt3, Hsl3.
  (* the run *)
  assert (Hrun : exists t' h',
            Set_ K None (VSlice seq) t0 h = Ok None t' h' /\
            nodeTypes t' = nodeTypes t0 /\ sliceLengths t' = sliceLengths t0 /\
            nodeTypesAt h' (nodeTypes t0) = nodeTypesAt h3 (nodeTypes t0) /\
            sliceLengthsAt h' (sliceLengths t0) = sliceLengthsAt h3 (sliceLengths t0)).
  { unfold Set_.
    assert (Hcc : checkCopied t0 h = Ok tt t0 h) by reflexivity.
    rewrite (bind_Ok _ _ _ _ _ _ _ Hcc).
    rewrite (bind_Ok _ _ _ _ _ _ _ Hdel).
    unfold mbind at 1, M_bind at 1, bind at 1, getNode.
    rewrite Hkp, Push_nil_l.
    rewrite (bind_Ok _ _ _ _ _ _ _ Hanc). cbn [fst snd].
    rewrite (bind_Ok _ _ _ _ _ _ _ Hwalk).
    unfold mbind at 1 2 3, M_bind at 1 2 3, bind at 1 2 3, getNode, getHeap, putHeap.
    unfold addKeypaths.
    destruct (sortKeypaths _) as [|first sorted]; simpl;
      eexists _, _; (split; [reflexivity|]); simpl; auto. }
  destruct Hrun as (t' & h' & Hset & Hlt & Hls & Hnt' & Hsl').
  exists t', h'. split; [exact Hset|].
  (* the entries below the root are not at K *)
  assert (Hbelow : forall e, e ∈ walkElems 0 seq -> Push K (fst e) <> K).
  { intros e He Heq. destruct (walkElems_keys _ _ _ He) as (k & rk & _ & Hk).
    apply (f_equal String.length) in Heq. rewrite Hk in Heq.
    assert (Hne : Push (EncodeSliceIndex k) rk <> "").
    { destruct rk; discriminate. }
    rewrite length_Push in Heq by exact Hne.
    assert (Hpos : (0 < String.length (Push (EncodeSliceIndex k) rk))%nat).
    { destruct (Push (EncodeSliceIndex k) rk); [contradiction|simpl; lia]. }
    destruct (decide (K = "")) as [->|]; simpl in Heq; lia. }
  unfold nodeTypeOf, sliceLengthOf, existsAt, nodeTypeOf.
  rewrite Hlt, Hls, Hnt', Hsl', Hnt3, Hsl3.
  rewrite walkedTypes_root, walkedLengths_root.
  split; [|split].
  - rewrite walkedTypes_other by exact Hbelow. now rewrite lookup_insert_eq.
  - rewrite walkedLengths_other by exact Hbelow. now rewrite lookup_insert_eq.
  - intros j Hj. split.
    + intros Hex.
      destruct (walkedTypes K _ (walkElems 0 seq) !! PushIndex K j) as [nt|] eqn:Hl;
        [|now contradiction Hex].
      apply walkedTypes_from in Hl as [Hl|(e & He & Hk & _)].
      * rewrite lookup_insert in Hl. case_decide as Heq.
        -- exfalso. pose proof (child_longer K j) as Hlong.
           rewrite <- Heq in Hlong. lia.
        -- apply Hnt2 in Hl as [_ Hshort].
           pose proof (child_longer K j). lia.
      * destruct (walkElems_keys _ _ _ He) as (k & rk & Hkr & Hfst).
        rewrite Hfst in Hk. apply child_of_child in Hk as [_ <-]; lia.
    + intros Hlt'.
      destruct (walkElems_children seq 0 j) as (v & Hv); [lia|].
      destruct (walkedTypes_written K (PushIndex K j) (walkElems 0 seq)
                  (<[K := NodeTypeSlice]> (nodeTypesAt h2 (nodeTypes t0))))
        as (v' & ->).
      { exists (EncodeSliceIndex j, v). split; [exact Hv|reflexivity]. }
      simpl. apply typeOfValue_valid.
Qed.

(** [Set("msgs", nil, ["a","b","c"])] on a new node. *)
Lemma set_sequence_children_witness :
  exists t' h',
    Set_ "msgs" None (VSlice [VString "a"; VString "b"; VString "c"])
      (fst (NewMemoryNode emptyHeap)) (snd (NewMemoryNode emptyHeap))
      = Ok None t' h' /\
    nodeTypeOf h' t' "msgs" = NodeTypeSlice /\
    sliceLengthOf h' t' "msgs" = 3 /\
    forall j, 0 <= j < 2 ^ 64 -> (existsAt h' t' (PushIndex "msgs" j) <-> j < 3).
Proof.
  apply (set_sequence_children emptyHeap "msgs"
           [VString "a"; VString "b"; VString "c"]).
  reflexivity.
Defined.

(** C4, as the spec has it, fails.  After [Set("msgs", nil, ["a","b","c"])],
    [Delete("msgs", &Range{0, 1})] returns without error, the recorded length
    is 2, and the only child left is [msgs/2]; and [Delete("msgs/0", nil)]
    returns without error and leaves the recorded length at 3, without a child
    [msgs/0]. *)
Lemma slice_children_not_exact :
  (let r := Scenario.msgsRangeDeleted in
   match r with Ok None _ _ => True | _ => False end /\
   sliceLengthOf (resHeap r) (resNode r) "msgs" = 2 /\
   ~ existsAt (resHeap r) (resNode r) (PushIndex "msgs" 0) /\
   existsAt (resHeap r) (resNode r) (PushIndex "msgs" 2) /\
   ~ sliceChildrenExact (resHeap r) (resNode r)) /\
  (let r := Scenario.msgsChildDeleted in
   match r with Ok None _ _ => True | _ => False end /\
   sliceLengthOf (resHeap r) (resNode r) "msgs" = 3 /\
   ~ existsAt (resHeap r) (resNode r) (PushIndex "msgs" 0) /\
   ~ sliceChildrenExact (resHeap r) (resNode r)).
Proof.
  split; intros r.
  - assert (Hgone : ~ existsAt (resHeap r) (resNode r) (PushIndex "msgs" 0)).
    { intros He. apply He. vm_compute. reflexivity. }
    split; [vm_compute; exact I|].
    split; [vm_compute; reflexivity|].
    split; [exact Hgone|].
    split; [unfold existsAt; vm_compute; discriminate|].
    intros Hinv. apply Hgone.
    apply (Hinv "msgs"); [vm_compute; reflexivity|lia|vm_compute; reflexivity].
  - assert (Hgone : ~ existsAt (resHeap r) (resNode r) (PushIndex "msgs" 0)).
    { intros He. apply He. vm_compute. reflexivity. }
    split; [vm_compute; exact I|].
    split; [vm_compute; reflexivity|].
    split; [exact Hgone|].
    intros Hinv. apply Hgone.
    apply (Hinv "msgs"); [vm_compute; reflexivity|lia|vm_compute; reflexivity].
Qed.

End TreeFacts.

(** ** Byte order and sorting *)

Module OrderFacts.

Lemma ascii_compare_N (a b : ascii) :
  Ascii.compare a b = N.compare (N_of_ascii a) (N_of_ascii b).
Proof. reflexivity. Qed.

Lemma ascii_compare_eq (a b : ascii) : Ascii.compare a b = Eq -> a = b.
Proof.
  rewrite ascii_compare_N. intros Hc. apply N.compare_eq_iff in Hc.
  rewrite <- (ascii_N_embedding a), <- (ascii_N_embedding b). now rewrite Hc.
Qed.

Lemma ascii_compare_refl (a : ascii) : Ascii.compare a a = Eq.
Proof. rewrite ascii_compare_N. apply N.compare_refl. Qed.

Lemma leb_cons (a b : ascii) (s t : string) :
  String.leb (String a s) (String b t) =
  match Ascii.compare a b with
  | Eq => String.leb s t
  | Lt => true
  | Gt => false
  end.
Proof. unfold String.leb. simpl. now destruct (Ascii.compare a b). Qed.

Lemma leb_nil_l (s : string) : String.leb "" s = true.
Proof. now destruct s. Qed.

Lemma leb_nil_r (s : string) : String.leb s "" = true -> s = "".
Proof. now destruct s. Qed.

Lemma leb_refl (s : string) : String.leb s s = true.
Proof.
  induction s as [|a s IH]; [reflexivity|].
  now rewrite leb_cons, ascii_compare_refl.
Qed.

Lemma leb_trans (a b c : string) :
  String.leb a b = true -> String.leb b c = true -> String.leb a c = true.
Proof.
  revert b c. induction a as [|x a IH]; intros b c Hab Hbc.
  - apply leb_nil_l.
  - destruct b as [|y b]; [discriminate|]. destruct c as [|z c]; [discriminate|].
    rewrite leb_cons in *.
    destruct (Ascii.compare x y) eqn:Hxy; [| |discriminate].
    + apply ascii_compare_eq in Hxy. subst y.
      destruct (Ascii.compare x z); [|reflexivity|discriminate]. eauto.
    + destruct (Ascii.compare y z) eqn:Hyz; [| |discriminate].
      * apply ascii_compare_eq in Hyz. subst z. now rewrite Hxy.
      * rewrite ascii_compare_N in Hxy. rewrite ascii_compare_N in Hyz.
        rewrite ascii_compare_N.
        apply N.compare_lt_iff in Hxy. apply N.compare_lt_iff in Hyz.
        assert (Hxz : (N_of_ascii x < N_of_ascii z)%N).
        { eapply N.lt_trans; eauto. }
        apply N.compare_lt_iff in Hxz. now rewrite Hxz.
Qed.

Lemma prefix_leb (p s : string) : String.prefix p s = true -> String.leb p s = true.
Proof.
  revert s. induction p as [|a p IH]; intros s Hp; [apply leb_nil_l|].
  destruct s as [|b s]; [discriminate|]. simpl in Hp.
  destruct (ascii_dec a b) as [->|]; [|discriminate].
  rewrite leb_cons, ascii_compare_refl. auto.
Qed.

(** [sortBytes] sorts, and keeps the elements. *)
Lemma insertSorted_elem (k x : string) (l : list string) :
  x ∈ insertSorted k l <-> x = k \/ x ∈ l.
Proof.
  induction l as [|y l IH]; simpl.
  - set_solver.
  - destruct (String.leb k y); set_solver.
Qed.

Lemma sortBytes_elem (x : string) (l : list string) : x ∈ sortBytes l <-> x ∈ l.
Proof.
  induction l as [|y l IH]; simpl; [reflexivity|].
  rewrite insertSorted_elem, IH. set_solver.
Qed.

Lemma insertSorted_sorted (k : string) (l : list string) :
  StronglySorted (fun a b => String.leb a b = true) l ->
  StronglySorted (fun a b => String.leb a b = true) (insertSorted k l).
Proof.
  induction 1 as [|y l Hl IH Hy]; simpl.
  - repeat constructor.
  - destruct (String.leb k y) eqn:Hky.
    + constructor; [now constructor|]. constructor; [exact Hky|].
      eapply Forall_impl; [exact Hy|]. intros z Hz. eapply leb_trans; eauto.
    + constructor; [exact IH|]. apply Forall_forall. intros z Hz.
      apply insertSorted_elem in Hz as [->|Hz].
      * destruct (String.leb_total k y) as [Hc|Hc]; [congruence|exact Hc].
      * rewrite Forall_forall in Hy. auto.
Qed.

Lemma sortBytes_sorted (l : list string) :
  StronglySorted (fun a b => String.leb a b = true) (sortBytes l).
Proof.
  induction l as [|y l IH]; simpl; [constructor|]. now apply insertSorted_sorted.
Qed.

Lemma insertSorted_length (k : string) (l : list string) :
  length (insertSorted k l) = S (length l).
Proof.
  induction l as [|y l IH]; simpl; [reflexivity|].
  destruct (String.leb k y); simpl; congruence.
Qed.

Lemma sortBytes_length (l : list string) : length (sortBytes l) = length l.
Proof.
  induction l as [|y l IH]; simpl; [reflexivity|].
  now rewrite insertSorted_length, IH.
Qed.

Lemma insertSorted_Permutation (k : string) (l : list string) :
  insertSorted k l ≡ₚ k :: l.
Proof.
  induction l as [|y l IH]; simpl; [reflexivity|].
  destruct (String.leb k y); [reflexivity|].
  rewrite IH. apply Permutation_swap.
Qed.

Lemma sortBytes_Permutation (l : list string) : sortBytes l ≡ₚ l.
Proof.
  induction l as [|y l IH]; simpl; [reflexivity|].
  now rewrite insertSorted_Permutation, IH.
Qed.

(** The empty keypath sorts first. *)
Lemma sortBytes_head (l : list string) :
  "" ∈ l -> exists rest, sortBytes l = "" :: rest.
Proof.
  intros Hin. pose proof (sortBytes_sorted l) as Hs.
  apply sortBytes_elem in Hin.
  destruct (sortBytes l) as [|x rest]; [inversion Hin|].
  exists rest. f_equal.
  apply list_elem_of_In in Hin. destruct Hin as [->|Hin]; [reflexivity|].
  inversion Hs as [|? ? _ Hx]; subst.
  rewrite Forall_forall in Hx. apply leb_nil_r. apply Hx. now apply list_elem_of_In.
Qed.

End OrderFacts.

(** ** The state tree: un-ranged [Delete] and [Set] *)

Module TreeRuns.

Import Tree Spec Views TreeQueries.

Ltac unfoldM :=
  unfold mbind, M_bind, bind, mret, M_ret, ret, getNode, getHeap, putNode,
    putHeap, allocM in *.

(** *** Views of the heap *)

Lemma valuesAt_setValuesAt h l m : valuesAt (setValuesAt h l m) l = m.
Proof. unfold valuesAt, setValuesAt. simpl. now rewrite lookup_insert_eq. Qed.

Lemma nodeTypesAt_setNodeTypesAt h l m : nodeTypesAt (setNodeTypesAt h l m) l = m.
Proof. unfold nodeTypesAt, setNodeTypesAt. simpl. now rewrite lookup_insert_eq. Qed.

Lemma sliceLengthsAt_setSliceLengthsAt h l m :
  sliceLengthsAt (setSliceLengthsAt h l m) l = m.
Proof.
  unfold sliceLengthsAt, setSliceLengthsAt. simpl. now rewrite lookup_insert_eq.
Qed.

Lemma diffAt_setDiffAt h l d : diffAt (setDiffAt h l d) l = d.
Proof. unfold diffAt, setDiffAt. simpl. now rewrite lookup_insert_eq. Qed.

Lemma sameCursor_refl (n : MemoryNode) : sameCursor n n.
Proof. repeat split. Qed.

Lemma sameCursor_trans (n1 n2 n3 : MemoryNode) :
  sameCursor n1 n2 -> sameCursor n2 n3 -> sameCursor n1 n3.
Proof.
  unfold sameCursor. intros (?&?&?&?&?&?&?) (?&?&?&?&?&?&?).
  repeat split; congruence.
Qed.

Lemma deleteAll_lookup {V : Type} (ks : list Keypath) :
  forall (m : gmap string V) k,
    deleteAll ks m !! k = if bool_decide (k ∈ ks) then None else m !! k.
Proof.
  unfold deleteAll.
  induction ks as [|x ks IH]; intros m k; cbn [foldl].
  - case_bool_decide as Hin; [|reflexivity]. now apply not_elem_of_nil in Hin.
  - rewrite IH. repeat case_bool_decide; try reflexivity.
    + set_solver.
    + destruct (decide (k = x)) as [->|Hne]; [apply lookup_delete_eq|set_solver].
    + apply lookup_delete_ne. set_solver.
Qed.

(** *** The scan of [Delete] *)

Lemma scanned_found (prefix : Keypath) (l : list Keypath) :
  exists post, l = scanned prefix true l ++ post /\
               unscanned prefix true l = post /\
               (post = [] \/ exists q post', post = q :: post' /\
                                             StartsWith q prefix = false).
Proof.
  induction l as [|kp l (post & Hl & Hu & Hp)]; simpl; [exists []; auto|].
  destruct (StartsWith kp prefix) eqn:Hkp.
  - exists post. split; [simpl; congruence|]. auto.
  - exists (kp :: l). repeat split. right. eauto.
Qed.

Lemma scanned_split (prefix : Keypath) (l : list Keypath) :
  exists pre post,
    l = pre ++ scanned prefix false l ++ post /\
    unscanned prefix false l = pre ++ post /\
    Forall (fun k => StartsWith k prefix = false) pre /\
    (post = [] \/ exists q post', post = q :: post' /\
                                  StartsWith q prefix = false).
Proof.
  induction l as [|kp l (pre & post & Hl & Hu & Hpre & Hpost)]; simpl.
  - exists [], []. repeat split; [constructor|now left].
  - destruct (StartsWith kp prefix) eqn:Hkp.
    + destruct (scanned_found prefix l) as (post' & Hl' & Hu' & Hp').
      exists [], post'. simpl. repeat split; [congruence|exact Hu'|constructor|exact Hp'].
    + exists (kp :: pre), post. simpl. repeat split; [congruence..| |exact Hpost].
      now constructor.
Qed.

Lemma scanned_StartsWith (prefix : Keypath) (l : list Keypath) (found : bool) :
  Forall (fun k => StartsWith k prefix = true) (scanned prefix found l).
Proof.
  revert found. induction l as [|kp l IH]; intros found; simpl; [constructor|].
  destruct (StartsWith kp prefix) eqn:Hkp; [now constructor|].
  destruct found; [constructor|apply IH].
Qed.

Lemma deleteVisited_Ok (acc : Z * Z) (kp : Keypath) (i : Z) (n : MemoryNode)
    (h : Heap) :
  exists h',
    deleteVisited acc kp i n h =
      Ok (None, (if fst acc =? -1 then i else fst acc, i)) n h' /\
    valuesAt h' (values n) = delete kp (valuesAt h (values n)) /\
    nodeTypesAt h' (nodeTypes n) = delete kp (nodeTypesAt h (nodeTypes n)) /\
    sliceLengthsAt h' (sliceLengths n) = delete kp (sliceLengthsAt h (sliceLengths n)) /\
    h_diffs h' = h_diffs h /\ h_next h' = h_next h.
Proof.
  destruct acc as [s e]. unfold deleteVisited, deleteValue, deleteNodeType,
    deleteSliceLength. unfoldM. simpl.
  eexists. split; [reflexivity|].
  unfold valuesAt, nodeTypesAt, sliceLengthsAt. simpl.
  rewrite !lookup_insert_eq. simpl. repeat split.
Qed.

(** The scan of an un-ranged [Delete] erases the entries of the keypaths it
    visits, and reports the first and the last index of the run. *)
Lemma scanList_deleteVisited (prefix : Keypath) (l : list Keypath) :
  forall found i s0 e0 n h,
    0 <= i -> (found = true -> s0 <> -1) -> (found = false -> s0 = -1) ->
    exists h' s1 e1,
      scanList deleteVisited prefix found i l (s0, e0) n h
        = Ok (None, (s1, e1)) n h' /\
      valuesAt h' (values n) =
        deleteAll (scanned prefix found l) (valuesAt h (values n)) /\
      nodeTypesAt h' (nodeTypes n) =
        deleteAll (scanned prefix found l) (nodeTypesAt h (nodeTypes n)) /\
      sliceLengthsAt h' (sliceLengths n) =
        deleteAll (scanned prefix found l) (sliceLengthsAt h (sliceLengths n)) /\
      h_diffs h' = h_diffs h /\ h_next h' = h_next h /\
      exists pre post,
        l = pre ++ scanned prefix found l ++ post /\
        unscanned prefix found l = pre ++ post /\
        (found = true -> pre = []) /\
        (scanned prefix found l = [] -> s1 = s0 /\ e1 = e0) /\
        (scanned prefix found l <> [] ->
           s1 = (if found then s0 else i + llen pre) /\
           e1 = i + llen pre + llen (scanned prefix found l) - 1).
Proof.
  induction l as [|kp l IH]; intros found i s0 e0 n h Hi Hf1 Hf2; simpl.
  - exists h, s0, e0. unfoldM. repeat split. exists [], []. repeat split; congruence.
  - destruct (StartsWith kp prefix) eqn:Hkp.
    + destruct (deleteVisited_Ok (s0, e0) kp i n h)
        as (h1 & Hd & Hv1 & Ht1 & Hs1 & Hdf1 & Hn1).
      rewrite (TreeFacts.bind_Ok _ _ _ _ _ _ _ Hd). cbn [fst snd].
      destruct (IH true (i + 1) (if s0 =? -1 then i else s0) i n h1)
        as (h' & s1 & e1 & Heq & Hv & Ht & Hs & Hdf & Hn &
            pre & post & Hl & Hu & Hpre & He & Hne).
      { lia. }
      { intros _. destruct (Z.eqb_spec s0 (-1)); lia. }
      { discriminate. }
      specialize (Hpre eq_refl). subst pre. cbn [app] in Hl, Hu.
      exists h', s1, e1. split; [exact Heq|].
      unfold deleteAll in *. cbn [foldl].
      rewrite Hv, Hv1, Ht, Ht1, Hs, Hs1. repeat split; [congruence..|].
      exists [], post. cbn [app]. split; [congruence|]. split; [exact Hu|].
      split; [reflexivity|]. split; [discriminate|]. intros _.
      assert (Hs0 : (if s0 =? -1 then i else s0) =
                    if found then s0 else i + llen (@nil Keypath)).
      { destruct found.
        - destruct (Z.eqb_spec s0 (-1)); [now specialize (Hf1 eq_refl)|reflexivity].
        - rewrite (Hf2 eq_refl). unfold llen. simpl. lia. }
      unfold llen in *. cbn [length] in *.
      destruct (scanned prefix true l) as [|x run] eqn:Hrun.
      * destruct (He eq_refl) as [-> ->]. split; [exact Hs0|]. simpl. lia.
      * destruct (Hne ltac:(discriminate)) as [-> ->]. split; [exact Hs0|].
        cbn [length]. lia.
    + destruct found.
      * exists h, s0, e0. unfoldM. repeat split.
        exists [], (kp :: l). repeat split; congruence.
      * destruct (IH false (i + 1) s0 e0 n h)
          as (h' & s1 & e1 & Heq & Hv & Ht & Hs & Hdf & Hn &
              pre & post & Hl & Hu & Hpre & He & Hne); [lia|discriminate|auto|].
        exists h', s1, e1. split; [exact Heq|]. repeat split; [assumption..|].
        exists (kp :: pre), post. cbn [app]. split; [congruence|].
        split; [congruence|]. split; [discriminate|]. split; [exact He|].
        intros Hrun. destruct (Hne Hrun) as [-> ->].
        unfold llen. cbn [length]. split; lia.
Qed.

Lemma slice_pre {A : Type} (pre rest : list A) :
  slice (pre ++ rest) 0 (llen pre) = pre.
Proof.
  unfold slice, llen.
  replace (Z.to_nat (Z.of_nat (length pre) - 0)) with (length pre) by lia.
  change (Z.to_nat 0) with 0%nat. rewrite drop_0.
  now rewrite take_app_length.
Qed.

Lemma slice_mid {A : Type} (pre run post : list A) :
  slice (pre ++ run ++ post) (llen pre) (llen pre + llen run) = run.
Proof.
  unfold slice, llen. rewrite Nat2Z.id, drop_app_length.
  replace (Z.to_nat (Z.of_nat (length pre) + Z.of_nat (length run)
                     - Z.of_nat (length pre))) with (length run) by lia.
  now rewrite take_app_length.
Qed.

Lemma slice_post {A : Type} (pre run post : list A) :
  slice (pre ++ run ++ post) (llen pre + llen run) (llen (pre ++ run ++ post))
  = post.
Proof.
  unfold slice, llen.
  replace (Z.to_nat (Z.of_nat (length pre) + Z.of_nat (length run)))
    with (length (pre ++ run)) by (rewrite length_app; lia).
  rewrite (app_assoc pre run post), drop_app_length.
  apply take_ge. rewrite !length_app. lia.
Qed.

Lemma slice_all {A : Type} (l : list A) : slice l 0 (llen l) = l.
Proof.
  unfold slice, llen.
  replace (Z.to_nat (Z.of_nat (length l) - 0)) with (length l) by lia.
  change (Z.to_nat 0) with 0%nat. rewrite drop_0. apply firstn_all.
Qed.

Lemma slice_none {A : Type} (l : list A) : slice l 0 0 = [].
Proof. reflexivity. Qed.

(** *** [Delete] without a range

    The call erases the first run of keypaths under the keypath it is given:
    their values, node types and slice lengths go, and so do the keypaths
    themselves. *)
Lemma Delete_unranged (K : Keypath) (n : MemoryNode) (h : Heap) :
  rng n = None -> copied n = false ->
  exists n' h',
    Delete K None n h = Ok None n' h' /\
    sameCursor n n' /\
    keypaths n' = unscanned (Push (keypath n) K) false (keypaths n) /\
    valuesAt h' (values n) =
      deleteAll (scanned (Push (keypath n) K) false (keypaths n))
        (valuesAt h (values n)) /\
    nodeTypesAt h' (nodeTypes n) =
      deleteAll (scanned (Push (keypath n) K) false (keypaths n))
        (nodeTypesAt h (nodeTypes n)) /\
    sliceLengthsAt h' (sliceLengths n) =
      deleteAll (scanned (Push (keypath n) K) false (keypaths n))
        (delete (Push (keypath n) K) (sliceLengthsAt h (sliceLengths n))) /\
    diffAt h' (diff n) =
      Diff_RemoveMany (diffAt h (diff n))
        (scanned (Push (keypath n) K) false (keypaths n)) /\
    h_next h' = h_next h.
Proof.
  destruct n as [kp r kps lv lt ls cp ld]. simpl. intros -> ->.
  set (n := mkNode kp None kps lv lt ls false ld).
  set (abs := Push kp K).
  set (h0 := setSliceLengthsAt h ls (delete abs (sliceLengthsAt h ls))).
  destruct (scanList_deleteVisited abs kps false 0 (-1) (-1) n h0)
    as (h1 & s1 & e1 & Heq & Hv & Ht & Hs & Hdf & Hn &
        pre & post & Hl & Hu & _ & He & Hne); [lia|discriminate|reflexivity|].
  assert (Hdel : Delete K None n h =
    (r ← scanKeypathsWithPrefix abs None deleteVisited (-1, -1);
     let '(startIdx, stopIdx) := snd r in
     n ← getNode;
     let deletedKeypaths :=
       if -1 <? startIdx then slice (keypaths n) startIdx (stopIdx + 1) else [] in
     (if -1 <? startIdx then
        putNode (mkNode (keypath n) (Tree.rng n)
                   (slice (keypaths n) 0 startIdx ++
                    slice (keypaths n) (stopIdx + 1) (llen (keypaths n)))
                   (values n) (nodeTypes n) (sliceLengths n) (copied n) (diff n))
      else mret tt);;
     h ← getHeap;
     putHeap (setDiffAt h (diff n) (Diff_RemoveMany (diffAt h (diff n)) deletedKeypaths));;
     mret None) n h0) by reflexivity.
  rewrite Hdel. clear Hdel.
  assert (Hscan : scanKeypathsWithPrefix abs None deleteVisited (-1, -1) n h0
                  = Ok (None, (s1, e1)) n h1) by exact Heq.
  rewrite (TreeFacts.bind_Ok _ _ _ _ _ _ _ Hscan). cbn [snd].
  simpl in Hv, Ht, Hs.
  unfold h0 in Hv, Ht, Hs.
  rewrite sliceLengthsAt_setSliceLengthsAt in Hs.
  assert (Hv0 : valuesAt (setSliceLengthsAt h ls (delete abs (sliceLengthsAt h ls))) lv
                = valuesAt h lv) by reflexivity.
  assert (Ht0 : nodeTypesAt (setSliceLengthsAt h ls (delete abs (sliceLengthsAt h ls))) lt
                = nodeTypesAt h lt) by reflexivity.
  rewrite Hv0 in Hv. rewrite Ht0 in Ht. clear Hv0 Ht0.
  assert (Hd1 : diffAt h1 ld = diffAt h ld).
  { unfold diffAt. now rewrite Hdf. }
  assert (Hviews : forall d,
    valuesAt (setDiffAt h1 ld d) lv = valuesAt h1 lv /\
    nodeTypesAt (setDiffAt h1 ld d) lt = nodeTypesAt h1 lt /\
    sliceLengthsAt (setDiffAt h1 ld d) ls = sliceLengthsAt h1 ls) by (now intros).
  destruct (scanned abs false kps) as [|x run] eqn:Hrun.
  - destruct (He eq_refl) as [-> ->]. unfoldM. simpl.
    eexists _, _. split; [reflexivity|].
    split; [apply sameCursor_refl|]. simpl.
    split; [rewrite Hu; simpl in Hl; congruence|].
    destruct (Hviews (Diff_RemoveMany (diffAt h1 ld) [])) as (-> & -> & ->).
    rewrite diffAt_setDiffAt, Hd1. auto.
  - destruct (Hne ltac:(discriminate)) as [-> ->]. unfoldM. simpl.
    assert (Hpos : (-1 <? 0 + llen pre) = true) by (apply Z.ltb_lt; unfold llen; lia).
    rewrite Hpos. simpl.
    eexists _, _. split; [reflexivity|].
    split; [repeat split|]. simpl.
    replace (0 + llen pre + llen (x :: run) - 1 + 1)
      with (llen pre + llen (x :: run)) by lia.
    replace (0 + llen pre) with (llen pre) by lia.
    assert (Hs1 : slice kps 0 (llen pre) = pre).
    { rewrite Hl. apply slice_pre. }
    assert (Hs2 : slice kps (llen pre + llen (x :: run)) (llen kps) = post).
    { rewrite Hl. apply slice_post. }
    assert (Hs3 : slice kps (llen pre) (llen pre + llen (x :: run)) = x :: run).
    { rewrite Hl. apply slice_mid. }
    rewrite Hs1, Hs2, Hs3.
    split; [now rewrite Hu|].
    destruct (Hviews (Diff_RemoveMany (diffAt h1 ld) (x :: run))) as (-> & -> & ->).
    rewrite diffAt_setDiffAt, Hd1. auto.
Qed.

Lemma unscanned_elem (prefix : Keypath) (l : list Keypath) (k : Keypath) :
  k ∈ unscanned prefix false l -> k ∈ l.
Proof.
  destruct (scanned_split prefix l) as (pre & post & Hl & Hu & _ & _).
  rewrite Hu, Hl. set_solver.
Qed.

Lemma unscanned_sorted (prefix : Keypath) (l : list Keypath) :
  sortedKeypaths l -> sortedKeypaths (unscanned prefix false l).
Proof.
  unfold sortedKeypaths.
  destruct (scanned_split prefix l) as (pre & post & Hl & Hu & _ & _).
  rewrite Hu. rewrite Hl at 1. intros Hs.
  apply StronglySorted_app in Hs as (H1 & H2 & H3).
  apply StronglySorted_app in H3 as (H4 & H5 & H6).
  apply StronglySorted_app. repeat split; [|assumption..].
  intros x1 x2 Hx1 Hx2. apply H1; [exact Hx1|]. set_solver.
Qed.

Lemma checkCopied_not (n : MemoryNode) (h : Heap) :
  copied n = false -> checkCopied n h = Ok tt n h.
Proof. intros Hc. unfold checkCopied. unfoldM. now rewrite Hc. Qed.

(** *** The loop of [Set] over the ancestors

    On a cursor without a range the loop goes through every ancestor and
    fails at none. *)
Lemma setAncestors_unranged (K abs : Keypath) (parts : list Keypath) :
  forall i byteIdx new n h,
    rng n = None -> copied n = false ->
    exists n' h',
      setAncestors K abs parts i byteIdx new n h
        = Ok (None, new ++ partialKeypaths abs parts i byteIdx) n' h' /\
      sameCursor n n' /\
      (forall k, k ∈ keypaths n' -> k ∈ keypaths n) /\
      (sortedKeypaths (keypaths n) -> sortedKeypaths (keypaths n')) /\
      h_next h' = h_next h.
Proof.
  induction parts as [|key parts IH]; intros i byteIdx new n h Hr Hc.
  - exists n, h. simpl. rewrite app_nil_r. unfoldM.
    repeat split; auto.
  - cbn [setAncestors partialKeypaths].
    set (partialKeypath :=
           if byteIdx + slen key =? 0 then ""
           else ssub abs 0 (byteIdx + slen key)).
    set (next := if i =? 0 then byteIdx + slen key else byteIdx + slen key + 1).
    assert (Hstep : exists n1 h1,
      (if bool_decide (nodeTypeOf h n partialKeypath = NodeTypeInvalid) then
         setNodeType partialKeypath NodeTypeMap;; mret None
       else if negb (bool_decide (nodeTypeOf h n partialKeypath = NodeTypeMap)) then
         err ← Delete (RelativeTo partialKeypath K) None;
         match err with
         | Some e => mret (Some e)
         | None => setNodeType partialKeypath NodeTypeMap;; mret None
         end
       else mret None) n h = Ok None n1 h1 /\
      sameCursor n n1 /\
      (forall k, k ∈ keypaths n1 -> k ∈ keypaths n) /\
      (sortedKeypaths (keypaths n) -> sortedKeypaths (keypaths n1)) /\
      h_next h1 = h_next h).
    { case_bool_decide as Hinv.
      - eexists n, _. unfold setNodeType. unfoldM. split; [reflexivity|].
        split; [apply sameCursor_refl|]. auto.
      - case_bool_decide as Hmap; cbn [negb].
        + exists n, h. unfoldM. split; [reflexivity|].
          split; [apply sameCursor_refl|]. auto.
        + destruct (Delete_unranged (RelativeTo partialKeypath K) n h Hr Hc)
            as (n1 & h1 & Hd & Hsame & Hk & _ & _ & _ & _ & Hn).
          rewrite (TreeFacts.bind_Ok _ _ _ _ _ _ _ Hd).
          eexists n1, _. unfold setNodeType. unfoldM. split; [reflexivity|].
          split; [exact Hsame|]. rewrite Hk.
          split; [intros k; apply unscanned_elem|].
          split; [apply unscanned_sorted|exact Hn]. }
    destruct Hstep as (n1 & h1 & Hstep & Hsame & Hin & Hsorted & Hn).
    assert (Hr1 : rng n1 = None) by (destruct Hsame as (_ & -> & _); exact Hr).
    assert (Hc1 : copied n1 = false) by (destruct Hsame as (_ & _ & -> & _); exact Hc).
    destruct (IH (i + 1) next (new ++ [partialKeypath]) n1 h1 Hr1 Hc1)
      as (n' & h' & Heq & Hsame' & Hin' & Hsorted' & Hn').
    exists n', h'. split.
    + unfold mbind at 1 2, M_bind at 1 2, bind at 1 2, getNode, getHeap.
      fold partialKeypath.
      unfold mbind at 1, M_bind at 1, bind at 1.
      rewrite Hstep. fold next. rewrite Heq. now rewrite <- app_assoc.
    + split; [eapply sameCursor_trans; eauto|].
      split; [auto|]. split; [auto|congruence].
Qed.

(** *** The walk of [Set] *)

Lemma setWalked_views (abs : Keypath) (e : Keypath * Value) (n : MemoryNode)
    (h : Heap) :
  exists h',
    setWalked abs e n h = Ok tt n h' /\
    valuesAt h' (values n) = walkedValues abs (valuesAt h (values n)) [e] /\
    nodeTypesAt h' (nodeTypes n) = walkedTypes abs (nodeTypesAt h (nodeTypes n)) [e] /\
    sliceLengthsAt h' (sliceLengths n) =
      walkedLengths abs (sliceLengthsAt h (sliceLengths n)) [e] /\
    h_diffs h' = h_diffs h /\ h_next h' = h_next h.
Proof.
  unfold setWalked, walkedValues, walkedTypes, walkedLengths, typeOfValue.
  destruct e as [k val]. cbn [fst snd foldl]. destruct val;
    unfold setNodeType, setSliceLength, setValue; unfoldM;
    (eexists; split; [reflexivity|]);
    unfold valuesAt, nodeTypesAt, sliceLengthsAt; simpl;
    rewrite ?lookup_insert_eq; simpl; repeat split.
Qed.

Lemma forEachM_setWalked_views (abs : Keypath) (walked : list (Keypath * Value)) :
  forall n h,
    exists h',
      forEachM (setWalked abs) walked n h = Ok tt n h' /\
      valuesAt h' (values n) = walkedValues abs (valuesAt h (values n)) walked /\
      nodeTypesAt h' (nodeTypes n) =
        walkedTypes abs (nodeTypesAt h (nodeTypes n)) walked /\
      sliceLengthsAt h' (sliceLengths n) =
        walkedLengths abs (sliceLengthsAt h (sliceLengths n)) walked /\
      h_diffs h' = h_diffs h /\ h_next h' = h_next h.
Proof.
  induction walked as [|e walked IH]; intros n h.
  - exists h. unfoldM. repeat split.
  - destruct (setWalked_views abs e n h) as (h1 & He & Hv1 & Ht1 & Hs1 & Hd1 & Hn1).
    destruct (IH n h1) as (h' & Heq & Hv & Ht & Hs & Hd & Hn).
    exists h'. cbn [forEachM].
    split; [now rewrite (TreeFacts.bind_Ok _ _ _ _ _ _ _ He)|].
    unfold walkedValues, walkedTypes, walkedLengths in *. cbn [foldl] in *.
    rewrite Hv, Hv1, Ht, Ht1, Hs, Hs1. repeat split; congruence.
Qed.

Lemma setKeypaths_root (abs : Keypath) (v : Value) : "" ∈ setKeypaths abs v.
Proof.
  unfold setKeypaths. destruct (Parts abs) as [|p ps] eqn:Hp.
  - cbn [removelast partialKeypaths app].
    destruct (KeypathFacts.walkGoValue_head v) as (rest & ->). cbn [map fst].
    assert (abs = "") as ->.
    { unfold Parts in Hp. destruct (slen abs =? 0) eqn:Hz.
      - apply Bytes.slen_zero. lia.
      - destruct abs as [|c abs]; [reflexivity|]. simpl in Hp.
        destruct (Ascii.eqb c KeypathSeparator); [discriminate|].
        destruct (splitOn abs); discriminate. }
    rewrite KeypathFacts.Push_nil_l. apply list_elem_of_here.
  - change (removelast ("" :: p :: ps)) with ("" :: removelast (p :: ps)).
    cbn [partialKeypaths]. apply elem_of_app. left. apply list_elem_of_here.
Qed.

Lemma addKeypaths_root (new : list Keypath) (n : MemoryNode) (h : Heap) :
  "" ∈ new ->
  addKeypaths new n h =
    Ok tt (mkNode (keypath n) (rng n) (sortBytes (keypaths n ++ sortBytes new))
             (values n) (nodeTypes n) (sliceLengths n) (copied n) (diff n)) h.
Proof.
  intros Hin. unfold addKeypaths, sortKeypaths.
  destruct (OrderFacts.sortBytes_head new Hin) as (rest & Hs). rewrite Hs.
  unfoldM.
  assert (Hstart : (if findPrefixStart n 0 "" =? -1 then 0
                    else findPrefixStart n 0 "") = 0).
  { unfold findPrefixStart. destruct (llen (keypaths n) <=? 0); reflexivity. }
  rewrite Hstart. rewrite slice_none, slice_all. reflexivity.
Qed.

(** *** [Set] without a range

    The call deletes what is under the keypath, goes through the ancestors,
    writes what the walk of the value emits, and sorts the keypaths it has
    touched into the list. *)
Lemma Set_steps (K : Keypath) (v : Value) (n : MemoryNode) (h : Heap) :
  rng n = None -> copied n = false ->
  exists n1 h1 n2 h2 h3,
    Delete K None n h = Ok None n1 h1 /\
    setAncestors K (Push (keypath n) K)
      (removelast ("" :: Parts (Push (keypath n) K))) 0 0 [] n1 h1
      = Ok (None, partialKeypaths (Push (keypath n) K)
                    (removelast ("" :: Parts (Push (keypath n) K))) 0 0) n2 h2 /\
    forEachM (setWalked (Push (keypath n) K)) (walkGoValue v) n2 h2 = Ok tt n2 h3 /\
    sameCursor n n2 /\
    (forall k, k ∈ keypaths n2 -> k ∈ keypaths n) /\
    Set_ K None v n h =
      Ok None
        (mkNode (keypath n) None
           (sortBytes (keypaths n2 ++ sortBytes (setKeypaths (Push (keypath n) K) v)))
           (values n) (nodeTypes n) (sliceLengths n) false (diff n))
        (setDiffAt h3 (diff n)
           (Diff_AddMany (diffAt h3 (diff n)) (setKeypaths (Push (keypath n) K) v))).
Proof.
  intros Hr Hc. set (abs := Push (keypath n) K).
  destruct (Delete_unranged K n h Hr Hc)
    as (n1 & h1 & Hd & Hsame1 & Hk1 & _).
  assert (Hr1 : rng n1 = None) by (destruct Hsame1 as (_ & -> & _); exact Hr).
  assert (Hc1 : copied n1 = false) by (destruct Hsame1 as (_ & _ & -> & _); exact Hc).
  destruct (setAncestors_unranged K abs (removelast ("" :: Parts abs)) 0 0 [] n1 h1
              Hr1 Hc1) as (n2 & h2 & Ha & Hsame2 & Hin2 & _ & _).
  cbn [app] in Ha.
  destruct (forEachM_setWalked_views abs (walkGoValue v) n2 h2)
    as (h3 & Hw & _).
  exists n1, h1, n2, h2, h3.
  split; [exact Hd|]. split; [exact Ha|]. split; [exact Hw|].
  pose proof (sameCursor_trans _ _ _ Hsame1 Hsame2) as Hsame.
  split; [exact Hsame|].
  split; [intros k Hk; apply Hin2 in Hk; rewrite Hk1 in Hk;
          now apply unscanned_elem in Hk|].
  unfold Set_.
  rewrite (TreeFacts.bind_Ok _ _ _ _ _ _ _ (checkCopied_not n h Hc)).
  rewrite (TreeFacts.bind_Ok _ _ _ _ _ _ _ Hd).
  unfold mbind at 1, M_bind at 1, bind at 1, getNode.
  destruct Hsame1 as (Hkp1 & _). rewrite Hkp1. fold abs.
  rewrite (TreeFacts.bind_Ok _ _ _ _ _ _ _ Ha). cbn [fst snd].
  rewrite (TreeFacts.bind_Ok _ _ _ _ _ _ _ Hw).
  fold (setKeypaths abs v).
  destruct Hsame as (Hkp & Hrng & Hcp & Hlv & Hlt & Hls & Hld).
  destruct n2 as [kp2 r2 kps2 lv2 lt2 ls2 cp2 ld2].
  cbn [keypath rng keypaths values nodeTypes sliceLengths copied diff] in *. subst.
  unfold mbind at 1 2, M_bind at 1 2, bind at 1 2, getNode, getHeap.
  unfold mbind at 1, M_bind at 1, bind at 1, putHeap.
  cbn [diff].
  rewrite (TreeFacts.bind_Ok _ _ _ _ _ _ _
             (addKeypaths_root _ _ _ (setKeypaths_root abs v))).
  cbn [keypath rng keypaths values nodeTypes sliceLengths copied diff].
  unfoldM. now rewrite Hr, Hc.
Qed.

(** A cursor that is flagged [copied] copies its maps first, and goes on as
    a cursor that is not. *)
Lemma makeCopy_cursor (t : MemoryNode) (h : Heap) :
  exists n0 h0, makeCopy t h = Ok tt n0 h0 /\
                keypath n0 = keypath t /\ rng n0 = rng t /\ copied n0 = false.
Proof.
  unfold makeCopy. unfoldM. simpl.
  destruct (if 0 <? slen (keypath t) then _ else _) as [start end_].
  destruct (if start =? -1 then _ else _) as [start' end'].
  destruct (foldl _ _ _) as [[vs ts] ss]. simpl. eauto 10.
Qed.

Lemma Set_checkCopied (K : Keypath) (v : Value) (n : MemoryNode) (h : Heap) :
  exists n0 h0,
    Set_ K None v n h = Set_ K None v n0 h0 /\
    keypath n0 = keypath n /\ rng n0 = rng n /\ copied n0 = false /\
    (copied n = false -> n0 = n /\ h0 = h).
Proof.
  destruct (copied n) eqn:Hc.
  - destruct (makeCopy_cursor n h) as (n0 & h0 & Hm & Hk & Hr & Hc0).
    exists n0, h0. split; [|repeat split; auto; discriminate].
    unfold Set_.
    assert (H1 : checkCopied n h = Ok tt n0 h0).
    { unfold checkCopied. unfoldM. now rewrite Hc. }
    rewrite (TreeFacts.bind_Ok _ _ _ _ _ _ _ H1).
    now rewrite (TreeFacts.bind_Ok _ _ _ _ _ _ _ (checkCopied_not n0 h0 Hc0)).
  - exists n, h. repeat split; auto.
Qed.

(** X1: [Set] without a range, on a cursor without a range, returns no error
    and does not panic, whatever the tree holds and whatever the value is. *)
Theorem set_without_range_succeeds (K : Keypath) (v : Value) (n : MemoryNode)
    (h : Heap) :
  rng n = None ->
  exists n' h',
    Set_ K None v n h = Ok None n' h' /\
    keypath n' = keypath n /\ rng n' = None /\ copied n' = false.
Proof.
  intros Hr.
  destruct (Set_checkCopied K v n h) as (n0 & h0 & -> & Hk0 & Hr0 & Hc0 & _).
  rewrite Hr in Hr0.
  destruct (Set_steps K v n0 h0 Hr0 Hc0) as (n1 & h1 & n2 & h2 & h3 & _ & _ & _ & _ & _ & ->).
  eexists _, _. split; [reflexivity|]. simpl. auto.
Qed.

Lemma set_without_range_succeeds_witness :
  exists n' h',
    Set_ "a/b" None (VMap [("c", VInt 1)])
      (fst (NewMemoryNode emptyHeap)) (snd (NewMemoryNode emptyHeap))
      = Ok None n' h' /\
    keypath n' = keypath (fst (NewMemoryNode emptyHeap)) /\
    rng n' = None /\ copied n' = false.
Proof. apply set_without_range_succeeds. reflexivity. Defined.

Lemma walkGoValue_leaf (v : Value) : isLeaf v = true -> walkGoValue v = [("", v)].
Proof. destruct v; simpl; intros; try reflexivity; discriminate. Qed.

(** What [Set] of a leaf leaves at the keypath. *)
Lemma Set_leaf (K : Keypath) (v : Value) (n : MemoryNode) (h : Heap) :
  rng n = None -> copied n = false -> isLeaf v = true ->
  exists n' h',
    Set_ K None v n h = Ok None n' h' /\
    sameCursor n n' /\
    valuesAt h' (values n) !! Push (keypath n) K = Some v /\
    nodeTypesAt h' (nodeTypes n) !! Push (keypath n) K = Some NodeTypeValue.
Proof.
  intros Hr Hc Hleaf.
  destruct (Set_steps K v n h Hr Hc)
    as (n1 & h1 & n2 & h2 & h3 & _ & _ & Hw & Hsame & _ & ->).
  destruct (forEachM_setWalked_views (Push (keypath n) K) (walkGoValue v) n2 h2)
    as (h3' & Hw' & Hv & Ht & _).
  rewrite Hw in Hw'. injection Hw' as <-.
  destruct Hsame as (Hkp & Hrng & Hcp & Hlv & Hlt & Hls & Hld).
  rewrite Hlv in Hv. rewrite Hlt in Ht.
  eexists _, _. split; [reflexivity|].
  split; [repeat split; simpl; congruence|].
  change (valuesAt (setDiffAt h3 ?l ?d) ?lv) with (valuesAt h3 lv).
  change (nodeTypesAt (setDiffAt h3 ?l ?d) ?lt) with (nodeTypesAt h3 lt).
  rewrite Hv, Ht, (walkGoValue_leaf v Hleaf).
  unfold walkedValues, walkedTypes. cbn [foldl fst snd].
  rewrite KeypathFacts.Push_nil_r.
  destruct v; try discriminate; rewrite !lookup_insert_eq; auto.
Qed.

(** X2: writing a leaf and reading it back.  After [Set(K, nil, v)] on a cursor
    without a range, with [v] neither a map nor a sequence, [Exists(K)] is
    true, [NodeInfo] of the cursor at [K] reports a value of the type of [v]
    (with its length for a string), and each typed reader returns [v] when [v]
    has its type, and its zero value with [false] otherwise. *)
Theorem set_then_read (K : Keypath) (v : Value) (n : MemoryNode) (h : Heap) :
  rng n = None -> isLeaf v = true ->
  exists n' h',
    Set_ K None v n h = Ok None n' h' /\
    Exists n' h' K = (true, None) /\
    NodeInfo (AtKeypath n' K None) h' =
      (NodeTypeValue, valueTypeOf v,
       match v with VString s => slen s | _ => 0 end, None) /\
    StringValue n' h' K =
      match v with VString s => (s, true, None) | _ => ("", false, None) end /\
    UintValue n' h' K =
      match v with VUint u => (u, true, None) | _ => (0, false, None) end /\
    IntValue n' h' K =
      match v with VInt i => (i, true, None) | _ => (0, false, None) end /\
    FloatValue n' h' K =
      match v with VFloat f => (f, true, None) | _ => (0, false, None) end.
Proof.
  intros Hr Hleaf.
  destruct (Set_checkCopied K v n h) as (n0 & h0 & -> & Hk0 & Hr0 & Hc0 & _).
  rewrite Hr in Hr0.
  destruct (Set_leaf K v n0 h0 Hr0 Hc0 Hleaf) as (n' & h' & -> & Hsame & Hv & Ht).
  destruct Hsame as (Hkp & _ & _ & Hlv & Hlt & _).
  exists n', h'. split; [reflexivity|].
  unfold Exists, NodeInfo, AtKeypath, StringValue, UintValue, IntValue,
    FloatValue, nodeTypeOf.
  cbn [keypath values nodeTypes].
  rewrite Hkp, Hlv, Hlt, Hv, Ht. cbn [default].
  split; [rewrite bool_decide_eq_true_2 by eauto; reflexivity|].
  destruct v; try discriminate; repeat split.
Qed.

Lemma set_then_read_witness :
  exists n' h',
    Set_ "title" None (VString "hello")
      (fst (NewMemoryNode emptyHeap)) (snd (NewMemoryNode emptyHeap))
      = Ok None n' h' /\
    Exists n' h' "title" = (true, None) /\
    NodeInfo (AtKeypath n' "title" None) h' =
      (NodeTypeValue, ValueTypeString, 5, None) /\
    StringValue n' h' "title" = ("hello", true, None) /\
    UintValue n' h' "title" = (0, false, None) /\
    IntValue n' h' "title" = (0, false, None) /\
    FloatValue n' h' "title" = (0, false, None).
Proof.
  apply (set_then_read "title" (VString "hello")); reflexivity.
Defined.

(** *** Runs of un-ranged calls *)

Lemma sortBytes_sortedKeypaths (l : list Keypath) : sortedKeypaths (sortBytes l).
Proof. apply OrderFacts.sortBytes_sorted. Qed.

Lemma mutate_unranged (m : Mutation) (n : MemoryNode) (h : Heap) :
  unranged m -> rng n = None -> copied n = false ->
  sortedKeypaths (keypaths n) ->
  exists n' h',
    mutate m n h = Ok None n' h' /\ sameCursor n n' /\
    sortedKeypaths (keypaths n').
Proof.
  intros Hm Hr Hc Hs. destruct m as [K r v|K r]; simpl in Hm; subst r; cbn [mutate].
  - destruct (Set_steps K v n h Hr Hc)
      as (n1 & h1 & n2 & h2 & h3 & _ & _ & _ & Hsame & _ & ->).
    eexists _, _. split; [reflexivity|].
    split; [repeat split; simpl; congruence|]. simpl.
    apply sortBytes_sortedKeypaths.
  - destruct (Delete_unranged K n h Hr Hc) as (n' & h' & -> & Hsame & Hk & _).
    exists n', h'. split; [reflexivity|]. split; [exact Hsame|].
    rewrite Hk. now apply unscanned_sorted.
Qed.

(** X3: the keypath list stays sorted.  On a cursor without a range whose
    keypaths are in ascending byte order, a run of un-ranged [Set] and
    [Delete] calls goes through without a panic, and leaves the keypaths in
    ascending byte order. *)
Theorem keypaths_stay_sorted (ms : list Mutation) (n : MemoryNode) (h : Heap) :
  Forall unranged ms -> rng n = None -> copied n = false ->
  sortedKeypaths (keypaths n) ->
  exists n' h',
    mutateAll ms n h = Ok tt n' h' /\ sortedKeypaths (keypaths n').
Proof.
  revert n h. induction ms as [|m ms IH]; intros n h Hms Hr Hc Hs.
  - exists n, h. unfoldM. simpl. auto.
  - inversion Hms as [|? ? Hm Hms']; subst.
    destruct (mutate_unranged m n h Hm Hr Hc Hs) as (n1 & h1 & Heq & Hsame & Hs1).
    assert (Hr1 : rng n1 = None) by (destruct Hsame as (_ & -> & _); exact Hr).
    assert (Hc1 : copied n1 = false) by (destruct Hsame as (_ & _ & -> & _); exact Hc).
    destruct (IH n1 h1 Hms' Hr1 Hc1 Hs1) as (n' & h' & Heq' & Hs').
    exists n', h'. cbn [mutateAll].
    split; [now rewrite (TreeFacts.bind_Ok _ _ _ _ _ _ _ Heq)|exact Hs'].
Qed.

Lemma keypaths_stay_sorted_witness :
  exists n' h',
    mutateAll [MSet "b/c" None (VInt 1); MSet "a" None (VSlice [VNil]);
               MDelete "b" None]
      (fst (NewMemoryNode emptyHeap)) (snd (NewMemoryNode emptyHeap))
      = Ok tt n' h' /\
    sortedKeypaths (keypaths n').
Proof.
  apply keypaths_stay_sorted.
  - repeat constructor.
  - reflexivity.
  - reflexivity.
  - constructor.
Defined.

(** *** What a scan reaches *)

Lemma prefix_refl (s : string) : String.prefix s s = true.
Proof.
  induction s as [|a s IH]; [reflexivity|]. simpl.
  destruct (ascii_dec a a); [exact IH|congruence].
Qed.

Lemma StartsWith_refl (k : Keypath) : StartsWith k k = true.
Proof.
  unfold StartsWith. destruct (slen k =? 0); [reflexivity|].
  rewrite prefix_refl, Z.eqb_refl. reflexivity.
Qed.

Lemma StartsWith_leb (k prefix : Keypath) :
  StartsWith k prefix = true -> String.leb prefix k = true.
Proof.
  unfold StartsWith. destruct (slen prefix =? 0) eqn:Hz.
  - intros _. apply Z.eqb_eq in Hz. apply Bytes.slen_zero in Hz. subst.
    apply OrderFacts.leb_nil_l.
  - intros Hp. apply andb_true_iff in Hp as [Hp _]. now apply OrderFacts.prefix_leb.
Qed.

(** In a sorted list, the first run of keypaths under a keypath holds the
    keypath itself, if the list does. *)
Lemma scanned_self (abs : Keypath) (l : list Keypath) :
  sortedKeypaths l -> abs ∈ l -> abs ∈ scanned abs false l.
Proof.
  intros Hs Hin.
  destruct (scanned_split abs l) as (pre & post & Hl & _ & Hpre & Hpost).
  pose proof (scanned_StartsWith abs l false) as Hrun.
  remember (scanned abs false l) as run eqn:Hr. symmetry in Hr.
  rewrite Hl in Hin. apply elem_of_app in Hin as [Hin|Hin].
  { rewrite Forall_forall in Hpre. apply Hpre in Hin.
    now rewrite StartsWith_refl in Hin. }
  apply elem_of_app in Hin as [Hin|Hin]; [exact Hin|].
  exfalso. destruct Hpost as [->|(q & post' & -> & Hq)]; [inversion Hin|].
  unfold sortedKeypaths in Hs. rewrite Hl in Hs.
  apply StronglySorted_app in Hs as (_ & _ & Hs).
  assert (Hqa : String.leb q abs = true).
  { apply StronglySorted_app in Hs as (_ & _ & Hs).
    apply elem_of_cons in Hin as [->|Hin]; [apply OrderFacts.leb_refl|].
    inversion Hs as [|? ? _ Hall]; subst. rewrite Forall_forall in Hall. auto. }
  destruct run as [|e run'].
  - (* no run: then the scan has not ended before [post] *)
    clear Hs.
    assert (Hnone : Forall (fun k => StartsWith k abs = false) l).
    { clear -Hr. induction l as [|k l IH]; [constructor|]. simpl in Hr.
      destruct (StartsWith k abs) eqn:Hk; [discriminate|]. constructor; auto. }
    rewrite Forall_forall in Hnone.
    assert (Habs : abs ∈ l) by (rewrite Hl; set_solver).
    apply Hnone in Habs. now rewrite StartsWith_refl in Habs.
  - assert (Hea : String.leb abs e = true).
    { apply StartsWith_leb. inversion Hrun; subst. assumption. }
    assert (Heq : String.leb e q = true).
    { apply StronglySorted_app in Hs as (Hs & _ & _).
      apply Hs; [apply list_elem_of_here|apply list_elem_of_here]. }
    assert (q = abs).
    { apply String.leb_antisym; [exact Hqa|].
      eapply OrderFacts.leb_trans; eauto. }
    subst q. now rewrite StartsWith_refl in Hq.
Qed.

Lemma Set_lists_keypath (K : Keypath) (v : Value) (n : MemoryNode) (h : Heap) :
  rng n = None -> copied n = false ->
  exists n' h',
    Set_ K None v n h = Ok None n' h' /\ sameCursor n n' /\
    sortedKeypaths (keypaths n') /\ Push (keypath n) K ∈ keypaths n'.
Proof.
  intros Hr Hc.
  destruct (Set_steps K v n h Hr Hc)
    as (n1 & h1 & n2 & h2 & h3 & _ & _ & _ & Hsame & _ & ->).
  eexists _, _. split; [reflexivity|].
  split; [repeat split; simpl; congruence|]. simpl.
  split; [apply sortBytes_sortedKeypaths|].
  apply OrderFacts.sortBytes_elem, elem_of_app. right.
  apply OrderFacts.sortBytes_elem. unfold setKeypaths. apply elem_of_app. right.
  destruct (KeypathFacts.walkGoValue_head v) as (rest & ->). cbn [map fst].
  rewrite KeypathFacts.Push_nil_r. apply list_elem_of_here.
Qed.

(** X4: [Set] then [Delete].  After [Set(K, nil, v)] and [Delete(K, nil)] on a
    cursor without a range, nothing is left at [K]: [Exists(K)] is false and
    [NodeInfo] of the cursor at [K] fails with [Err404], whatever [v] was and
    whatever the tree held before. *)
Theorem set_then_delete_absent (K : Keypath) (v : Value) (n : MemoryNode)
    (h : Heap) :
  rng n = None -> copied n = false ->
  exists n1 h1 n2 h2,
    Set_ K None v n h = Ok None n1 h1 /\
    Delete K None n1 h1 = Ok None n2 h2 /\
    Exists n2 h2 K = (false, None) /\
    NodeInfo (AtKeypath n2 K None) h2 =
      (NodeTypeInvalid, ValueTypeInvalid, 0, Some Err404).
Proof.
  intros Hr Hc.
  destruct (Set_lists_keypath K v n h Hr Hc) as (n1 & h1 & Hset & Hsame & Hs & Hin).
  assert (Hr1 : rng n1 = None) by (destruct Hsame as (_ & -> & _); exact Hr).
  assert (Hc1 : copied n1 = false) by (destruct Hsame as (_ & _ & -> & _); exact Hc).
  destruct (Delete_unranged K n1 h1 Hr1 Hc1)
    as (n2 & h2 & Hdel & Hsame2 & _ & Hv & Ht & _).
  exists n1, h1, n2, h2. split; [exact Hset|]. split; [exact Hdel|].
  destruct Hsame as (Hkp & _). destruct Hsame2 as (Hkp2 & _ & _ & Hlv & Hlt & _).
  rewrite Hkp in Hv, Ht.
  pose proof (scanned_self _ _ Hs Hin) as Hrun.
  unfold Exists, NodeInfo, AtKeypath, nodeTypeOf. cbn [keypath values nodeTypes].
  rewrite Hkp2, Hkp, Hlv, Hlt, Hv, Ht, !deleteAll_lookup.
  rewrite !(bool_decide_eq_true_2 _ Hrun). cbn [default].
  split; [|reflexivity].
  rewrite bool_decide_eq_false_2; [reflexivity|]. intros [? ?]. discriminate.
Qed.

Lemma set_then_delete_absent_witness :
  exists n1 h1 n2 h2,
    Set_ "a" None (VMap [("b", VInt 1)])
      (fst (NewMemoryNode emptyHeap)) (snd (NewMemoryNode emptyHeap))
      = Ok None n1 h1 /\
    Delete "a" None n1 h1 = Ok None n2 h2 /\
    Exists n2 h2 "a" = (false, None) /\
    NodeInfo (AtKeypath n2 "a" None) h2 =
      (NodeTypeInvalid, ValueTypeInvalid, 0, Some Err404).
Proof. apply set_then_delete_absent; reflexivity. Defined.

(** *** Cursors *)

Lemma Push_assoc (a b c : Keypath) : Push (Push a b) c = Push a (Push b c).
Proof.
  destruct a as [|x a]; [now rewrite !KeypathFacts.Push_nil_l|].
  destruct b as [|y b]; [now rewrite KeypathFacts.Push_nil_r, KeypathFacts.Push_nil_l|].
  destruct c as [|z c]; [now rewrite !KeypathFacts.Push_nil_r|].
  rewrite (KeypathFacts.Push_cons x y a b), (KeypathFacts.Push_cons y z b c).
  rewrite Bytes.app_cons at 1. rewrite Bytes.app_cons.
  rewrite !KeypathFacts.Push_cons.
  rewrite <- Bytes.app_cons. rewrite Bytes.app_assoc. reflexivity.
Qed.

(** X5: a write through a cursor is seen from the node the cursor was taken
    from.  After [AtKeypath(K1, nil).Set(K2, nil, v)], with [v] neither a map
    nor a sequence, the node itself finds [v] at [K1/K2]: [Exists] is true
    there and the typed readers return [v]. *)
Theorem set_through_cursor_visible (K1 K2 : Keypath) (v : Value)
    (n : MemoryNode) (h : Heap) :
  isLeaf v = true ->
  exists c' h',
    Set_ K2 None v (AtKeypath n K1 None) h = Ok None c' h' /\
    Exists n h' (Push K1 K2) = (true, None) /\
    StringValue n h' (Push K1 K2) =
      match v with VString s => (s, true, None) | _ => ("", false, None) end /\
    UintValue n h' (Push K1 K2) =
      match v with VUint u => (u, true, None) | _ => (0, false, None) end /\
    IntValue n h' (Push K1 K2) =
      match v with VInt i => (i, true, None) | _ => (0, false, None) end /\
    FloatValue n h' (Push K1 K2) =
      match v with VFloat f => (f, true, None) | _ => (0, false, None) end.
Proof.
  intros Hleaf.
  destruct (Set_leaf K2 v (AtKeypath n K1 None) h eq_refl eq_refl Hleaf)
    as (c' & h' & Hset & _ & Hv & _).
  exists c', h'. split; [exact Hset|].
  cbn [AtKeypath keypath values] in Hv. rewrite Push_assoc in Hv.
  unfold Exists, StringValue, UintValue, IntValue, FloatValue.
  rewrite Hv.
  split; [rewrite bool_decide_eq_true_2 by eauto; reflexivity|].
  destruct v; try discriminate; repeat split.
Qed.

Lemma set_through_cursor_visible_witness :
  exists c' h',
    Set_ "name" None (VString "bob")
      (AtKeypath (fst (NewMemoryNode emptyHeap)) "users/7" None)
      (snd (NewMemoryNode emptyHeap)) = Ok None c' h' /\
    Exists (fst (NewMemoryNode emptyHeap)) h' (Push "users/7" "name") = (true, None) /\
    StringValue (fst (NewMemoryNode emptyHeap)) h' (Push "users/7" "name") =
      ("bob", true, None) /\
    UintValue (fst (NewMemoryNode emptyHeap)) h' (Push "users/7" "name") =
      (0, false, None) /\
    IntValue (fst (NewMemoryNode emptyHeap)) h' (Push "users/7" "name") =
      (0, false, None) /\
    FloatValue (fst (NewMemoryNode emptyHeap)) h' (Push "users/7" "name") =
      (0, false, None).
Proof.
  apply (set_through_cursor_visible "users/7" "name" (VString "bob")). reflexivity.
Defined.

End TreeRuns.

(** ** The state tree: prefix ranges, the iterator, copies *)

Module TreeScans.

Import Tree Spec Views TreeQueries TreeRuns.

(** *** [findPrefixRange] *)

Lemma scanned_true_nil (prefix : Keypath) (l : list Keypath) :
  scanned prefix false l = [] -> Forall (fun k => StartsWith k prefix = false) l.
Proof.
  induction l as [|k l IH]; [constructor|]. simpl.
  destruct (StartsWith k prefix) eqn:Hk; [discriminate|]. constructor; auto.
Qed.

Lemma findPrefixRange_loop_run (prefix : Keypath) (l : list Keypath) :
  forall start i,
    0 <= start ->
    findPrefixRange_loop prefix start i l =
      (start, i + llen (scanned prefix true l)).
Proof.
  induction l as [|k l IH]; intros start i Hs; simpl.
  - destruct (Z.eqb_spec start (-1)); [lia|]. unfold llen. simpl. f_equal. lia.
  - destruct (Z.eqb_spec start (-1)); [lia|].
    destruct (StartsWith k prefix).
    + rewrite IH by lia. unfold llen. simpl length. f_equal. lia.
    + simpl. unfold llen. simpl. f_equal. lia.
Qed.

(** The range that [findPrefixRange] returns is the first run of keypaths
    under the prefix: [(-1, -1)] when there is none. *)
Lemma findPrefixRange_loop_scan (prefix : Keypath) (l : list Keypath) :
  forall i, 0 <= i ->
    exists pre post,
      l = pre ++ scanned prefix false l ++ post /\
      findPrefixRange_loop prefix (-1) i l =
        match scanned prefix false l with
        | [] => (-1, -1)
        | _ => (i + llen pre, i + llen pre + llen (scanned prefix false l))
        end.
Proof.
  induction l as [|k l IH]; intros i Hi; simpl.
  - exists [], []. auto.
  - destruct (StartsWith k prefix) eqn:Hk.
    + destruct (scanned_found prefix l) as (post & Hl & _).
      exists [], post. split; [simpl; congruence|].
      rewrite findPrefixRange_loop_run by lia.
      unfold llen. simpl length. f_equal; lia.
    + simpl. destruct (IH (i + 1)) as (pre & post & Hl & Heq); [lia|].
      exists (k :: pre), post. split; [simpl; congruence|].
      rewrite Heq. destruct (scanned prefix false l); [reflexivity|].
      unfold llen. simpl length. f_equal; lia.
Qed.

Lemma scanned_all (l : list Keypath) (found : bool) : scanned "" found l = l.
Proof.
  revert found. induction l as [|k l IH]; intros found; [reflexivity|].
  simpl. now rewrite IH.
Qed.

Lemma findPrefixRange_scan (t : MemoryNode) (prefix : Keypath) :
  exists pre post,
    keypaths t = pre ++ scanned prefix false (keypaths t) ++ post /\
    findPrefixRange t prefix =
      match scanned prefix false (keypaths t) with
      | [] => if slen prefix =? 0 then (0, 0) else (-1, -1)
      | _ => (llen pre, llen pre + llen (scanned prefix false (keypaths t)))
      end.
Proof.
  unfold findPrefixRange. destruct (slen prefix =? 0) eqn:Hz.
  - apply Z.eqb_eq, Bytes.slen_zero in Hz. subst prefix.
    rewrite scanned_all. exists [], []. rewrite app_nil_r. split; [reflexivity|].
    destruct (keypaths t); [reflexivity|]. unfold llen. simpl length. f_equal; lia.
  - destruct (findPrefixRange_loop_scan prefix (keypaths t) 0) as (pre & post & Hl & Heq);
      [lia|].
    exists pre, post. split; [exact Hl|]. rewrite Heq.
    destruct (scanned prefix false (keypaths t)); [reflexivity|]. f_equal; lia.
Qed.

(** *** The depth-first iterator *)

Lemma drain_step (fuel : nat) (t : MemoryNode) (iter : memoryDepthFirstIterator) :
  drain (S fuel) t iter =
  match Next t iter with
  | NextNil _ => Some []
  | NextNode node iter' =>
      match drain fuel t iter' with
      | Some rest => Some (in_keypath node :: rest)
      | None => None
      end
  | NextPanic _ => None
  end.
Proof. reflexivity. Qed.

Lemma Next_end (t : MemoryNode) (iter : memoryDepthFirstIterator) :
  it_i iter = it_end iter -> Next t iter = NextNil iter.
Proof. intros Heq. unfold Next. now rewrite Heq, Z.eqb_refl. Qed.

Lemma Next_at (t : MemoryNode) (iter : memoryDepthFirstIterator) (x : Keypath) :
  it_i iter <> it_end iter -> 0 <= it_i iter - 1 ->
  keypaths t !! Z.to_nat (it_i iter - 1) = Some x ->
  Next t iter =
    let node := mkIterNode x (in_keypaths (iterNode iter))
                  (in_values (iterNode iter)) (in_nodeTypes (iterNode iter))
                  (in_sliceLengths (iterNode iter)) in
    NextNode node (mkIterator (it_i iter - 1) (it_end iter) (llen (keypaths t)) node).
Proof.
  intros Hne Hpos Hx. unfold Next.
  destruct (Z.eqb_spec (it_i iter) (it_end iter)); [contradiction|].
  destruct (Z.ltb_spec (it_i iter - 1) 0); [lia|]. now rewrite Hx.
Qed.

Lemma drain_run (t : MemoryNode) (pre run post : list Keypath) :
  keypaths t = pre ++ run ++ post ->
  forall j node prevLen, (j <= length run)%nat ->
    drain (S j) t (mkIterator (llen pre + Z.of_nat j) (llen pre) prevLen node)
    = Some (rev (take j run)).
Proof.
  intros Hl. induction j as [|j IH]; intros node prevLen Hj.
  - rewrite drain_step, Next_end; [reflexivity|]. cbn [it_i it_end]. lia.
  - destruct (lookup_lt_is_Some_2 run j) as [x Hx]; [lia|].
    rewrite drain_step, (Next_at _ _ x); cbn [it_i it_end iterNode].
    + replace (llen pre + Z.of_nat (S j) - 1) with (llen pre + Z.of_nat j) by lia.
      rewrite IH by lia. cbn [in_keypath].
      rewrite (take_S_r _ _ _ Hx), rev_app_distr. reflexivity.
    + lia.
    + unfold llen. lia.
    + replace (Z.to_nat (llen pre + Z.of_nat (S j) - 1)) with (length pre + j)%nat
        by (unfold llen; lia).
      rewrite Hl, lookup_app_r by lia.
      replace (length pre + j - length pre)%nat with j by lia.
      now apply lookup_app_l_Some.
Qed.

Lemma drain_more (fuel : nat) :
  forall fuel' t iter r,
    drain fuel t iter = Some r -> (fuel <= fuel')%nat -> drain fuel' t iter = Some r.
Proof.
  induction fuel as [|fuel IH]; intros fuel' t iter r Hd Hle; [discriminate|].
  destruct fuel' as [|fuel']; [lia|].
  rewrite drain_step in *. destruct (Next t iter) as [|node iter'|]; [exact Hd| |exact Hd].
  destruct (drain fuel t iter') as [rest|] eqn:Hrest; [|discriminate].
  rewrite (IH fuel' _ _ _ Hrest) by lia. exact Hd.
Qed.

(** X6: the depth-first iterator yields, from the last to the first, the
    keypaths of the first run under its keypath, which are the keypaths that
    an un-ranged scan of that keypath visits; after them, [Next] gives no
    node.  When no keypath lies under it, the first [Next] gives no node. *)
Theorem iterator_yields_run_reversed (t : MemoryNode) (K : Keypath) :
  drain (S (length (keypaths t))) t (DepthFirstIterator t K)
  = Some (rev (scanned (Push (keypath t) K) false (keypaths t))).
Proof.
  unfold DepthFirstIterator.
  destruct (findPrefixRange_scan t (Push (keypath t) K)) as (pre & post & Hl & ->).
  set (abs := Push (keypath t) K) in *.
  destruct (scanned abs false (keypaths t)) as [|x run] eqn:Hrun.
  - assert (Hnil : forall z node p,
              drain (S (length (keypaths t))) t (mkIterator z z p node) = Some []).
    { intros z node p. now rewrite drain_step, Next_end. }
    destruct (slen abs =? 0); apply Hnil.
  - pose proof (drain_run t pre (x :: run) post Hl (length (x :: run))
                  (mkIterNode "" (keypaths t) (values t) (nodeTypes t) (sliceLengths t))
                  (llen (keypaths t)) (le_n _)) as Hd.
    rewrite firstn_all in Hd.
    replace (llen pre + llen (x :: run))
      with (llen pre + Z.of_nat (length (x :: run))) by reflexivity.
    apply (drain_more _ _ _ _ _ Hd).
    rewrite Hl, !length_app. lia.
Qed.

(** *** [SeekTo] *)

Lemma seekFrom_found (k : Keypath) (l : list Keypath) (d : Z) :
  forall i j,
    (j < i)%nat -> l !! j = Some k ->
    (forall idx, (j < idx < i)%nat -> l !! idx <> Some k) ->
    seekFrom k i l d = Z.of_nat j.
Proof.
  induction i as [|i IH]; intros j Hj Hk Hlast; [lia|]. cbn [seekFrom].
  destruct (decide (j = i)) as [->|Hne].
  - rewrite Hk, String.eqb_refl. reflexivity.
  - destruct (l !! i) as [kp|] eqn:Hi.
    + destruct (String.eqb_spec kp k) as [->|_].
      * exfalso. apply (Hlast i); [lia|exact Hi].
      * apply IH; [lia|exact Hk|]. intros idx Hidx. apply Hlast. lia.
    + apply IH; [lia|exact Hk|]. intros idx Hidx. apply Hlast. lia.
Qed.

Lemma seekFrom_absent (k : Keypath) (l : list Keypath) (d : Z) :
  k ∉ l -> forall i, seekFrom k i l d = d.
Proof.
  intros Hk. induction i as [|i IH]; [reflexivity|]. cbn [seekFrom].
  destruct (l !! i) as [kp|] eqn:Hi; [|exact IH].
  destruct (String.eqb_spec kp k) as [->|_]; [|exact IH].
  exfalso. apply Hk. eapply list_elem_of_lookup_2. exact Hi.
Qed.

(** X7: [SeekTo] and the [Next] after it.  [SeekTo(k)] puts the iterator on
    the last occurrence of [k] in the keypath list.  When the index of that
    occurrence is the iterator's end, the [Next] that follows gives no node.
    Otherwise it steps back first, so that it yields the keypath just before
    that occurrence, and panics on the index when there is none before it.
    When [k] is not in the list, the iterator is at its end and [Next] gives
    no node. *)
Theorem seek_then_next (t : MemoryNode) (iter : memoryDepthFirstIterator)
    (k : Keypath) (pre post : list Keypath) :
  keypaths t = pre ++ k :: post -> k ∉ post ->
  it_i (SeekTo t iter k) = llen pre /\
  Next t (SeekTo t iter k) =
    (if llen pre =? it_end iter then NextNil (SeekTo t iter k)
     else
       match last pre with
       | Some p =>
           let node := mkIterNode p (in_keypaths (iterNode iter))
                         (in_values (iterNode iter)) (in_nodeTypes (iterNode iter))
                         (in_sliceLengths (iterNode iter)) in
           NextNode node
             (mkIterator (llen pre - 1) (it_end iter) (llen (keypaths t)) node)
       | None => NextPanic "index out of range"
       end) /\
  (forall k', k' ∉ keypaths t ->
     Next t (SeekTo t iter k') = NextNil (SeekTo t iter k')).
Proof.
  intros Hl Hpost.
  assert (Hseek : it_i (SeekTo t iter k) = llen pre).
  { unfold SeekTo. cbn [it_i]. unfold llen.
    apply seekFrom_found.
    - rewrite Hl, length_app. simpl. lia.
    - rewrite Hl. now rewrite list_lookup_middle.
    - intros idx Hidx Hk. rewrite Hl in Hk.
      rewrite lookup_app_r in Hk by lia.
      destruct (idx - length pre)%nat as [|m] eqn:Hm; [lia|]. simpl in Hk.
      apply Hpost. eapply list_elem_of_lookup_2. exact Hk. }
  split; [exact Hseek|]. split.
  - destruct (Z.eqb_spec (llen pre) (it_end iter)) as [Hend|Hne].
    { apply Next_end. rewrite Hseek. exact Hend. }
    destruct (last pre) as [p|] eqn:Hlast.
    + rewrite (Next_at _ _ p).
      * cbn zeta. rewrite Hseek. reflexivity.
      * now rewrite Hseek.
      * rewrite Hseek. apply last_Some in Hlast as (pre' & ->).
        unfold llen. rewrite length_app. simpl. lia.
      * rewrite Hseek. apply last_Some in Hlast as (pre' & ->).
        unfold llen. rewrite Hl, length_app. simpl length.
        replace (Z.to_nat (Z.of_nat (length pre' + 1) - 1)) with (length pre') by lia.
        rewrite <- !app_assoc. cbn [app]. now apply list_lookup_middle.
    + apply last_None in Hlast. subst pre. unfold Next. rewrite Hseek.
      unfold llen in *. simpl length in *. cbn [SeekTo it_end].
      change (Z.of_nat 0) with 0 in *.
      destruct (Z.eqb_spec 0 (it_end iter)); [contradiction|]. reflexivity.
  - intros k' Hk'. apply Next_end. unfold SeekTo. cbn [it_i it_end].
    now apply seekFrom_absent.
Qed.

(** On the tree [{a: {b: 1}}], whose keypaths are the root, [a] and [a/b]: the
    iterator over the whole tree, sent to [a/b], yields [a]; sent to the
    root, whose index is its end, it gives no node. *)
Lemma seek_then_next_witness :
  let t := resNode Scenario.mapAtA in
  let iter := DepthFirstIterator t "" in
  (it_i (SeekTo t iter "a/b") = llen [""; "a"] /\
   Next t (SeekTo t iter "a/b") =
     (if llen [""; "a"] =? it_end iter then NextNil (SeekTo t iter "a/b")
      else
        match last [""; "a"] with
        | Some p =>
            let node := mkIterNode p (in_keypaths (iterNode iter))
                          (in_values (iterNode iter)) (in_nodeTypes (iterNode iter))
                          (in_sliceLengths (iterNode iter)) in
            NextNode node
              (mkIterator (llen [""; "a"] - 1) (it_end iter) (llen (keypaths t)) node)
        | None => NextPanic "index out of range"
        end) /\
   (forall k', k' ∉ keypaths t ->
      Next t (SeekTo t iter k') = NextNil (SeekTo t iter k'))) /\
  in_keypath (match Next t (SeekTo t iter "a/b") with
              | NextNode node _ => node
              | _ => iterNode iter
              end) = "a" /\
  Next t (SeekTo t iter "") = NextNil (SeekTo t iter "").
Proof.
  intros t iter. split.
  - apply (seek_then_next t iter "a/b" [""; "a"] []).
    + vm_compute. reflexivity.
    + apply not_elem_of_nil.
  - split; vm_compute; reflexivity.
Defined.

(** *** Copies *)

Lemma copyEntry_lookup (ov : gmap string Value) (ot : gmap string NodeType)
    (os : gmap string Z) (acc : gmap string Value * gmap string NodeType * gmap string Z)
    (kp k : Keypath) :
  (copyEntry ov ot os acc kp).1.1 !! k =
    (if bool_decide (k = kp) then Some (default VNil (ov !! k)) else acc.1.1 !! k) /\
  (copyEntry ov ot os acc kp).1.2 !! k =
    (if bool_decide (k = kp) then Some (default NodeTypeInvalid (ot !! k))
     else acc.1.2 !! k) /\
  (copyEntry ov ot os acc kp).2 !! k =
    (if bool_decide (k = kp) &&
        bool_decide (default NodeTypeInvalid (ot !! k) = NodeTypeSlice)
     then Some (default 0 (os !! k))
     else acc.2 !! k).
Proof.
  destruct acc as [[vs ts] ss]. unfold copyEntry. cbn [fst snd].
  rewrite lookup_insert_eq. cbn [default].
  case_bool_decide as Hk.
  - subst k. rewrite !lookup_insert_eq. cbn [andb].
    case_bool_decide as Hs; unfold id in Hs; cbn [fst snd];
      rewrite ?lookup_insert_eq;
      [rewrite (bool_decide_eq_true_2 _ Hs)|rewrite (bool_decide_eq_false_2 _ Hs)];
      auto.
  - rewrite !lookup_insert_ne by congruence. cbn [andb].
    case_bool_decide; cbn [fst snd]; rewrite ?lookup_insert_ne by congruence; auto.
Qed.

Lemma copyEntry_fold (ov : gmap string Value) (ot : gmap string NodeType)
    (os : gmap string Z) (kps : list Keypath) :
  forall acc k,
    (foldl (copyEntry ov ot os) acc kps).1.1 !! k =
      (if bool_decide (k ∈ kps) then Some (default VNil (ov !! k))
       else acc.1.1 !! k) /\
    (foldl (copyEntry ov ot os) acc kps).1.2 !! k =
      (if bool_decide (k ∈ kps) then Some (default NodeTypeInvalid (ot !! k))
       else acc.1.2 !! k) /\
    (foldl (copyEntry ov ot os) acc kps).2 !! k =
      (if bool_decide (k ∈ kps) &&
          bool_decide (default NodeTypeInvalid (ot !! k) = NodeTypeSlice)
       then Some (default 0 (os !! k))
       else acc.2 !! k).
Proof.
  induction kps as [|kp kps IH]; intros acc k.
  - cbn [foldl]. rewrite bool_decide_eq_false_2 by apply not_elem_of_nil. auto.
  - cbn [foldl]. destruct (IH (copyEntry ov ot os acc kp) k) as (-> & -> & ->).
    destruct (copyEntry_lookup ov ot os acc kp k) as (-> & -> & ->).
    destruct (decide (k ∈ kps)) as [Hin|Hin];
      destruct (decide (k = kp)) as [Heq|Hne];
      rewrite ?(bool_decide_eq_true_2 (k ∈ kps) Hin),
        ?(bool_decide_eq_false_2 (k ∈ kps) Hin),
        ?(bool_decide_eq_true_2 (k = kp) Heq),
        ?(bool_decide_eq_false_2 (k = kp) Hne);
      [rewrite (bool_decide_eq_true_2 (k ∈ kp :: kps)) by (now right)
      |rewrite (bool_decide_eq_true_2 (k ∈ kp :: kps)) by (now right)
      |rewrite (bool_decide_eq_true_2 (k ∈ kp :: kps)) by (subst; now left)
      |rewrite (bool_decide_eq_false_2 (k ∈ kp :: kps)) by set_solver];
      cbn [andb]; repeat split; try reflexivity;
      destruct (bool_decide (default NodeTypeInvalid (ot !! k) = NodeTypeSlice));
      reflexivity.
Qed.

(** The keypaths that [makeCopy] keeps are the first run under the keypath
    of the node. *)
Lemma makeCopy_keypaths (t : MemoryNode) :
  (let '(start, end_) :=
     if 0 <? slen (keypath t) then findPrefixRange t (keypath t)
     else (0, llen (keypaths t)) in
   let '(start, end_) := if start =? -1 then (0, 0) else (start, end_) in
   slice (keypaths t) start end_) = scanned (keypath t) false (keypaths t).
Proof.
  destruct (Z.ltb_spec 0 (slen (keypath t))) as [Hpos|Hz].
  - destruct (findPrefixRange_scan t (keypath t)) as (pre & post & Hl & ->).
    destruct (scanned (keypath t) false (keypaths t)) as [|x run] eqn:Hrun.
    + destruct (Z.eqb_spec (slen (keypath t)) 0); [lia|]. reflexivity.
    + destruct (Z.eqb_spec (llen pre) (-1)); [unfold llen in *; lia|].
      rewrite Hl. apply slice_mid.
  - assert (keypath t = "") as ->.
    { apply Bytes.slen_zero. pose proof (Bytes.slen_nonneg (keypath t)). lia. }
    rewrite scanned_all. cbn [Z.eqb]. apply slice_all.
Qed.

(** What [makeCopy] leaves in the maps of the node. *)
Lemma makeCopy_views (t : MemoryNode) (h : Heap) :
  exists n' h',
    makeCopy t h = Ok tt n' h' /\
    keypath n' = keypath t /\ rng n' = rng t /\ copied n' = false /\
    keypaths n' = scanned (keypath t) false (keypaths t) /\
    (forall k, valuesAt h' (values n') !! k =
               if bool_decide (k ∈ keypaths n') then Some (valueOf h t k) else None) /\
    (forall k, nodeTypesAt h' (nodeTypes n') !! k =
               if bool_decide (k ∈ keypaths n') then Some (nodeTypeOf h t k)
               else None) /\
    (forall k, sliceLengthsAt h' (sliceLengths n') !! k =
               if bool_decide (k ∈ keypaths n') &&
                  bool_decide (nodeTypeOf h t k = NodeTypeSlice)
               then Some (sliceLengthOf h t k) else None) /\
    diffAt h' (diff n') = diffAt h (diff t).
Proof.
  pose proof (makeCopy_keypaths t) as Hkps.
  pose proof (copyEntry_fold (valuesAt h (values t)) (nodeTypesAt h (nodeTypes t))
                (sliceLengthsAt h (sliceLengths t))
                (scanned (keypath t) false (keypaths t)) (∅, ∅, ∅)) as Hfold.
  unfold makeCopy. unfoldM. simpl.
  destruct (if 0 <? slen (keypath t) then _ else _) as [start end_].
  destruct (if start =? -1 then _ else _) as [start' end'].
  rewrite Hkps.
  destruct (foldl _ _ _) as [[vs ts] ss]. cbn [fst snd] in Hfold. simpl.
  eexists _, _. split; [reflexivity|]. simpl.
  unfold valuesAt, nodeTypesAt, sliceLengthsAt, diffAt. simpl.
  rewrite !lookup_insert_eq. simpl.
  repeat split; try (intros k; destruct (Hfold k) as (Hv & Ht & Hs));
    rewrite ?Hv, ?Ht, ?Hs, ?lookup_empty; reflexivity.
Qed.

(** X8: what a copy holds.  [CopyToMemory(K, nil)] on a cursor without a range
    returns a node at [K] whose keypaths are the first run of keypaths under
    [K] (none when nothing lies under [K]), and leaves the receiver as it is.
    At each of these keypaths the typed readers and the node type give through
    the copy what they give through the original; at every other keypath the
    copy has no value and no node type. *)
Theorem copy_holds_the_run (K : Keypath) (t : MemoryNode) (h : Heap) :
  rng t = None ->
  exists c h1,
    CopyToMemory K None t h = Ok (Some c, None) t h1 /\
    keypath c = Push (keypath t) K /\ rng c = None /\
    keypaths c = scanned (Push (keypath t) K) false (keypaths t) /\
    (forall rel, Push (keypath c) rel ∈ keypaths c ->
       StringValue c h1 rel = StringValue t h (Push K rel) /\
       UintValue c h1 rel = UintValue t h (Push K rel) /\
       IntValue c h1 rel = IntValue t h (Push K rel) /\
       FloatValue c h1 rel = FloatValue t h (Push K rel) /\
       nodeTypeOf h1 c (Push (keypath c) rel) =
         nodeTypeOf h t (Push (keypath c) rel)) /\
    (forall rel, Push (keypath c) rel ∉ keypaths c ->
       Exists c h1 rel = (false, None) /\
       NodeInfo (AtKeypath c rel None) h1 =
         (NodeTypeInvalid, ValueTypeInvalid, 0, Some Err404)).
Proof.
  intros Hr. unfold CopyToMemory, resolveRange. unfoldM. rewrite Hr.
  cbn [rangeInvalid].
  set (cpy := mkNode (Push (keypath t) K) None (keypaths t) (values t)
                (nodeTypes t) (sliceLengths t) false (diff t)).
  destruct (makeCopy_views cpy h)
    as (c & h1 & -> & Hkp & Hrng & _ & Hkps & Hv & Ht & _ & _).
  exists c, h1. split; [reflexivity|].
  split; [exact Hkp|]. split; [exact Hrng|]. split; [exact Hkps|].
  cbn [keypath] in Hkp. split.
  - intros rel Hin.
    unfold StringValue, UintValue, IntValue, FloatValue, nodeTypeOf.
    rewrite Hv, Ht, (bool_decide_eq_true_2 _ Hin).
    rewrite Hkp, <- !Push_assoc.
    unfold valueOf, nodeTypeOf. cbn [values nodeTypes cpy default].
    destruct (valuesAt h (values t) !! _) as [v|]; [|auto].
    cbn [default]. auto.
  - intros rel Hnin.
    unfold Exists, NodeInfo, AtKeypath, nodeTypeOf. cbn [keypath values nodeTypes].
    rewrite Hv, Ht, (bool_decide_eq_false_2 _ Hnin). cbn [default].
    split; [|reflexivity].
    rewrite bool_decide_eq_false_2; [reflexivity|]. intros [? ?]. discriminate.
Qed.

Lemma copy_holds_the_run_witness :
  let t := resNode Scenario.mapAtA in
  let h := resHeap Scenario.mapAtA in
  exists c h1,
    CopyToMemory "a" None t h = Ok (Some c, None) t h1 /\
    keypath c = Push (keypath t) "a" /\ rng c = None /\
    keypaths c = scanned (Push (keypath t) "a") false (keypaths t) /\
    (forall rel, Push (keypath c) rel ∈ keypaths c ->
       StringValue c h1 rel = StringValue t h (Push "a" rel) /\
       UintValue c h1 rel = UintValue t h (Push "a" rel) /\
       IntValue c h1 rel = IntValue t h (Push "a" rel) /\
       FloatValue c h1 rel = FloatValue t h (Push "a" rel) /\
       nodeTypeOf h1 c (Push (keypath c) rel) =
         nodeTypeOf h t (Push (keypath c) rel)) /\
    (forall rel, Push (keypath c) rel ∉ keypaths c ->
       Exists c h1 rel = (false, None) /\
       NodeInfo (AtKeypath c rel None) h1 =
         (NodeTypeInvalid, ValueTypeInvalid, 0, Some Err404)).
Proof.
  intros t h. apply copy_holds_the_run. vm_compute. reflexivity.
Defined.

End TreeScans.

(** ** The state tree: readers and ranged deletes *)

Module TreeReads.

Import Tree Spec Views TreeQueries TreeRuns TreeScans.

(** *** [ContentLength] *)

Lemma to_int64_to_uint64 (z : Z) : to_int64 (to_uint64 z) = to_int64 z.
Proof.
  unfold to_int64, to_uint64. now rewrite Zplus_mod_idemp_l.
Qed.

(** X9: [ContentLength] never returns an error.  It gives, as an [int64], the
    length that [NodeInfo] reports for the node, and 0 where [NodeInfo] fails
    (no node at the keypath, or a value node without a value). *)
Theorem content_length_of_node_info (n : MemoryNode) (h : Heap) :
  ContentLength n h =
  (match NodeInfo n h with
   | (_, _, len, None) => to_int64 len
   | (_, _, _, Some _) => 0
   end, None).
Proof.
  unfold ContentLength, NodeInfo, valueOf.
  destruct (nodeTypeOf h n (keypath n)); try reflexivity.
  - destruct (valuesAt h (values n) !! keypath n) as [v|]; [|reflexivity].
    destruct v; reflexivity.
  - now rewrite to_int64_to_uint64.
Qed.

(** *** [Subkeys] *)

Lemma scanList_pure {Acc : Type} (g : Acc -> Keypath -> Acc)
    (fn : Acc -> Keypath -> Z -> M (option error * Acc)) (prefix : Keypath)
    (l : list Keypath) :
  (forall acc kp i n h, fn acc kp i n h = Ok (None, g acc kp) n h) ->
  forall found i acc n h,
    scanList fn prefix found i l acc n h =
      Ok (None, foldl g acc (scanned prefix found l)) n h.
Proof.
  intros Hfn. induction l as [|kp l IH]; intros found i acc n h; [reflexivity|].
  cbn [scanList scanned]. destruct (StartsWith kp prefix).
  - rewrite (TreeFacts.bind_Ok _ _ _ _ _ _ _ (Hfn acc kp i n h)). cbn [fst snd foldl].
    apply IH.
  - destruct found; [reflexivity|apply IH].
Qed.

Lemma subkeyVisited_step (root : Keypath) (acc : list Keypath * gset string)
    (kp : Keypath) (i : Z) (n : MemoryNode) (h : Heap) :
  subkeyVisited root acc kp i n h = Ok (None, subkeyStep root acc kp) n h.
Proof.
  destruct acc as [ks m]. unfold subkeyVisited, subkeyStep. cbn [fst snd].
  destruct (negb _ && _); reflexivity.
Qed.

Lemma subkeys_fold (root : Keypath) (run : list Keypath) :
  forall acc,
    NoDup (fst acc) -> (forall k, k ∈ snd acc <-> k ∈ fst acc) ->
    let r := foldl (subkeyStep root) acc run in
    NoDup (fst r) /\ (forall k, k ∈ snd r <-> k ∈ fst r) /\
    (forall k, k ∈ fst r <->
       k ∈ fst acc \/
       (k <> "" /\ exists kp, kp ∈ run /\ k = Part (RelativeTo kp root) 0)).
Proof.
  induction run as [|kp run IH]; intros acc Hnd Hset; cbn [foldl].
  - split; [exact Hnd|]. split; [exact Hset|]. intros k. split; [auto|].
    intros [?|(_ & kp & Hin & _)]; [auto|inversion Hin].
  - set (sub := Part (RelativeTo kp root) 0).
    assert (Hstep : NoDup (fst (subkeyStep root acc kp)) /\
                    (forall k, k ∈ snd (subkeyStep root acc kp) <->
                               k ∈ fst (subkeyStep root acc kp)) /\
                    (forall k, k ∈ fst (subkeyStep root acc kp) <->
                               k ∈ fst acc \/ (k <> "" /\ k = sub))).
    { unfold subkeyStep. fold sub. destruct acc as [ks m]. cbn [fst snd] in *.
      case_bool_decide as Hin; cbn [negb andb].
      - cbn [fst snd]. split; [exact Hnd|]. split; [exact Hset|].
        intros k. split; [auto|]. intros [?|(_ & ->)]; [auto|]. now apply Hset.
      - destruct (Z.ltb_spec 0 (slen sub)) as [Hpos|Hz]; cbn [fst snd].
        + split; [|split].
          * apply NoDup_app. split; [exact Hnd|]. split; [|apply NoDup_singleton].
            intros x Hx Hx'. apply list_elem_of_singleton in Hx'. subst x.
            apply Hin. now apply Hset.
          * intros k. rewrite elem_of_union, elem_of_app, Hset. set_solver.
          * intros k. rewrite elem_of_app, list_elem_of_singleton.
            split; [|intros [?|(_ & ->)]; auto].
            intros [? | ->]; [auto|].
            right. split; [|reflexivity]. intros Hs. rewrite Hs in Hpos.
            unfold slen in Hpos. simpl in Hpos. lia.
        + split; [exact Hnd|]. split; [exact Hset|].
          intros k. split; [auto|]. intros [?|(Hne & ->)]; [auto|]. exfalso. apply Hne.
          apply Bytes.slen_zero. pose proof (Bytes.slen_nonneg sub). lia. }
    destruct Hstep as (Hnd1 & Hset1 & Hin1).
    destruct (IH _ Hnd1 Hset1) as (Hnd' & Hset' & Hin').
    split; [exact Hnd'|]. split; [exact Hset'|].
    intros k. rewrite Hin', Hin1. split.
    + intros [[?|(Hne & ->)]|(Hne & kp' & Hkp' & ->)]; auto.
      * right. split; [exact Hne|]. exists kp. split; [now left|reflexivity].
      * right. split; [exact Hne|]. exists kp'. split; [now right|reflexivity].
    + intros [?|(Hne & kp' & Hkp' & ->)]; auto.
      apply elem_of_cons in Hkp' as [->|Hkp']; [left; right; auto|].
      right. split; [exact Hne|]. eauto.
Qed.

(** X10: [Subkeys] lists each subkey once.  Its result has no duplicates and no
    empty entry, and holds exactly the non-empty first segments, relative to
    the node's keypath, of the keypaths that the scan of the node's keypath
    visits; the tree is left as it is. *)
Theorem subkeys_distinct (n : MemoryNode) (h : Heap) :
  exists ks,
    Subkeys n h = Ok ks n h /\
    NoDup ks /\
    forall k, k ∈ ks <->
      k <> "" /\
      exists kp, kp ∈ scanned (keypath n) false (keypaths n) /\
                 k = Part (RelativeTo kp (keypath n)) 0.
Proof.
  unfold Subkeys, scanKeypathsWithPrefix. unfoldM.
  rewrite (scanList_pure (subkeyStep (keypath n)) _ _ _ (subkeyVisited_step (keypath n))).
  cbn [fst snd].
  destruct (subkeys_fold (keypath n) (scanned (keypath n) false (keypaths n)) ([], ∅))
    as (Hnd & _ & Hin).
  - constructor.
  - intros k. cbn [fst snd]. set_solver.
  - eexists. split; [reflexivity|]. split; [exact Hnd|].
    intros k. rewrite Hin. cbn [fst]. split.
    + intros [Hk|?]; [inversion Hk|assumption].
    + auto.
Qed.

(** *** [Delete] and its errors *)

Lemma removeScanned_no_error (abs : Keypath) (rng : option Range)
    (n n' : MemoryNode) (h h' : Heap) (e : error) :
  removeScanned abs rng n h = Ok (Some e) n' h' -> False.
Proof.
  unfold removeScanned. unfoldM.
  destruct (scanKeypathsWithPrefix abs rng deleteVisited (-1, -1) n h)
    as [[err [s1 e1]] n1 h1|]; [|discriminate].
  cbn [snd]. destruct (-1 <? s1); simpl; discriminate.
Qed.

Lemma Delete_resolved (K : Keypath) (rng0 : option Range) (n : MemoryNode)
    (h : Heap) (e : error) (n' : MemoryNode) (h' : Heap) (r : Range) :
  copied n = false ->
  (if negb (Range_Valid r) then mret (Some ErrInvalidRange)
   else
     checkCopied;;
     n ← getNode;
     h ← getHeap;
     let absKeypath := Push (Tree.keypath n) K in
     if negb (Range_Valid r) then mret (Some ErrInvalidRange)
     else
       match nodeTypeOf h n absKeypath with
       | NodeTypeSlice =>
           setSliceLength absKeypath
             (to_int64 (sliceLengthOf h n absKeypath - to_int64 (Range_Size r)));;
           removeScanned absKeypath (Some r)
       | NodeTypeValue =>
           match valueOf h n absKeypath with
           | VString s =>
               if negb (Range_ValidForLength r (to_uint64 (slen s))) then
                 mret (Some ErrInvalidRange)
               else
                 let '(startIdx, endIdx) :=
                   Range_IndicesForLength r (to_uint64 (slen s)) in
                 setValue absKeypath
                   (VString (ssub s 0 startIdx +:+ ssub s endIdx (slen s)));;
                 mret None
           | _ => mret (Some ErrRangeOverNonSlice)
           end
       | _ => mret (Some ErrRangeOverNonSlice)
       end) n h = Ok (Some e) n' h' ->
  n' = n /\ h' = h /\ (e = ErrInvalidRange \/ e = ErrRangeOverNonSlice).
Proof.
  intros Hc. destruct (Range_Valid r); cbn [negb].
  2:{ unfoldM. intros [= <- <- <-]. auto. }
  rewrite (TreeFacts.bind_Ok _ _ _ _ _ _ _ (checkCopied_not n h Hc)).
  unfoldM. destruct (nodeTypeOf h n (Push (keypath n) K)).
  - intros [= <- <- <-]. auto.
  - destruct (valueOf h n (Push (keypath n) K)); try (intros [= <- <- <-]; auto).
    destruct (Range_ValidForLength r (to_uint64 (slen s))); cbn [negb].
    + unfold Range_IndicesForLength, setValue. discriminate.
    + intros [= <- <- <-]. auto.
  - intros [= <- <- <-]. auto.
  - unfold setSliceLength. intros Hrem. now apply removeScanned_no_error in Hrem.
Qed.

(** X11: a [Delete] that returns an error has changed nothing.  The error is
    [ErrInvalidRange] or [ErrRangeOverNonSlice], and the node and the maps are
    as they were before the call. *)
Theorem delete_error_changes_nothing (K : Keypath) (rng0 : option Range)
    (n : MemoryNode) (h : Heap) (e : error) (n' : MemoryNode) (h' : Heap) :
  copied n = false ->
  Delete K rng0 n h = Ok (Some e) n' h' ->
  n' = n /\ h' = h /\ (e = ErrInvalidRange \/ e = ErrRangeOverNonSlice).
Proof.
  intros Hc. unfold Delete.
  destruct rng0 as [r|]; destruct (rng n) as [rn|] eqn:Hrn.
  - assert (Hres : resolveRange (Some r) n h = Panic "unsupported" n h).
    { unfold resolveRange. unfoldM. now rewrite Hrn. }
    unfold mbind, M_bind, bind at 1. rewrite Hres. discriminate.
  - assert (Hres : resolveRange (Some r) n h = Ok (Some r) n h).
    { unfold resolveRange. unfoldM. now rewrite Hrn. }
    rewrite (TreeFacts.bind_Ok _ _ _ _ _ _ _ Hres).
    apply (Delete_resolved K (Some r)); exact Hc.
  - assert (Hres : resolveRange None n h = Ok (Some rn) n h).
    { unfold resolveRange. unfoldM. now rewrite Hrn. }
    rewrite (TreeFacts.bind_Ok _ _ _ _ _ _ _ Hres).
    apply (Delete_resolved K None); exact Hc.
  - assert (Hres : resolveRange None n h = Ok None n h).
    { unfold resolveRange. unfoldM. now rewrite Hrn. }
    rewrite (TreeFacts.bind_Ok _ _ _ _ _ _ _ Hres). cbn [rangeInvalid].
    rewrite (TreeFacts.bind_Ok _ _ _ _ _ _ _ (checkCopied_not n h Hc)).
    unfoldM. unfold deleteSliceLength.
    intros Hrem. now apply removeScanned_no_error in Hrem.
Qed.

Lemma delete_error_changes_nothing_witness :
  let t := resNode Scenario.mapAtA in
  let h := resHeap Scenario.mapAtA in
  Delete "a" (Some (mkRange 0 1)) t h = Ok (Some ErrRangeOverNonSlice) t h /\
  (t = t /\ h = h /\
   (ErrRangeOverNonSlice = ErrInvalidRange \/
    ErrRangeOverNonSlice = ErrRangeOverNonSlice)).
Proof.
  intros t h.
  assert (Hrun : Delete "a" (Some (mkRange 0 1)) t h
                 = Ok (Some ErrRangeOverNonSlice) t h)
    by (vm_compute; reflexivity).
  split; [exact Hrun|].
  apply (delete_error_changes_nothing "a" (Some (mkRange 0 1)) t h
           ErrRangeOverNonSlice t h); [vm_compute; reflexivity|exact Hrun].
Defined.

(** *** [Delete] with a range on a string *)

Lemma length_substring (n m : nat) (s : string) :
  (n + m <= String.length s)%nat -> String.length (String.substring n m s) = m.
Proof.
  revert n m. induction s as [|a s IH]; intros n m Hle; simpl in Hle.
  - assert (n = 0%nat /\ m = 0%nat) as [-> ->] by lia. reflexivity.
  - destruct n as [|n]; simpl.
    + destruct m as [|m]; [reflexivity|]. simpl. rewrite IH; lia.
    + apply IH. lia.
Qed.

Lemma slen_ssub (s : string) (a b : Z) :
  0 <= a <= b -> b <= slen s -> slen (ssub s a b) = b - a.
Proof.
  intros Hab Hb. unfold slen, ssub in *. rewrite length_substring; lia.
Qed.

(** X12: [Delete] with a range on a string splices the range out.  On a cursor
    without a range, for a string of length [L] at [K] and a range [[a, b)]
    with [0 <= a <= b <= L], [Delete(K, [a, b))] returns no error, leaves the
    keypaths as they are, and the string read back at [K] is the old one
    without the bytes [a] to [b - 1]; its length is [L - (b - a)]. *)
Theorem delete_range_splices_string (K : Keypath) (r : Range) (n : MemoryNode)
    (h : Heap) (s : string) :
  rng n = None -> copied n = false ->
  nodeTypeOf h n (Push (keypath n) K) = NodeTypeValue ->
  valuesAt h (values n) !! Push (keypath n) K = Some (VString s) ->
  0 <= r_start r <= r_end r -> r_end r <= slen s -> slen s < 2 ^ 64 ->
  exists h',
    Delete K (Some r) n h = Ok None n h' /\
    StringValue n h' K =
      (ssub s 0 (r_start r) +:+ ssub s (r_end r) (slen s), true, None) /\
    slen (ssub s 0 (r_start r) +:+ ssub s (r_end r) (slen s)) =
      slen s - (r_end r - r_start r).
Proof.
  intros Hr Hc Hnt Hv Hab Hb Hlen.
  assert (Hres : resolveRange (Some r) n h = Ok (Some r) n h).
  { unfold resolveRange. unfoldM. now rewrite Hr. }
  assert (Hvalid : Range_Valid r = true) by (unfold Range_Valid; lia).
  assert (Hu : forall z, 0 <= z < 2 ^ 64 -> to_uint64 z = z).
  { intros z Hz. unfold to_uint64. now apply Z.mod_small. }
  pose proof (Bytes.slen_nonneg s) as Hs0.
  assert (Hvl : Range_ValidForLength r (to_uint64 (slen s)) = true).
  { unfold Range_ValidForLength. rewrite Hvalid, Hu by lia. cbn [andb].
    apply andb_true_iff. split; lia. }
  unfold Delete. rewrite (TreeFacts.bind_Ok _ _ _ _ _ _ _ Hres).
  cbn [rangeInvalid]. rewrite Hvalid. cbn [negb].
  rewrite (TreeFacts.bind_Ok _ _ _ _ _ _ _ (checkCopied_not n h Hc)).
  unfoldM. rewrite Hnt. unfold valueOf. rewrite Hv. cbn [default]. unfold id.
  rewrite Hvl. cbn [negb]. unfold Range_IndicesForLength.
  rewrite !Hu by lia. unfold setValue.
  eexists. split; [reflexivity|]. split.
  - unfold StringValue. rewrite valuesAt_setValuesAt, lookup_insert_eq. reflexivity.
  - rewrite Bytes.slen_app, !slen_ssub; lia.
Qed.

Lemma delete_range_splices_string_witness :
  let r0 := Set_ "title" None (VString "hello world")
              (fst (NewMemoryNode emptyHeap)) (snd (NewMemoryNode emptyHeap)) in
  let n := resNode r0 in
  let h := resHeap r0 in
  exists h',
    Delete "title" (Some (mkRange 5 11)) n h = Ok None n h' /\
    StringValue n h' "title" =
      (ssub "hello world" 0 5 +:+ ssub "hello world" 11 (slen "hello world"),
       true, None) /\
    slen (ssub "hello world" 0 5 +:+ ssub "hello world" 11 (slen "hello world")) =
      slen "hello world" - (11 - 5).
Proof.
  intros r0 n h.
  apply (delete_range_splices_string "title" (mkRange 5 11) n h "hello world").
  - vm_compute. reflexivity.
  - vm_compute. reflexivity.
  - vm_compute. reflexivity.
  - vm_compute. reflexivity.
  - simpl. lia.
  - vm_compute. discriminate.
  - vm_compute. reflexivity.
Defined.

End TreeReads.

(** ** Transactions: what the hash covers *)

Module HashFacts.

Import Txs.

Section WithPrimitives.
Context `{Primitives}.



End WithPrimitives.

End HashFacts.

(** ** The controller: duplicates and the mempool *)

Module MempoolFacts.

Import Txs Ctrl Spec.

Section WithEnvironment.
Context `{Primitives} `{Extrinsics}.

(** The tx store of the spec, whose calls do not fail, is one store among
    those of [Admission]: over it, with a context that is not done,
    [Admission.AddTx] is [Ctrl.AddTx]. *)
Lemma AddTx_over_spec_store (store : TxStore) (c : controller) (tx : Tx) :
  Admission.AddTx TxStore (fun s uri id => inr (TxStore_TxExists s uri id))
    (fun s tx => (None, TxStore_AddTx s tx)) store c false tx
  = AddTx store c tx.
Proof.
  unfold Admission.AddTx, AddTx, Admission.addToMempool.
  now destruct (TxStore_TxExists store (stateURI c) (ID tx)).
Qed.

Section WithStore.
Variable Store : Type.
Variable txStore_TxExists : Store -> string -> types.ID -> error + bool.
Variable txStore_AddTx : Store -> Tx -> option error * Store.

(** X14: the first tx with an ID wins, over a store that can fail.  [AddTx]
    returns an error only when a call of the store returns it ([TxExists], or
    [AddTx] for a tx that is new), and puts nothing on the mempool channel
    then.  A tx whose ID the store reports as known is dropped: no error, and
    the store, the channel and the tx are as they were.  A new tx gets [Valid]
    set to false, whatever the caller had set, before the store sees it, and
    when the store takes it, it is put on the channel once, unless the context
    is done.  [AddTx] never touches the mempool list or the leaves.  Once the
    store reports the tx as known, a later [AddTx] with the same ID returns no
    error and leaves the store and the controller as they are. *)
Theorem first_tx_wins (store : Store) (c : controller) (done done2 : bool)
    (tx tx2 : Tx) :
  ID tx2 = ID tx ->
  let r := Admission.AddTx Store txStore_TxExists txStore_AddTx store c done tx in
  let store' := fst (snd r) in
  let c' := snd (snd r) in
  (forall err, fst (fst r) = Some err ->
     c' = c /\
     ((txStore_TxExists store (stateURI c) (ID tx) = inl err /\ store' = store) \/
      (txStore_TxExists store (stateURI c) (ID tx) = inr false /\
       txStore_AddTx store (setValid tx false) = (Some err, store')))) /\
  (txStore_TxExists store (stateURI c) (ID tx) = inr true ->
     r = (None, tx, (store, c))) /\
  (txStore_TxExists store (stateURI c) (ID tx) = inr false ->
     snd (fst r) = setValid tx false /\
     (fst (fst r) = None ->
        txStore_AddTx store (setValid tx false) = (None, store') /\
        chMempool c' =
          if done then chMempool c else chMempool c ++ [setValid tx false])) /\
  (exists new, chMempool c' = chMempool c ++ new /\
               (new = [] \/ new = [setValid tx false])) /\
  mempool c' = mempool c /\ leaves c' = leaves c /\ stateURI c' = stateURI c /\
  (txStore_TxExists store' (stateURI c) (ID tx) = inr true ->
     Admission.AddTx Store txStore_TxExists txStore_AddTx store' c' done2 tx2
     = (None, tx2, (store', c'))).
Proof.
  intros Hid r store' c'. subst r store' c'. unfold Admission.AddTx.
  destruct (txStore_TxExists store (stateURI c) (ID tx)) as [e|[|]] eqn:Hex;
    cbn [fst snd].
  - split; [intros err [= <-]; auto|]. split; [discriminate|].
    split; [discriminate|].
    split; [exists []; rewrite app_nil_r; auto|].
    split; [reflexivity|]. split; [reflexivity|]. split; [reflexivity|].
    rewrite Hid, Hex. discriminate.
  - split; [discriminate|]. split; [reflexivity|]. split; [discriminate|].
    split; [exists []; rewrite app_nil_r; auto|].
    split; [reflexivity|]. split; [reflexivity|]. split; [reflexivity|].
    rewrite Hid, Hex. reflexivity.
  - destruct (txStore_AddTx store (setValid tx false)) as [[e|] store1] eqn:Hadd;
      cbn [fst snd].
    + split; [intros err [= <-]; auto|]. split; [discriminate|].
      split; [split; [reflexivity|discriminate]|].
      split; [exists []; rewrite app_nil_r; auto|].
      split; [reflexivity|]. split; [reflexivity|]. split; [reflexivity|].
      rewrite Hid. intros ->. reflexivity.
    + assert (Hch : chMempool (Admission.addToMempool c done (setValid tx false)) =
                    if done then chMempool c else chMempool c ++ [setValid tx false]).
      { unfold Admission.addToMempool. now destruct done. }
      assert (Hsame : mempool (Admission.addToMempool c done (setValid tx false))
                        = mempool c /\
                      leaves (Admission.addToMempool c done (setValid tx false))
                        = leaves c /\
                      stateURI (Admission.addToMempool c done (setValid tx false))
                        = stateURI c).
      { unfold Admission.addToMempool. now destruct done. }
      destruct Hsame as (Hm & Hlv & Huri).
      split; [discriminate|]. split; [discriminate|].
      split; [split; [reflexivity|intros _; split; [reflexivity|exact Hch]]|].
      split.
      { rewrite Hch. destruct done; [exists []; rewrite app_nil_r; auto|].
        exists [setValid tx false]. auto. }
      split; [exact Hm|]. split; [exact Hlv|]. split; [exact Huri|].
      rewrite Huri, Hid. intros ->. reflexivity.
Qed.

End WithStore.

(** One pass keeps the txs it retains in the order they had. *)
Lemma passSpec_sublist store c pending any kept store' c' :
  passSpec store c pending any kept store' c' -> kept `sublist_of` pending.
Proof.
  induction 1.
  - constructor.
  - now constructor.
  - now apply sublist_cons.
  - now apply sublist_cons.
Qed.

Lemma passSpec_leaves store c pending any kept store' c' :
  passSpec store c pending any kept store' c' ->
  leaves c' ⊆ leaves c ∪ list_to_set (map ID pending).
Proof.
  induction 1 as [store c
                 |store c tx err store1 c1 rest any kept store2 c2 Hp Hc Hpass IH
                 |store c tx err store1 c1 rest any kept store2 c2 Hp Hc1 Hc2 Hpass IH
                 |store c tx store1 c1 rest any kept store2 c2 Hp Hpass IH].
  - set_solver.
  - apply CtrlFacts.processMempoolTx_failed in Hp as (_ & _ & Hl & _).
    rewrite Hl in IH. cbn [map]. set_solver.
  - apply CtrlFacts.processMempoolTx_failed in Hp as (_ & _ & Hl & _).
    rewrite Hl in IH. cbn [map]. set_solver.
  - apply CtrlFacts.processMempoolTx_applied in Hp as (_ & _ & _ & Hl & _).
    rewrite Hl in IH. cbn [map]. set_solver.
Qed.

Lemma loopSpec_shrinks store c r :
  loopSpec store c r ->
  mempool (snd r) `sublist_of` mempool c /\
  chMempool (snd r) = chMempool c /\
  stateURI (snd r) = stateURI c /\
  leaves (snd r) ⊆ leaves c ∪ list_to_set (map ID (mempool c)) /\
  (forall uri id, validated store uri id -> validated (fst r) uri id).
Proof.
  induction 1 as [store c kept store1 c1 Hpass
                 |store c kept store1 c1 r Hpass Hloop IH].
  - pose proof (passSpec_sublist _ _ _ _ _ _ _ Hpass) as Hsub.
    pose proof (passSpec_leaves _ _ _ _ _ _ _ Hpass) as Hlv.
    destruct (CtrlFacts.passSpec_frame _ _ _ _ _ _ _ Hpass)
      as (Huri & _ & Hch & Hval & _ & _).
    cbn [fst snd mempool chMempool stateURI leaves setMempool]. auto.
  - pose proof (passSpec_sublist _ _ _ _ _ _ _ Hpass) as Hsub.
    pose proof (passSpec_leaves _ _ _ _ _ _ _ Hpass) as Hlv.
    destruct (CtrlFacts.passSpec_frame _ _ _ _ _ _ _ Hpass)
      as (Huri & _ & Hch & Hval & _ & _).
    destruct IH as (Hsub' & Hch' & Huri' & Hlv' & Hval').
    cbn [fst snd mempool chMempool stateURI leaves setMempool] in *.
    split; [etrans; eauto|]. split; [congruence|]. split; [congruence|].
    split; [|auto].
    assert (Hids : (list_to_set (map ID kept) : gset types.ID)
                   ⊆ list_to_set (map ID (mempool c))).
    { intros x Hx. apply elem_of_list_to_set, list_elem_of_fmap in Hx as (t & -> & Ht).
      apply elem_of_list_to_set, list_elem_of_fmap. exists t. split; [reflexivity|].
      eapply elem_of_sublist; eauto. }
    set_solver.
Qed.

(** X15: [processMempool] comes to an end and only takes txs away.  Whatever
    the store and the mempool hold, the loop of passes ends; the mempool it
    leaves is a sublist of the one it found (nothing is added, and what stays
    keeps its order), the channel is untouched, every leaf that is new is the
    ID of a tx that was in the mempool, and a tx that was validated before is
    validated afterwards. *)
Theorem mempool_only_shrinks (store : TxStore) (c : controller) :
  exists store' c',
    processMempool store c = Some (store', c') /\
    mempool c' `sublist_of` mempool c /\
    chMempool c' = chMempool c /\
    stateURI c' = stateURI c /\
    leaves c' ⊆ leaves c ∪ list_to_set (map ID (mempool c)) /\
    (forall uri id, validated store uri id -> validated store' uri id).
Proof.
  destruct (CtrlFacts.processMempool_loopSpec store c) as ([store' c'] & Heq & Hloop).
  exists store', c'. split; [exact Heq|].
  exact (loopSpec_shrinks _ _ _ Hloop).
Qed.

End WithEnvironment.

#[local] Existing Instance Scenario.primitives.
#[local] Existing Instance Scenario.extrinsics.

(** Over the store of the spec: [tx1] is new to the empty store, is stored
    with [Valid] set to false and queued; the same tx sent again, with [Valid]
    set, is dropped. *)
Lemma first_tx_wins_witness :
  let exists_ := fun (s : TxStore) uri id =>
                   @inr error bool (TxStore_TxExists s uri id) in
  let add := fun (s : TxStore) tx => (@None error, TxStore_AddTx s tx) in
  let c := NewController Scenario.doc in
  let tx := Scenario.tx1 in
  let r := Admission.AddTx TxStore exists_ add ∅ c false tx in
  let store' := fst (snd r) in
  let c' := snd (snd r) in
  exists_ ∅ (stateURI c) (ID tx) = inr false /\
  exists_ store' (stateURI c) (ID tx) = inr true /\
  (forall err, fst (fst r) = Some err ->
     c' = c /\
     ((exists_ ∅ (stateURI c) (ID tx) = inl err /\ store' = ∅) \/
      (exists_ ∅ (stateURI c) (ID tx) = inr false /\
       add ∅ (setValid tx false) = (Some err, store')))) /\
  (exists_ ∅ (stateURI c) (ID tx) = inr true -> r = (None, tx, (∅, c))) /\
  (exists_ ∅ (stateURI c) (ID tx) = inr false ->
     snd (fst r) = setValid tx false /\
     (fst (fst r) = None ->
        add ∅ (setValid tx false) = (None, store') /\
        chMempool c' =
          if false then chMempool c else chMempool c ++ [setValid tx false])) /\
  (exists new, chMempool c' = chMempool c ++ new /\
               (new = [] \/ new = [setValid tx false])) /\
  mempool c' = mempool c /\ leaves c' = leaves c /\ stateURI c' = stateURI c /\
  (exists_ store' (stateURI c) (ID tx) = inr true ->
     Admission.AddTx TxStore exists_ add store' c' true (setValid tx true)
     = (None, setValid tx true, (store', c'))).
Proof.
  intros exists_ add c tx.
  split; [vm_compute; reflexivity|]. split; [vm_compute; reflexivity|].
  apply (first_tx_wins TxStore exists_ add ∅ c false true tx (setValid tx true)).
  reflexivity.
Defined.

End MempoolFacts.

(** ** The host: what a broadcast sends *)

Module BroadcastFacts.

Import Txs Ctrl Gossip Spec Sent.

Section WithEnvironment.
Context `{Primitives} `{Extrinsics} `{Network}.

Lemma txSeenByPeer_frame (h h' : host) (peer : Peer) (txID : types.ID) :
  peerSeenTxs h' = peerSeenTxs h ->
  txSeenByPeer h' peer txID = txSeenByPeer h peer txID.
Proof. intros Heq. unfold txSeenByPeer. now rewrite Heq. Qed.

Lemma writeMsg_outbox (h : host) (peer : Peer) (msg : Msg) :
  outbox (snd (writeMsg h peer msg)) = outbox h \/
  outbox (snd (writeMsg h peer msg)) = outbox h ++ [(peer, msg)].
Proof. unfold writeMsg. destruct (peer_WriteMsg peer); simpl; auto. Qed.

Lemma putToSubscribers_outbox (h0 : host) (tx : Tx) (peers : list Peer) :
  forall h, peerSeenTxs h = peerSeenTxs h0 ->
    exists new, outbox (putToSubscribers h tx peers) = outbox h ++ new /\
                Forall (putSent h0 tx) new.
Proof.
  induction peers as [|peer peers IH]; intros h Hseen; cbn [putToSubscribers].
  - exists []. now rewrite app_nil_r.
  - destruct (txSeenByPeer h peer (ID tx)) eqn:Hs; [now apply IH|].
    destruct (peer_EnsureConnected peer); [now apply IH|].
    destruct (GossipFacts.writeMsg_frame h peer (Msg_Put tx)) as [Hf _].
    destruct (IH (snd (writeMsg h peer (Msg_Put tx)))) as (new & Heq & Hall);
      [congruence|].
    destruct (writeMsg_outbox h peer (Msg_Put tx)) as [Ho|Ho]; rewrite Ho in Heq.
    + exists new. auto.
    + exists ((peer, Msg_Put tx) :: new). split; [now rewrite Heq, <- app_assoc|].
      constructor; [|exact Hall]. split; [reflexivity|]. cbn [fst].
      now rewrite <- (txSeenByPeer_frame h0 h) by exact Hseen.
Qed.

Lemma broadcastOverTransports_outbox (h0 : host) (tx : Tx) (tpts : list Transport) :
  forall h, peerSeenTxs h = peerSeenTxs h0 ->
    exists new, outbox (foldl (broadcastOverTransport tx) h tpts) = outbox h ++ new /\
                Forall (putSent h0 tx) new.
Proof.
  induction tpts as [|tpt tpts IH]; intros h Hseen; cbn [foldl].
  - exists []. now rewrite app_nil_r.
  - assert (Hstep : exists new1,
              outbox (broadcastOverTransport tx h tpt) = outbox h ++ new1 /\
              Forall (putSent h0 tx) new1 /\
              peerSeenTxs (broadcastOverTransport tx h tpt) = peerSeenTxs h0).
    { unfold broadcastOverTransport.
      destruct (ForEachSubscriberToStateURI tpt (URL tx)) as [e|ch].
      - exists []. rewrite app_nil_r. auto.
      - destruct (putToSubscribers_outbox h0 tx ch h Hseen) as (new1 & Heq & Hall).
        exists new1. split; [exact Heq|]. split; [exact Hall|].
        destruct (GossipFacts.putToSubscribers_frame tx ch h) as [-> _]. exact Hseen. }
    destruct Hstep as (new1 & Heq1 & Hall1 & Hseen1).
    destruct (IH _ Hseen1) as (new2 & Heq2 & Hall2).
    exists (new1 ++ new2). split; [now rewrite Heq2, Heq1, <- app_assoc|].
    now apply Forall_app.
Qed.

Lemma sendPrivate_outbox (tx : Tx) (marshalledTx : string)
    (recipient : types.Address) (peers : list (Peer * string)) :
  recipient ∈ Recipients tx -> recipient <> hostAddress ->
  marshalTx tx = inr marshalledTx ->
  (forall pk, pk ∈ peers -> pk ∈ resolvePeers recipient) ->
  forall h any,
    exists new,
      outbox (snd (sendPrivate h (ID tx) marshalledTx peers any)) = outbox h ++ new /\
      Forall (privateSent tx) new.
Proof.
  intros Hrec Hself Hm. induction peers as [|[peer key] peers IH]; intros Hin h any.
  - exists []. cbn. now rewrite app_nil_r.
  - assert (Hin' : forall pk, pk ∈ peers -> pk ∈ resolvePeers recipient).
    { intros pk Hpk. apply Hin. now right. }
    cbn [sendPrivate].
    destruct (peer_EnsureConnected peer); [now apply IH|].
    destruct (SealMessageFor key marshalledTx) as [e|msgEncrypted] eqn:Hseal;
      [now apply IH|].
    set (msg := Msg_Private (mkEncryptedTx (ID tx) msgEncrypted encryptingPublicKey)).
    pose proof (writeMsg_outbox h peer msg) as Ho.
    destruct (writeMsg h peer msg) as [[e|] h1] eqn:Hw; cbn [snd] in Ho.
    + destruct (IH Hin' h1 any) as (new & Heq & Hall).
      assert (outbox h1 = outbox h) as Hsame.
      { unfold writeMsg in Hw. destruct (peer_WriteMsg peer); now inversion Hw. }
      exists new. split; [now rewrite Heq, Hsame|exact Hall].
    + destruct (IH Hin' h1 true) as (new & Heq & Hall).
      assert (outbox h1 = outbox h ++ [(peer, msg)]) as Hsame.
      { unfold writeMsg in Hw. destruct (peer_WriteMsg peer); now inversion Hw. }
      exists ((peer, msg) :: new). split; [now rewrite Heq, Hsame, <- app_assoc|].
      constructor; [|exact Hall].
      exists recipient, key, marshalledTx, msgEncrypted. cbn [fst snd].
      repeat split; auto. apply Hin. now left.
Qed.

Lemma broadcastToRecipients_outbox (tx : Tx) (marshalledTx : string)
    (recipients : list types.Address) :
  marshalTx tx = inr marshalledTx ->
  (forall r, r ∈ recipients -> r ∈ Recipients tx) ->
  forall h,
    exists new,
      outbox (foldl (broadcastToRecipient tx marshalledTx) h recipients)
        = outbox h ++ new /\
      Forall (privateSent tx) new.
Proof.
  intros Hm. induction recipients as [|r recipients IH]; intros Hin h; cbn [foldl].
  - exists []. now rewrite app_nil_r.
  - assert (Hstep : exists new1,
              outbox (broadcastToRecipient tx marshalledTx h r) = outbox h ++ new1 /\
              Forall (privateSent tx) new1).
    { unfold broadcastToRecipient. case_bool_decide as Hself.
      - exists []. now rewrite app_nil_r.
      - unfold broadcastPrivateTxToRecipient, peersWithAddress.
        rewrite bool_decide_eq_false_2 by exact Hself.
        destruct (sendPrivate_outbox tx marshalledTx r (resolvePeers r)
                    (Hin r ltac:(now left)) Hself Hm (fun _ Hpk => Hpk) h false)
          as (new1 & Heq & Hall).
        destruct (sendPrivate h (ID tx) marshalledTx (resolvePeers r) false)
          as [any h1]. cbn [snd] in Heq.
        exists new1. destruct (negb any); cbn [snd]; auto. }
    destruct Hstep as (new1 & Heq1 & Hall1).
    destruct (IH (fun r' Hr' => Hin r' ltac:(now right))
                 (broadcastToRecipient tx marshalledTx h r)) as (new2 & Heq2 & Hall2).
    exists (new1 ++ new2). split; [now rewrite Heq2, Heq1, <- app_assoc|].
    now apply Forall_app.
Qed.

Lemma broadcastTx_outbox (h : host) (tx : Tx) :
  exists new,
    outbox (snd (broadcastTx h tx)) = outbox h ++ new /\
    (if slen (Sig tx) =? 0 then new = []
     else if IsPrivate tx then Forall (privateSent tx) new
     else Forall (putSent h tx) new).
Proof.
  unfold broadcastTx. destruct (slen (Sig tx) =? 0).
  - exists []. cbn [snd]. now rewrite app_nil_r.
  - destruct (IsPrivate tx).
    + destruct (marshalTx tx) as [e|marshalledTx] eqn:Hm; cbn [snd].
      * exists []. rewrite app_nil_r. split; [reflexivity|constructor].
      * apply (broadcastToRecipients_outbox tx marshalledTx (Recipients tx) Hm);
          auto.
    + cbn [snd]. now apply broadcastOverTransports_outbox.
Qed.

(** X16: what [broadcastTx] sends.  The messages it writes come after those
    already written.  An unsigned tx is not sent at all.  A tx with recipients
    goes out only as [Msg_Private] messages that carry its ID and its
    marshalled form sealed for the key of the peer, to peers resolved for a
    recipient other than the host itself; it is never written as a
    [Msg_Put].  A tx without recipients goes out as [Msg_Put] messages, and
    only to peers that are not on record as having seen it. *)
Theorem broadcast_sends_only (h : host) (tx : Tx) :
  exists new,
    outbox (snd (broadcastTx h tx)) = outbox h ++ new /\
    (if slen (Sig tx) =? 0 then new = []
     else if IsPrivate tx then Forall (privateSent tx) new
     else Forall (putSent h tx) new).
Proof.
  exact (broadcastTx_outbox h tx).
Qed.

Lemma anyTupleSeen_true (seen : gmap peerTuple (gmap types.ID bool))
    (txID : types.ID) (tuples : list peerTuple) :
  tuples <> [] ->
  (forall tuple, tuple ∈ tuples ->
     exists m, seen !! tuple = Some m /\ m !! txID = Some true) ->
  anyTupleSeen seen txID tuples = true.
Proof.
  destruct tuples as [|tuple tuples]; [congruence|]. intros _ Hall.
  destruct (Hall tuple ltac:(now left)) as (m & Hl & Hm).
  cbn [anyTupleSeen]. now rewrite Hl, Hm.
Qed.

(** X17: an ack stops the rebroadcast.  Once a peer with a known address, which
    is reachable at some address, has acknowledged a tx, [txSeenByPeer] is
    true for it, and a [broadcastTx] of that tx, if it has no recipients,
    writes nothing to this peer.  For a peer whose address is not known
    [txSeenByPeer] is false whatever has been recorded. *)
Theorem ack_stops_rebroadcast (h : host) (tx : Tx) (peer : Peer) :
  peer_Address peer <> types.EmptyAddress -> peer_ReachableAt peer <> [] ->
  IsPrivate tx = false ->
  let h1 := onAckReceived h (ID tx) peer in
  txSeenByPeer h1 peer (ID tx) = true /\
  (forall msg, (peer, msg) ∈ outbox (snd (broadcastTx h1 tx)) ->
               (peer, msg) ∈ outbox h1) /\
  (forall h' peer' txID, peer_Address peer' = types.EmptyAddress ->
                         txSeenByPeer h' peer' txID = false).
Proof.
  intros Haddr Hreach Hpub h1.
  assert (Hseen : txSeenByPeer h1 peer (ID tx) = true).
  { unfold txSeenByPeer. rewrite bool_decide_eq_false_2 by exact Haddr.
    apply anyTupleSeen_true.
    - unfold peerTuples. destruct (peer_ReachableAt peer); [congruence|discriminate].
    - apply (GossipFacts.markTxSeenByPeer_marks h peer (ID tx)). }
  split; [exact Hseen|]. split.
  - intros msg Hin.
    destruct (broadcastTx_outbox h1 tx) as (new & Heq & Hnew).
    rewrite Heq in Hin. apply elem_of_app in Hin as [Hin|Hin]; [exact Hin|].
    exfalso. destruct (slen (Sig tx) =? 0); [subst new; inversion Hin|].
    rewrite Hpub in Hnew. rewrite Forall_forall in Hnew.
    destruct (Hnew _ Hin) as [_ Hnot]. cbn [fst] in Hnot. congruence.
  - intros h' peer' txID Hempty. unfold txSeenByPeer.
    now rewrite bool_decide_eq_true_2 by exact Hempty.
Qed.

End WithEnvironment.

#[local] Existing Instance Scenario.primitives.
#[local] Existing Instance Scenario.extrinsics.
#[local] Existing Instance Scenario.network.

Lemma ack_stops_rebroadcast_witness :
  let h1 := onAckReceived Scenario.host0 (ID Scenario.tx1) Scenario.bob in
  txSeenByPeer h1 Scenario.bob (ID Scenario.tx1) = true /\
  (forall msg,
     (Scenario.bob, msg) ∈ outbox (snd (broadcastTx h1 Scenario.tx1)) ->
     (Scenario.bob, msg) ∈ outbox h1) /\
  (forall (h' : host) peer' txID,
     peer_Address peer' = types.EmptyAddress ->
     txSeenByPeer h' peer' txID = false).
Proof.
  apply (ack_stops_rebroadcast Scenario.host0 Scenario.tx1 Scenario.bob).
  - vm_compute. discriminate.
  - discriminate.
  - reflexivity.
Defined.

End BroadcastFacts.

(** ** Messages on the wire *)

Module WireFacts.

Import Wire.

(** *** Byte strings *)

Lemma substring_app_l (a b : string) :
  String.substring 0 (String.length a) (a +:+ b) = a.
Proof.
  induction a as [|c a IH]; simpl.
  - now destruct b.
  - now rewrite IH.
Qed.

Lemma substring_app_r (a b : string) (m : nat) :
  String.substring (String.length a) m (a +:+ b) = String.substring 0 m b.
Proof.
  induction a as [|c a IH]; [reflexivity|]. rewrite ?Bytes.app_cons. simpl. exact IH.
Qed.

Lemma substring_all (s : string) : String.substring 0 (String.length s) s = s.
Proof. induction s as [|c s IH]; simpl; [reflexivity|]. now rewrite IH. Qed.

Lemma substring_split (s : string) (n : nat) :
  (n <= String.length s)%nat ->
  String.substring 0 n s +:+ String.substring n (String.length s - n) s = s.
Proof.
  revert n. induction s as [|c s IH]; intros n Hn; simpl in Hn.
  - assert (n = 0%nat) as -> by lia. reflexivity.
  - destruct n as [|n]; simpl.
    + now rewrite substring_all.
    + rewrite ?Bytes.app_cons, IH by lia. reflexivity.
Qed.

Lemma ssub_app_l (a b : string) : ssub (a +:+ b) 0 (slen a) = a.
Proof.
  unfold ssub, slen. change (Z.to_nat 0) with 0%nat.
  replace (Z.to_nat (Z.of_nat (String.length a) - 0)) with (String.length a) by lia.
  apply substring_app_l.
Qed.

Lemma ssub_app_r (a b : string) : ssub (a +:+ b) (slen a) (slen (a +:+ b)) = b.
Proof.
  unfold ssub, slen. rewrite Bytes.length_app, Nat2Z.id.
  replace (Z.to_nat (Z.of_nat (String.length a + String.length b)
                     - Z.of_nat (String.length a))) with (String.length b) by lia.
  rewrite substring_app_r. apply substring_all.
Qed.

Lemma ssub_split (s : string) (n : Z) :
  0 <= n <= slen s -> ssub s 0 n +:+ ssub s n (slen s) = s.
Proof.
  intros Hn. unfold ssub, slen in *. change (Z.to_nat 0) with 0%nat.
  replace (Z.to_nat (n - 0)) with (Z.to_nat n) by lia.
  replace (Z.to_nat (Z.of_nat (String.length s) - n))
    with (String.length s - Z.to_nat n)%nat by lia.
  apply substring_split. lia.
Qed.

(** *** Little-endian numbers *)

Lemma slen_PutUint64 (n : Z) : slen (PutUint64 n) = 8.
Proof. reflexivity. Qed.

Lemma byteOf_byteAt (n k : Z) :
  Z.of_N (N_of_ascii (byteAt n k)) = (n / 2 ^ (8 * k)) mod 256.
Proof.
  unfold byteAt.
  assert (Hlt : 0 <= (n / 2 ^ (8 * k)) mod 256 < 256) by (apply Z.mod_pos_bound; lia).
  rewrite N_ascii_embedding by lia. lia.
Qed.

Lemma Uint64_PutUint64 (n : Z) (rest : string) :
  0 <= n < 2 ^ 64 -> Uint64 (PutUint64 n +:+ rest) = n.
Proof.
  intros Hn. unfold Uint64, byteOf, PutUint64. rewrite !Bytes.app_cons.
  cbn [String.get]. rewrite !byteOf_byteAt.
  assert (Hq : forall k, 0 <= k ->
            n / 2 ^ (8 * k) = 256 * (n / 2 ^ (8 * (k + 1))) + (n / 2 ^ (8 * k)) mod 256).
  { intros k Hk. rewrite (KeypathFacts.div_shift n k Hk).
    apply Z.div_mod. lia. }
  pose proof (Hq 0 ltac:(lia)) as E0. pose proof (Hq 1 ltac:(lia)) as E1.
  pose proof (Hq 2 ltac:(lia)) as E2. pose proof (Hq 3 ltac:(lia)) as E3.
  pose proof (Hq 4 ltac:(lia)) as E4. pose proof (Hq 5 ltac:(lia)) as E5.
  pose proof (Hq 6 ltac:(lia)) as E6. pose proof (Hq 7 ltac:(lia)) as E7.
  change (8 * (0 + 1)) with (8 * 1) in E0. change (8 * (1 + 1)) with (8 * 2) in E1.
  change (8 * (2 + 1)) with (8 * 3) in E2. change (8 * (3 + 1)) with (8 * 4) in E3.
  change (8 * (4 + 1)) with (8 * 5) in E4. change (8 * (5 + 1)) with (8 * 6) in E5.
  change (8 * (6 + 1)) with (8 * 7) in E6. change (8 * (7 + 1)) with 64 in E7.
  assert (H8 : n / 2 ^ 64 = 0) by (apply Z.div_small; lia).
  rewrite H8 in E7.
  assert (H0 : n / 2 ^ (8 * 0) = n) by (change (2 ^ (8 * 0)) with 1; apply Z.div_1_r).
  rewrite H0 in *.
  generalize dependent (n / 2 ^ (8 * 1)). generalize dependent (n / 2 ^ (8 * 2)).
  generalize dependent (n / 2 ^ (8 * 3)). generalize dependent (n / 2 ^ (8 * 4)).
  generalize dependent (n / 2 ^ (8 * 5)). generalize dependent (n / 2 ^ (8 * 6)).
  generalize dependent (n / 2 ^ (8 * 7)).
  intros q7 E7 q6 E6 q5 E5 q4 E4 q3 E3 q2 E2 q1 E1 E0.
  generalize dependent (q1 mod 256). generalize dependent (q2 mod 256).
  generalize dependent (q3 mod 256). generalize dependent (q4 mod 256).
  generalize dependent (q5 mod 256). generalize dependent (q6 mod 256).
  generalize dependent (q7 mod 256). generalize dependent (n mod 256).
  intros. lia.
Qed.

Lemma Uint64_bound (b : string) : 0 <= Uint64 b < 2 ^ 64.
Proof.
  assert (Hb : forall k, 0 <= byteOf b k < 256).
  { intros k. unfold byteOf. destruct (String.get k b) as [c|]; [|lia].
    pose proof (N_ascii_bounded c). lia. }
  unfold Uint64.
  pose proof (Hb 0%nat). pose proof (Hb 1%nat). pose proof (Hb 2%nat).
  pose proof (Hb 3%nat). pose proof (Hb 4%nat). pose proof (Hb 5%nat).
  pose proof (Hb 6%nat). pose proof (Hb 7%nat). lia.
Qed.

(** *** Reading and writing *)

Lemma Write_open (w : Writer) (p : string) :
  wr_room w = None ->
  Write w p = (slen p, None, mkWriter (wr_data w +:+ p) None (wr_err w)).
Proof. intros Hr. unfold Write. now rewrite Hr. Qed.

Lemma ReadFull_enough (data rest : string) (e : error) :
  0 < slen data ->
  ReadFull (mkReader (data +:+ rest) e) (slen data) = (data, None, mkReader rest e).
Proof.
  intros Hpos. unfold ReadFull. cbn [rd_data rd_end].
  destruct (Z.leb_spec (slen data) 0); [lia|].
  rewrite Bytes.slen_app.
  destruct (Z.leb_spec (slen data) (slen data + slen rest));
    [|pose proof (Bytes.slen_nonneg rest); lia].
  rewrite ssub_app_l. rewrite <- Bytes.slen_app, ssub_app_r. reflexivity.
Qed.

Lemma CopyN_enough (data rest : string) (e : error) :
  CopyN (mkReader (data +:+ rest) e) (slen data) = (data, None, mkReader rest e).
Proof.
  unfold CopyN. cbn [rd_data rd_end].
  destruct (Z.leb_spec (slen data) 0) as [Hz|Hpos].
  - assert (data = "") as ->.
    { apply Bytes.slen_zero. pose proof (Bytes.slen_nonneg data). lia. }
    reflexivity.
  - rewrite Bytes.slen_app.
    destruct (Z.leb_spec (slen data) (slen data + slen rest));
      [|pose proof (Bytes.slen_nonneg rest); lia].
    rewrite ssub_app_l. rewrite <- Bytes.slen_app, ssub_app_r. reflexivity.
Qed.

Lemma WriteUint64_ReadUint64 (n : Z) (w : Writer) (rest : string) (e : error) :
  0 <= n < 2 ^ 64 -> wr_room w = None ->
  fst (WriteUint64 w n) = None /\
  wr_data (snd (WriteUint64 w n)) = wr_data w +:+ PutUint64 n /\
  ReadUint64 (mkReader (PutUint64 n +:+ rest) e) = (n, None, mkReader rest e).
Proof.
  intros Hn Hroom. unfold WriteUint64, ReadUint64.
  rewrite (Write_open _ _ Hroom). rewrite slen_PutUint64. cbn [fst snd wr_data Z.ltb].
  split; [reflexivity|]. split; [reflexivity|].
  pose proof (ReadFull_enough (PutUint64 n) rest e) as Hread.
  rewrite slen_PutUint64 in Hread. rewrite Hread by lia.
  f_equal. f_equal.
  rewrite <- (Bytes.app_nil_r (PutUint64 n)). now apply Uint64_PutUint64.
Qed.

(** X18: a number written by [WriteUint64] is read back by [ReadUint64].  On a
    writer that takes all it is given, [WriteUint64] returns no error and
    appends the eight bytes of the number; [ReadUint64] on a stream that
    starts with these bytes returns the number and leaves the rest of the
    stream to be read. *)
Theorem uint64_round_trip (n : Z) (w : Writer) (rest : string) (e : error) :
  0 <= n < 2 ^ 64 -> wr_room w = None ->
  fst (WriteUint64 w n) = None /\
  wr_data (snd (WriteUint64 w n)) = wr_data w +:+ PutUint64 n /\
  ReadUint64 (mkReader (PutUint64 n +:+ rest) e) = (n, None, mkReader rest e).
Proof.
  exact (WriteUint64_ReadUint64 n w rest e).
Qed.

Lemma uint64_round_trip_witness :
  fst (WriteUint64 (mkWriter "" None io_EOF) 258) = None /\
  wr_data (snd (WriteUint64 (mkWriter "" None io_EOF) 258)) = "" +:+ PutUint64 258 /\
  ReadUint64 (mkReader (PutUint64 258 +:+ "tail") io_EOF)
    = (258, None, mkReader "tail" io_EOF).
Proof. apply uint64_round_trip; [lia|reflexivity]. Defined.

(** X19: [ReadUint64] on a stream that is too short.  At the end of a stream
    that was closed in order it returns [io.EOF] itself, so that a caller can
    compare with it; when fewer than eight bytes are left it returns
    [io.ErrUnexpectedEOF] wrapped with its name, and has used the bytes up.
    In both cases the number is 0. *)
Theorem read_uint64_short (data : string) :
  slen data < 8 ->
  ReadUint64 (mkReader data io_EOF) =
    if slen data =? 0 then (0, Some io_EOF, mkReader data io_EOF)
    else (0, Some (Wrap io_ErrUnexpectedEOF "ReadUint64"), mkReader "" io_EOF).
Proof.
  intros Hshort. unfold ReadUint64, ReadFull. cbn [rd_data rd_end].
  change (8 <=? 0) with false. cbv iota.
  destruct (Z.leb_spec 8 (slen data)); [lia|].
  destruct (slen data =? 0); reflexivity.
Qed.

Lemma read_uint64_short_witness :
  ReadUint64 (mkReader "abc" io_EOF) =
    if slen "abc" =? 0 then (0, Some io_EOF, mkReader "abc" io_EOF)
    else (0, Some (Wrap io_ErrUnexpectedEOF "ReadUint64"), mkReader "" io_EOF).
Proof. apply read_uint64_short. reflexivity. Defined.

Section WithJSON.
Variable Msg : Type.
Variable jsonMarshal : Msg -> error + string.
Variable jsonDecode : string -> error + Msg.

Lemma to_int64_small (z : Z) : 0 <= z < 2 ^ 63 -> to_int64 (to_uint64 z) = z.
Proof.
  intros Hz. unfold to_int64, to_uint64.
  rewrite (Z.mod_small z) by lia. rewrite Z.mod_small by lia. lia.
Qed.

(** X20: a message written by [WriteMsg] is read back by [ReadMsg].  On a
    writer that takes all it is given, [WriteMsg] returns no error and appends
    the length of the JSON form of the message and then that form; [ReadMsg]
    on a stream that starts with these bytes decodes exactly that form, and
    leaves what follows it to be read, so that messages written one after the
    other are read one after the other. *)
Theorem frame_round_trip (msg : Msg) (bs : string) (w : Writer) (rest : string)
    (e : error) :
  jsonMarshal msg = inr bs -> slen bs < 2 ^ 63 -> wr_room w = None ->
  fst (WriteMsg Msg jsonMarshal w msg) = None /\
  wr_data (snd (WriteMsg Msg jsonMarshal w msg)) =
    wr_data w +:+ PutUint64 (slen bs) +:+ bs /\
  ReadMsg Msg jsonDecode (mkReader (PutUint64 (slen bs) +:+ bs +:+ rest) e) =
    (jsonDecode bs, mkReader rest e).
Proof.
  intros Hm Hlen Hroom.
  pose proof (Bytes.slen_nonneg bs) as Hpos.
  assert (Hu : to_uint64 (slen bs) = slen bs).
  { unfold to_uint64. apply Z.mod_small. lia. }
  assert (Hi : to_int64 (slen bs) = slen bs).
  { rewrite <- Hu at 1. apply to_int64_small. lia. }
  destruct (WriteUint64_ReadUint64 (slen bs) w (bs +:+ rest) e ltac:(lia) Hroom)
    as (Hw1 & Hw2 & Hr).
  unfold WriteMsg, ReadMsg. rewrite Hm, Hu, Hr, Hi.
  rewrite (CopyN_enough bs rest e).
  destruct (WriteUint64 w (slen bs)) as [err w1] eqn:Hw. cbn [fst snd] in Hw1, Hw2.
  subst err.
  assert (Hroom1 : wr_room w1 = None).
  { unfold WriteUint64 in Hw. rewrite (Write_open _ _ Hroom) in Hw.
    rewrite slen_PutUint64 in Hw. cbn [Z.ltb] in Hw. now inversion Hw. }
  unfold Copy. destruct (Z.eqb_spec (slen bs) 0) as [Hz|Hnz].
  - rewrite Hz. cbn [fst snd negb Z.eqb].
    assert (bs = "") as -> by now apply Bytes.slen_zero.
    rewrite Hw2, Bytes.app_nil_r. auto.
  - rewrite (Write_open _ _ Hroom1). rewrite Z.eqb_refl. cbn [negb fst snd wr_data].
    rewrite Hw2, Bytes.app_assoc. auto.
Qed.

(** X21: what [ReadMsg] accepts.  When [ReadMsg] returns a message, the stream
    started with eight bytes and a body, the message is what the body decodes
    to, and what follows the body is left to be read.  The body has the
    length that the eight bytes give, except that a length of [2 ^ 63] or
    more, which is negative as an [int64], is read as an empty body. *)
Theorem read_msg_takes_one_frame (r r' : Reader) (m : Msg) :
  ReadMsg Msg jsonDecode r = (inr m, r') ->
  exists b8 bs,
    slen b8 = 8 /\ rd_data r = b8 +:+ bs +:+ rd_data r' /\ rd_end r' = rd_end r /\
    jsonDecode bs = inr m /\
    (slen bs = Uint64 b8 \/ (2 ^ 63 <= Uint64 b8 /\ bs = "")).
Proof.
  unfold ReadMsg, ReadUint64, ReadFull. change (8 <=? 0) with false. cbv iota.
  destruct (Z.leb_spec 8 (slen (rd_data r))) as [Hlen|Hshort].
  2:{ destruct (slen (rd_data r) =? 0); [|case_bool_decide; discriminate].
      case_bool_decide; discriminate. }
  set (b8 := ssub (rd_data r) 0 8).
  set (rest := ssub (rd_data r) 8 (slen (rd_data r))).
  assert (Hsplit : rd_data r = b8 +:+ rest).
  { symmetry. apply ssub_split. lia. }
  assert (Hb8 : slen b8 = 8).
  { unfold b8. rewrite TreeReads.slen_ssub; lia. }
  pose proof (Uint64_bound b8) as Hbound.
  unfold CopyN. cbn [rd_data rd_end].
  destruct (Z.leb_spec (to_int64 (Uint64 b8)) 0) as [Hneg|Hpos].
  - intros [= Hdec <-]. exists b8, "". cbn [rd_data rd_end].
    split; [exact Hb8|]. split; [now rewrite Bytes.app_nil_l|].
    split; [reflexivity|]. split; [exact Hdec|].
    unfold to_int64 in Hneg.
    destruct (Z.lt_ge_cases (Uint64 b8) (2 ^ 63)) as [Hsmall|Hbig]; [|auto].
    left. rewrite Z.mod_small in Hneg by lia. unfold slen. simpl. lia.
  - destruct (Z.leb_spec (to_int64 (Uint64 b8)) (slen rest)) as [Hfit|]; [|discriminate].
    intros [= Hdec <-]. cbn [rd_data rd_end].
    exists b8, (ssub rest 0 (to_int64 (Uint64 b8))).
    split; [exact Hb8|]. split; [|split; [reflexivity|split; [exact Hdec|]]].
    + rewrite ssub_split by lia. exact Hsplit.
    + left. rewrite TreeReads.slen_ssub by lia.
      unfold to_int64 in *.
      destruct (Z.lt_ge_cases (Uint64 b8) (2 ^ 63)) as [Hsmall|Hbig].
      * rewrite Z.mod_small by lia. lia.
      * exfalso.
        replace (Uint64 b8 + 2 ^ 63) with (Uint64 b8 - 2 ^ 63 + 1 * 2 ^ 64) in Hpos by lia.
        rewrite Z.mod_add, Z.mod_small in Hpos by lia. lia.
Qed.

(** X22: [WriteMsg] reports a frame that did not go out.  On a writer that
    breaks after [room] more bytes, [WriteMsg] returns no error exactly when
    the eight bytes of the length and the whole JSON form fit, and then they
    are what has been appended. *)
Theorem write_msg_all_or_error (msg : Msg) (bs : string) (w : Writer) (room : Z) :
  jsonMarshal msg = inr bs -> slen bs < 2 ^ 63 ->
  wr_room w = Some room -> 0 <= room ->
  (fst (WriteMsg Msg jsonMarshal w msg) = None <-> 8 + slen bs <= room) /\
  (fst (WriteMsg Msg jsonMarshal w msg) = None ->
   wr_data (snd (WriteMsg Msg jsonMarshal w msg)) =
     wr_data w +:+ PutUint64 (slen bs) +:+ bs).
Proof.
  intros Hm Hlen Hroom Hr0.
  pose proof (Bytes.slen_nonneg bs) as Hpos.
  assert (Hu : to_uint64 (slen bs) = slen bs).
  { unfold to_uint64. apply Z.mod_small. lia. }
  assert (Hi : to_int64 (slen bs) = slen bs).
  { rewrite <- Hu at 1. apply to_int64_small. lia. }
  assert (Hcases :
    WriteMsg Msg jsonMarshal w msg =
      if 8 <=? room then
        if slen bs =? 0 then
          (None, mkWriter (wr_data w +:+ PutUint64 (slen bs)) (Some (room - 8)) (wr_err w))
        else if slen bs <=? room - 8 then
          (None, mkWriter ((wr_data w +:+ PutUint64 (slen bs)) +:+ bs)
                   (Some (room - 8 - slen bs)) (wr_err w))
        else
          (Some (wr_err w),
           mkWriter ((wr_data w +:+ PutUint64 (slen bs)) +:+
                     ssub bs 0 (Z.max 0 (room - 8))) (Some 0) (wr_err w))
      else
        (Some (wr_err w),
         mkWriter (wr_data w +:+ ssub (PutUint64 (slen bs)) 0 (Z.max 0 room))
           (Some 0) (wr_err w))).
  { unfold WriteMsg. rewrite Hm, Hu, Hi. unfold WriteUint64, Write.
    rewrite Hroom, slen_PutUint64.
    destruct (8 <=? room); [|reflexivity].
    change (8 <? 8) with false. cbv iota. unfold Copy.
    destruct (Z.eqb_spec (slen bs) 0) as [Hz|Hnz].
    { cbv iota. rewrite Hz. reflexivity. }
    unfold Write. cbn [wr_room wr_data wr_err].
    destruct (slen bs <=? room - 8); [|reflexivity].
    now rewrite Z.eqb_refl. }
  rewrite Hcases. clear Hcases.
  destruct (Z.leb_spec 8 room) as [H8|H8].
  2:{ cbn [fst snd]. split; [|discriminate]. split; [discriminate|lia]. }
  destruct (Z.eqb_spec (slen bs) 0) as [Hz|Hnz].
  - cbn [fst snd wr_data].
    assert (bs = "") as -> by now apply Bytes.slen_zero.
    rewrite Bytes.app_nil_r. split; [|auto]. split; [lia|auto].
  - destruct (Z.leb_spec (slen bs) (room - 8)) as [Hfit|Hnofit]; cbn [fst snd wr_data].
    + rewrite Bytes.app_assoc. split; [|auto]. split; [lia|auto].
    + split; [|discriminate]. split; [discriminate|lia].
Qed.

End WithJSON.

Lemma frame_round_trip_witness :
  fst (WriteMsg string inr (mkWriter "" None io_EOF) "{}") = None /\
  wr_data (snd (WriteMsg string inr (mkWriter "" None io_EOF) "{}")) =
    "" +:+ PutUint64 (slen "{}") +:+ "{}" /\
  ReadMsg string inr (mkReader (PutUint64 (slen "{}") +:+ "{}" +:+ "next") io_EOF) =
    (inr "{}", mkReader "next" io_EOF).
Proof.
  apply (frame_round_trip string inr inr "{}" "{}"); [reflexivity..].
Defined.

Lemma read_msg_takes_one_frame_witness :
  exists b8 bs,
    slen b8 = 8 /\
    rd_data (mkReader (PutUint64 2 +:+ "{}" +:+ "next") io_EOF)
      = b8 +:+ bs +:+ rd_data (mkReader "next" io_EOF) /\
    rd_end (mkReader "next" io_EOF)
      = rd_end (mkReader (PutUint64 2 +:+ "{}" +:+ "next") io_EOF) /\
    @inr error string bs = inr "{}" /\
    (slen bs = Uint64 b8 \/ (2 ^ 63 <= Uint64 b8 /\ bs = "")).
Proof.
  apply (read_msg_takes_one_frame string inr
           (mkReader (PutUint64 2 +:+ "{}" +:+ "next") io_EOF)
           (mkReader "next" io_EOF) "{}").
  vm_compute. reflexivity.
Defined.

Lemma write_msg_all_or_error_witness :
  (fst (WriteMsg string inr (mkWriter "" (Some 9) io_ErrShortWrite) "{}") = None
   <-> 8 + slen "{}" <= 9) /\
  (fst (WriteMsg string inr (mkWriter "" (Some 9) io_ErrShortWrite) "{}") = None ->
   wr_data (snd (WriteMsg string inr (mkWriter "" (Some 9) io_ErrShortWrite) "{}")) =
     "" +:+ PutUint64 (slen "{}") +:+ "{}").
Proof.
  apply (write_msg_all_or_error string inr "{}" "{}" (mkWriter "" (Some 9) io_ErrShortWrite) 9);
    [reflexivity|reflexivity|reflexivity|lia].
Defined.

End WireFacts.

(** ** The stack of validators *)

Module StackFacts.

Import Stack.

Section WithValidators.
Variables State TimeDAG Tx : Type.

Lemma validateAll_first (vs : list (Validator State TimeDAG Tx)) (state : State)
    (timeDAG : TimeDAG) (tx : Tx) :
  match validateAll State TimeDAG Tx vs state timeDAG tx with
  | None => Forall (fun f => f state timeDAG tx = None) vs
  | Some err =>
      exists pre f post,
        vs = pre ++ f :: post /\
        Forall (fun g => g state timeDAG tx = None) pre /\
        f state timeDAG tx = Some err
  end.
Proof.
  induction vs as [|v vs IH]; cbn [validateAll]; [constructor|].
  destruct (v state timeDAG tx) as [err|] eqn:Hv.
  - exists [], v, vs. split; [reflexivity|]. split; [constructor|exact Hv].
  - destruct (validateAll State TimeDAG Tx vs state timeDAG tx) as [err|].
    + destruct IH as (pre & f & post & -> & Hpre & Hf).
      exists (v :: pre), f, post. split; [reflexivity|].
      split; [now constructor|exact Hf].
    + now constructor.
Qed.

(** X23: the stack validator accepts a tx exactly when every validator of the
    stack accepts it.  Otherwise its error is that of the first validator, in
    the order of the stack, that rejects the tx: every validator before it
    has accepted. *)
Theorem stack_returns_first_error (v : stackValidator State TimeDAG Tx)
    (state : State) (timeDAG : TimeDAG) (tx : Tx) :
  match Validate State TimeDAG Tx v state timeDAG tx with
  | None =>
      Forall (fun f => f state timeDAG tx = None) (validators State TimeDAG Tx v)
  | Some err =>
      exists pre f post,
        validators State TimeDAG Tx v = pre ++ f :: post /\
        Forall (fun g => g state timeDAG tx = None) pre /\
        f state timeDAG tx = Some err
  end.
Proof. unfold Validate. apply validateAll_first. Qed.

End WithValidators.

End StackFacts.

(** ** Links *)

Module LinkFacts.

Import Links.

Lemma prefix_split (p s : string) :
  String.prefix p s = true -> s = p +:+ ssub s (slen p) (slen s).
Proof.
  revert s. induction p as [|c p IH]; intros s Hp.
  - unfold ssub, slen. cbn [String.length Z.of_nat].
    change (Z.to_nat 0) with 0%nat. rewrite ?Z.sub_0_r, ?Nat2Z.id.
    rewrite WireFacts.substring_all. reflexivity.
  - destruct s as [|d s]; [discriminate|]. cbn [String.prefix] in Hp.
    destruct (ascii_dec c d) as [->|]; [|discriminate].
    rewrite Bytes.app_cons. f_equal.
    rewrite (IH s Hp) at 1. f_equal.
    unfold ssub, slen. cbn [String.length].
    rewrite !Nat2Z.id.
    replace (Z.to_nat (Z.of_nat (S (String.length s)) - Z.of_nat (S (String.length p))))
      with (Z.to_nat (Z.of_nat (String.length s) - Z.of_nat (String.length p))) by lia.
    reflexivity.
Qed.

Lemma prefix_app (p s : string) : String.prefix p (p +:+ s) = true.
Proof.
  induction p as [|c p IH]; [now destruct s|].
  rewrite Bytes.app_cons. cbn [String.prefix].
  destruct (ascii_dec c c); [exact IH|congruence].
Qed.

(** X24: [DetermineLinkType] splits a link into its type and the rest, and
    nothing is lost: a link of type [LinkTypeRef] is [ref:] followed by the
    rest, one of type [LinkTypePath] is [state:] followed by the rest, and a
    link with neither prefix is of type [LinkTypeUnknown] and is returned
    whole.  No link is of type [LinkTypeURL].  In the other direction [ref:]
    and [state:] before any string are recognised, and the string is the
    rest. *)
Theorem link_type_splits_prefix (linkStr : string) :
  match DetermineLinkType linkStr with
  | (LinkTypeRef, rest) => linkStr = "ref:" +:+ rest
  | (LinkTypePath, rest) => linkStr = "state:" +:+ rest
  | (LinkTypeUnknown, rest) =>
      rest = linkStr /\
      forall s, linkStr <> "ref:" +:+ s /\ linkStr <> "state:" +:+ s
  | (LinkTypeURL, _) => False
  end /\
  DetermineLinkType ("ref:" +:+ linkStr) = (LinkTypeRef, linkStr) /\
  DetermineLinkType ("state:" +:+ linkStr) = (LinkTypePath, linkStr).
Proof.
  split; [|split].
  - unfold DetermineLinkType.
    destruct (String.prefix "ref:" linkStr) eqn:Hr.
    + now apply prefix_split.
    + destruct (String.prefix "state:" linkStr) eqn:Hs.
      * now apply prefix_split.
      * split; [reflexivity|]. intros s. split; intros ->.
        -- now rewrite prefix_app in Hr.
        -- now rewrite prefix_app in Hs.
  - unfold DetermineLinkType. rewrite prefix_app. f_equal.
    apply (WireFacts.ssub_app_r "ref:" linkStr).
  - unfold DetermineLinkType.
    change (String.prefix "ref:" ("state:" +:+ linkStr)) with false.
    rewrite prefix_app. f_equal.
    apply (WireFacts.ssub_app_r "state:" linkStr).
Qed.

End LinkFacts.

(** ** What [Set] leaves alone *)

Module TreeFrames.

Import Tree Spec Views TreeQueries Frames.

Ltac unfoldM :=
  unfold mbind, M_bind, bind, mret, M_ret, ret, getNode, getHeap, putNode,
    putHeap, allocM in *.

Lemma StartsWith_Push (abs rel : Keypath) : StartsWith (Push abs rel) abs = true.
Proof.
  destruct abs as [|a abs]; [reflexivity|].
  destruct rel as [|b rel]; [rewrite KeypathFacts.Push_nil_r; apply TreeRuns.StartsWith_refl|].
  rewrite KeypathFacts.Push_cons. unfold StartsWith.
  destruct (slen (String a abs) =? 0); [reflexivity|].
  rewrite LinkFacts.prefix_app. cbn [andb].
  apply orb_true_iff. right. apply bool_decide_eq_true_2.
  change (String.length (String a abs)) with (0 + String.length (String a abs))%nat.
  now rewrite <- append_correct2.
Qed.

Lemma walkedValues_other (abs k : Keypath) (walked : list (Keypath * Value)) :
  forall m, StartsWith k abs = false -> walkedValues abs m walked !! k = m !! k.
Proof.
  unfold walkedValues. induction walked as [|e walked IH]; intros m Hk;
    cbn [foldl]; [reflexivity|].
  rewrite IH by exact Hk.
  assert (Hne : Push abs (fst e) <> k).
  { intros <-. now rewrite StartsWith_Push in Hk. }
  destruct (snd e); try reflexivity; now apply lookup_insert_ne.
Qed.

Lemma valuesAt_setNodeTypesAt h l l' m :
  valuesAt (setNodeTypesAt h l' m) l = valuesAt h l.
Proof. reflexivity. Qed.

Lemma valuesAt_setDiffAt h l l' d : valuesAt (setDiffAt h l' d) l = valuesAt h l.
Proof. reflexivity. Qed.

Lemma mapOrAbsent_setNodeType (h : Heap) (n : MemoryNode) (p q : Keypath) :
  mapOrAbsent h n q ->
  mapOrAbsent
    (setNodeTypesAt h (nodeTypes n) (<[p := NodeTypeMap]> (nodeTypesAt h (nodeTypes n))))
    n q.
Proof.
  unfold mapOrAbsent, nodeTypeOf. rewrite TreeRuns.nodeTypesAt_setNodeTypesAt.
  destruct (decide (p = q)) as [->|Hne].
  - rewrite lookup_insert_eq. now right.
  - now rewrite lookup_insert_ne.
Qed.

Lemma mapOrAbsent_deleteAll (h h' : Heap) (n : MemoryNode) (ks : list Keypath)
    (q : Keypath) :
  nodeTypesAt h' (nodeTypes n) = deleteAll ks (nodeTypesAt h (nodeTypes n)) ->
  mapOrAbsent h n q -> mapOrAbsent h' n q.
Proof.
  unfold mapOrAbsent, nodeTypeOf. intros ->. rewrite TreeRuns.deleteAll_lookup.
  case_bool_decide; [now left|auto].
Qed.

(** The loop over the ancestors only takes values away, and takes none away
    when each ancestor is a map or absent; the ancestors are maps then. *)
Lemma setAncestors_values (K abs : Keypath) (parts : list Keypath) :
  forall i byteIdx new n h,
    rng n = None -> copied n = false ->
    exists n' h',
      setAncestors K abs parts i byteIdx new n h
        = Ok (None, new ++ partialKeypaths abs parts i byteIdx) n' h' /\
      sameCursor n n' /\
      (forall k x, valuesAt h' (values n) !! k = Some x ->
                   valuesAt h (values n) !! k = Some x) /\
      (Forall (mapOrAbsent h n) (partialKeypaths abs parts i byteIdx) ->
       valuesAt h' (values n) = valuesAt h (values n) /\
       Forall (fun p => nodeTypeOf h' n p = NodeTypeMap)
         (partialKeypaths abs parts i byteIdx) /\
       (forall q, nodeTypeOf h n q = NodeTypeMap -> nodeTypeOf h' n q = NodeTypeMap)).
Proof.
  induction parts as [|key parts IH]; intros i byteIdx new n h Hr Hc.
  - exists n, h. simpl. rewrite app_nil_r. unfoldM.
    split; [reflexivity|]. split; [apply TreeRuns.sameCursor_refl|].
    split; [auto|]. intros _. split; [reflexivity|]. split; [constructor|auto].
  - cbn [setAncestors partialKeypaths].
    set (partialKeypath :=
           if byteIdx + slen key =? 0 then ""
           else ssub abs 0 (byteIdx + slen key)).
    set (next := if i =? 0 then byteIdx + slen key else byteIdx + slen key + 1).
    assert (Hstep : exists n1 h1,
      (if bool_decide (nodeTypeOf h n partialKeypath = NodeTypeInvalid) then
         setNodeType partialKeypath NodeTypeMap;; mret None
       else if negb (bool_decide (nodeTypeOf h n partialKeypath = NodeTypeMap)) then
         err ← Delete (RelativeTo partialKeypath K) None;
         match err with
         | Some e => mret (Some e)
         | None => setNodeType partialKeypath NodeTypeMap;; mret None
         end
       else mret None) n h = Ok None n1 h1 /\
      sameCursor n n1 /\
      (forall k x, valuesAt h1 (values n) !! k = Some x ->
                   valuesAt h (values n) !! k = Some x) /\
      (mapOrAbsent h n partialKeypath ->
       valuesAt h1 (values n) = valuesAt h (values n) /\
       (forall q, mapOrAbsent h n q -> mapOrAbsent h1 n q) /\
       nodeTypeOf h1 n partialKeypath = NodeTypeMap /\
       (forall q, nodeTypeOf h n q = NodeTypeMap ->
                  nodeTypeOf h1 n q = NodeTypeMap))).
    { case_bool_decide as Hinv.
      - eexists n, _. unfold setNodeType. unfoldM. split; [reflexivity|].
        split; [apply TreeRuns.sameCursor_refl|].
        split; [auto|]. intros _. split; [reflexivity|].
        split; [intros q; apply mapOrAbsent_setNodeType|].
        split.
        + unfold nodeTypeOf.
          now rewrite TreeRuns.nodeTypesAt_setNodeTypesAt, lookup_insert_eq.
        + intros q Hq. unfold nodeTypeOf in *.
          rewrite TreeRuns.nodeTypesAt_setNodeTypesAt.
          destruct (decide (partialKeypath = q)) as [->|Hne];
            [now rewrite lookup_insert_eq|now rewrite lookup_insert_ne].
      - case_bool_decide as Hmap; cbn [negb].
        + exists n, h. unfoldM. split; [reflexivity|].
          split; [apply TreeRuns.sameCursor_refl|]. split; [auto|].
          intros _. split; [reflexivity|]. split; [auto|]. split; [exact Hmap|auto].
        + destruct (TreeRuns.Delete_unranged (RelativeTo partialKeypath K) n h Hr Hc)
            as (n1 & h1 & Hd & Hsame & Hk & Hv & Ht & _).
          rewrite (TreeFacts.bind_Ok _ _ _ _ _ _ _ Hd).
          destruct Hsame as (Hs1 & Hs2 & Hs3 & Hs4 & Hs5 & Hs6 & Hs7).
          eexists n1, _. unfold setNodeType. unfoldM. split; [reflexivity|].
          split; [repeat split; assumption|].
          rewrite Hs5. rewrite valuesAt_setNodeTypesAt.
          split.
          { intros k x. rewrite Hv, TreeRuns.deleteAll_lookup.
            case_bool_decide; [discriminate|auto]. }
          intros [Hbad|Hbad]; congruence. }
    destruct Hstep as (n1 & h1 & Hstep & Hsame & Hshrink & Hok).
    assert (Hr1 : rng n1 = None) by (destruct Hsame as (_ & -> & _); exact Hr).
    assert (Hc1 : copied n1 = false) by (destruct Hsame as (_ & _ & -> & _); exact Hc).
    destruct (IH (i + 1) next (new ++ [partialKeypath]) n1 h1 Hr1 Hc1)
      as (n' & h' & Heq & Hsame' & Hshrink' & Hok').
    assert (Hv1 : values n1 = values n) by (destruct Hsame as (_ & _ & _ & -> & _); reflexivity).
    assert (Ht1 : nodeTypes n1 = nodeTypes n)
      by (destruct Hsame as (_ & _ & _ & _ & -> & _); reflexivity).
    assert (Hnt : forall h0 q, nodeTypeOf h0 n1 q = nodeTypeOf h0 n q).
    { intros h0 q. unfold nodeTypeOf. now rewrite Ht1. }
    assert (Hmo : forall h0 q, mapOrAbsent h0 n1 q <-> mapOrAbsent h0 n q).
    { intros h0 q. unfold mapOrAbsent. now rewrite Hnt. }
    rewrite Hv1 in Hshrink', Hok'.
    exists n', h'. split.
    + unfold mbind at 1 2, M_bind at 1 2, bind at 1 2, getNode, getHeap.
      fold partialKeypath.
      unfold mbind at 1, M_bind at 1, bind at 1.
      rewrite Hstep. fold next. rewrite Heq. now rewrite <- app_assoc.
    + split; [eapply TreeRuns.sameCursor_trans; eauto|].
      split; [auto|].
      intros Hall. apply Forall_cons in Hall as [Hp Hrest].
      destruct (Hok Hp) as (Hveq & Hkeep & Hnow & Hmaps).
      destruct Hok' as (Hveq' & Hall' & Hmaps').
      { eapply Forall_impl; [exact Hrest|]. intros q Hq. apply Hmo, Hkeep, Hq. }
      split; [congruence|]. split.
      * constructor.
        -- rewrite <- Hnt. apply Hmaps'. now rewrite Hnt.
        -- eapply Forall_impl; [exact Hall'|]. intros q Hq. now rewrite <- Hnt.
      * intros q Hq. rewrite <- Hnt. apply Hmaps'. rewrite Hnt. now apply Hmaps.
Qed.

(** X25: what [Set] leaves alone.  An un-ranged [Set(K, v)] on a cursor
    without a range writes values under [K] only: a value found afterwards at
    a keypath that is not under [K] was there before, unchanged.  When every
    keypath that the first loop of [Set] goes through (the root, and [K] cut
    after each of its segments but the last) holds a map or nothing, no value
    outside [K] is lost either: [Exists] and the typed readers give at every
    keypath that is not under [K] what they gave before the call. *)
Theorem set_leaves_the_rest (K : Keypath) (v : Value) (n : MemoryNode) (h : Heap) :
  rng n = None -> copied n = false ->
  exists n' h',
    Set_ K None v n h = Ok None n' h' /\
    (forall k x, StartsWith k (Push (keypath n) K) = false ->
       valuesAt h' (values n') !! k = Some x ->
       valuesAt h (values n) !! k = Some x) /\
    (Forall (mapOrAbsent h n) (ancestors n K) ->
     forall K2, StartsWith (Push (keypath n) K2) (Push (keypath n) K) = false ->
       Exists n' h' K2 = Exists n h K2 /\
       StringValue n' h' K2 = StringValue n h K2 /\
       UintValue n' h' K2 = UintValue n h K2 /\
       IntValue n' h' K2 = IntValue n h K2 /\
       FloatValue n' h' K2 = FloatValue n h K2).
Proof.
  intros Hr Hc. unfold ancestors. set (abs := Push (keypath n) K).
  destruct (TreeRuns.Set_steps K v n h Hr Hc)
    as (n1 & h1 & n2 & h2 & h3 & Hd & Ha & Hw & Hsame & _ & Hset).
  fold abs in Ha, Hw, Hset.
  destruct (TreeRuns.Delete_unranged K n h Hr Hc)
    as (n1' & h1' & Hd' & Hsame1 & _ & Hv1 & Ht1 & _).
  rewrite Hd in Hd'. injection Hd' as <- <-. fold abs in Hv1, Ht1.
  assert (Hr1 : rng n1 = None) by (destruct Hsame1 as (_ & -> & _); exact Hr).
  assert (Hc1 : copied n1 = false) by (destruct Hsame1 as (_ & _ & -> & _); exact Hc).
  assert (Hlv1 : values n1 = values n)
    by (destruct Hsame1 as (_ & _ & _ & -> & _); reflexivity).
  assert (Hlt1 : nodeTypes n1 = nodeTypes n)
    by (destruct Hsame1 as (_ & _ & _ & _ & -> & _); reflexivity).
  destruct (setAncestors_values K abs (removelast ("" :: Parts abs)) 0 0 [] n1 h1
              Hr1 Hc1) as (n2' & h2' & Ha' & _ & Hshrink & Hok).
  cbn [app] in Ha'. rewrite Ha in Ha'. injection Ha' as <- <-.
  assert (Hlv2 : values n2 = values n)
    by (destruct Hsame as (_ & _ & _ & -> & _); reflexivity).
  destruct (TreeRuns.forEachM_setWalked_views abs (walkGoValue v) n2 h2)
    as (h3' & Hw' & Hv3 & _).
  rewrite Hw in Hw'. injection Hw' as <-.
  rewrite Hlv2 in Hv3. rewrite Hlv1 in Hshrink, Hok.
  eexists _, _. split; [exact Hset|].
  cbn [values keypath]. rewrite valuesAt_setDiffAt, Hv3.
  assert (Hrun : forall k, StartsWith k abs = false ->
                           k ∉ scanned abs false (keypaths n)).
  { intros k Hk Hin.
    pose proof (TreeRuns.scanned_StartsWith abs (keypaths n) false) as Hall.
    rewrite Forall_forall in Hall. apply Hall in Hin. congruence. }
  split.
  - intros k x Hk. rewrite walkedValues_other by exact Hk.
    intros Hx. apply Hshrink in Hx. rewrite Hv1, TreeRuns.deleteAll_lookup in Hx.
    now rewrite bool_decide_eq_false_2 in Hx by (now apply Hrun).
  - intros Hall K2 Hk.
    destruct Hok as (Hveq & _).
    { eapply Forall_impl; [exact Hall|]. intros q Hq.
      assert (Hq1 : mapOrAbsent h1 n q) by (eapply mapOrAbsent_deleteAll; eauto).
      unfold mapOrAbsent, nodeTypeOf in *. now rewrite Hlt1. }
    assert (Hsame_at :
      walkedValues abs (valuesAt h2 (values n)) (walkGoValue v) !! Push (keypath n) K2
      = valuesAt h (values n) !! Push (keypath n) K2).
    { rewrite walkedValues_other by exact Hk.
      rewrite Hveq, Hv1, TreeRuns.deleteAll_lookup.
      now rewrite bool_decide_eq_false_2 by (now apply Hrun). }
    unfold Exists, StringValue, UintValue, IntValue, FloatValue.
    cbn [values keypath]. rewrite valuesAt_setDiffAt, Hv3, Hsame_at. auto.
Qed.

Lemma set_leaves_the_rest_witness :
  let r0 := Set_ "users/7/name" None (VString "bob")
              (fst (NewMemoryNode emptyHeap)) (snd (NewMemoryNode emptyHeap)) in
  let n := resNode r0 in
  let h := resHeap r0 in
  ancestors n "users/8" = [""; "users"] /\
  Forall (mapOrAbsent h n) (ancestors n "users/8") /\
  exists n' h',
    Set_ "users/8" None (VMap [("name", VString "eve")]) n h = Ok None n' h' /\
    (forall k x, StartsWith k (Push (keypath n) "users/8") = false ->
       valuesAt h' (values n') !! k = Some x ->
       valuesAt h (values n) !! k = Some x) /\
    (Forall (mapOrAbsent h n) (ancestors n "users/8") ->
     forall K2, StartsWith (Push (keypath n) K2) (Push (keypath n) "users/8") = false ->
       Exists n' h' K2 = Exists n h K2 /\
       StringValue n' h' K2 = StringValue n h K2 /\
       UintValue n' h' K2 = UintValue n h K2 /\
       IntValue n' h' K2 = IntValue n h K2 /\
       FloatValue n' h' K2 = FloatValue n h K2).
Proof.
  intros r0 n h. split; [vm_compute; reflexivity|]. split.
  - change (ancestors n "users/8") with [""; "users"].
    constructor; [right; vm_compute; reflexivity|].
    constructor; [right; vm_compute; reflexivity|constructor].
  - apply (set_leaves_the_rest "users/8" (VMap [("name", VString "eve")]) n h);
      vm_compute; reflexivity.
Defined.

End TreeFrames.

(** ** Messages from JSON *)

Module MsgFacts.

Import MsgJSON.

Lemma slen_zeros (n : nat) : slen (types.zeros n) = Z.of_nat n.
Proof.
  unfold slen, types.zeros. f_equal.
  induction n as [|n IH]; [reflexivity|]. cbn [replicate string_of_list_ascii String.length].
  now rewrite IH.
Qed.

Lemma length_substring_bound (n m : nat) (s : string) :
  (String.length (String.substring n m s) <= m)%nat.
Proof.
  revert n m. induction s as [|a s IH]; intros n m.
  - destruct n, m; simpl; lia.
  - destruct n as [|n].
    + destruct m as [|m]; simpl; [lia|]. specialize (IH 0%nat m). lia.
    + simpl. apply IH.
Qed.

Lemma slen_copyToHash (bs : string) : slen (copyToHash bs) = 32.
Proof.
  unfold copyToHash. rewrite Bytes.slen_app, slen_zeros.
  pose proof (length_substring_bound 0 32 bs) as Hle.
  unfold ssub, slen in *. change (Z.to_nat (32 - 0)) with 32%nat in *.
  change (Z.to_nat 0) with 0%nat in *. lia.
Qed.

Section WithJSON.
Variables Tx EncryptedTx VerifyAddressResponse : Type.
Variable unmarshalEnvelope : string -> error + (string * string).
Variable unmarshalTx : string -> error + Tx.
Variable unmarshalEncryptedTx : string -> error + EncryptedTx.
Variable unmarshalVerifyAddressResponse : string -> error + VerifyAddressResponse.

(** X26: the message types that [UnmarshalJSON] takes.  A message comes back
    without an error only with one of six types, and with the payload that
    goes with its type (for an ack, a hash of 32 bytes).  Any other type is
    refused with the error [bad msg], the type set and the payload left as it
    was: among them [unsubscribe] and [error], which the code declares as
    message types. *)
Theorem unmarshal_takes_six_types
    (msg : Msg Tx EncryptedTx VerifyAddressResponse) (bs : string) :
  let run := UnmarshalJSON unmarshalEnvelope unmarshalTx unmarshalEncryptedTx
               unmarshalVerifyAddressResponse msg bs in
  let taken := [MsgType_Subscribe; MsgType_Put; MsgType_Ack; MsgType_Private;
                MsgType_VerifyAddress; MsgType_VerifyAddressResponse] in
  (forall msg', run = Returned None msg' ->
     Type_ msg' ∈ taken /\ payloadFits (Type_ msg') (Payload_ msg')) /\
  (forall t payload,
     unmarshalEnvelope bs = inr (t, payload) -> t ∉ taken ->
     run = Returned (Some (ErrOther "bad msg")) (mkMsg t (Payload_ msg))) /\
  (MsgType_Unsubscribe ∉ taken) /\ (MsgType_Error ∉ taken).
Proof.
  intros run taken. subst run taken. split; [|split; [|split]].
  - intros msg'. unfold UnmarshalJSON.
    destruct (unmarshalEnvelope bs) as [err|[t payload]]; [discriminate|].
    cbn [Type_ Payload_].
    destruct (String.eqb_spec t MsgType_Subscribe) as [->|_].
    { destruct (slen payload - 1 <? 1); [discriminate|].
      intros [= <-]. split; [repeat constructor|reflexivity]. }
    destruct (String.eqb_spec t MsgType_Put) as [->|_].
    { destruct (unmarshalTx payload); [discriminate|].
      intros [= <-]. split; [repeat constructor|reflexivity]. }
    destruct (String.eqb_spec t MsgType_Ack) as [->|_].
    { destruct (slen payload - 1 <? 1); [discriminate|].
      intros [= <-]. split; [repeat constructor|].
      split; [reflexivity|apply slen_copyToHash]. }
    destruct (String.eqb_spec t MsgType_Private) as [->|_].
    { destruct (unmarshalEncryptedTx payload); [discriminate|].
      intros [= <-]. split; [repeat constructor|reflexivity]. }
    destruct (String.eqb_spec t MsgType_VerifyAddress) as [->|_].
    { intros [= <-]. split; [repeat constructor|reflexivity]. }
    destruct (String.eqb_spec t MsgType_VerifyAddressResponse) as [->|_].
    { destruct (unmarshalVerifyAddressResponse payload); [discriminate|].
      intros [= <-]. split; [repeat constructor|reflexivity]. }
    discriminate.
  - intros t payload He Hnot. unfold UnmarshalJSON. rewrite He.
    cbn [Type_ Payload_].
    destruct (String.eqb_spec t MsgType_Subscribe) as [->|_];
      [exfalso; apply Hnot; repeat constructor|].
    destruct (String.eqb_spec t MsgType_Put) as [->|_];
      [exfalso; apply Hnot; repeat constructor|].
    destruct (String.eqb_spec t MsgType_Ack) as [->|_];
      [exfalso; apply Hnot; repeat constructor|].
    destruct (String.eqb_spec t MsgType_Private) as [->|_];
      [exfalso; apply Hnot; repeat constructor|].
    destruct (String.eqb_spec t MsgType_VerifyAddress) as [->|_];
      [exfalso; apply Hnot; repeat constructor|].
    destruct (String.eqb_spec t MsgType_VerifyAddressResponse) as [->|_];
      [exfalso; apply Hnot; repeat constructor|].
    reflexivity.
  - intros Hin. repeat (apply elem_of_cons in Hin as [Hin|Hin]; [discriminate|]).
    inversion Hin.
  - intros Hin. repeat (apply elem_of_cons in Hin as [Hin|Hin]; [discriminate|]).
    inversion Hin.
Qed.

(** X27: [subscribe] and [ack] payloads lose their first and last byte,
    unchecked.  A payload of fewer than two bytes makes [UnmarshalJSON]
    panic.  Otherwise the URL of a [subscribe] is the payload without its
    first and last byte, whatever these bytes are, and the hash of an [ack]
    is made of the first 32 bytes of what is left, with zeros after them when
    fewer are left. *)
Theorem unmarshal_strips_two_bytes
    (msg : Msg Tx EncryptedTx VerifyAddressResponse) (bs : string)
    (t payload : string) :
  unmarshalEnvelope bs = inr (t, payload) ->
  t = MsgType_Subscribe \/ t = MsgType_Ack ->
  UnmarshalJSON unmarshalEnvelope unmarshalTx unmarshalEncryptedTx
    unmarshalVerifyAddressResponse msg bs =
    if slen payload <? 2 then Panicked "slice bounds out of range"
    else
      let inner := ssub payload 1 (slen payload - 1) in
      Returned None
        (mkMsg t
           (if String.eqb t MsgType_Subscribe then PayloadString inner
            else PayloadHash
                   (ssub inner 0 32 +:+
                    types.zeros (32 - String.length (ssub inner 0 32))))).
Proof.
  intros He Ht. unfold UnmarshalJSON. rewrite He. cbn [Type_ Payload_].
  assert (Hlt : (slen payload - 1 <? 1) = (slen payload <? 2)).
  { destruct (Z.ltb_spec (slen payload - 1) 1), (Z.ltb_spec (slen payload) 2);
      auto; lia. }
  destruct Ht as [-> | ->]; cbn [String.eqb Ascii.eqb Bool.eqb]; rewrite Hlt;
    destruct (slen payload <? 2); reflexivity.
Qed.

End WithJSON.

Lemma unmarshal_strips_two_bytes_witness :
  UnmarshalJSON (fun _ => inr ("subscribe", "7")) (fun _ => @inr error unit tt)
    (fun _ => @inr error unit tt) (fun _ => @inr error unit tt)
    (mkMsg "" PayloadNil) "{}" =
    if slen "7" <? 2 then Panicked "slice bounds out of range"
    else
      let inner := ssub "7" 1 (slen "7" - 1) in
      Returned None
        (mkMsg "subscribe"
           (if String.eqb "subscribe" MsgType_Subscribe then PayloadString inner
            else PayloadHash
                   (ssub inner 0 32 +:+
                    types.zeros (32 - String.length (ssub inner 0 32))))).
Proof.
  apply (unmarshal_strips_two_bytes unit unit unit (fun _ => inr ("subscribe", "7"))
           (fun _ => inr tt) (fun _ => inr tt) (fun _ => inr tt)
           (mkMsg "" PayloadNil) "{}" "subscribe" "7");
    [reflexivity|now left].
Defined.

End MsgFacts.
